(** * AIND-Isolation: the game-playing agent and the heuristic sweep

    A shallow embedding of [game_agent.py] (the heuristic [custom_score], the
    driver [CustomPlayer.get_move] and the two searches [minimax] and
    [alphabeta]) and of the reporting part of [heuristic_search.py].

    Scores and clock readings are Python floats: they are binary64 values
    here too (the kernel's primitive floats), compared with the IEEE
    comparisons Python uses.  Moves are pairs of integers.  The clock and the
    heuristic are callables of the agent; the clock is read through a
    counter, and every heuristic call is recorded together with the
    perspective it was given. *)

From Stdlib Require Import ZArith List String Bool Lia Floats Uint63.
Import ListNotations.

Set Warnings "-inexact-float,-register-all".

(** ** Python values *)

Module Py.

(** [float("-inf")] and [float("inf")]. *)
Definition neg_inf : float := PrimFloat.neg_infinity.
Definition inf : float := PrimFloat.infinity.

(** The float comparisons [x < y], [x <= y], [x > y], [x >= y], [x == y]. *)
Definition flt (x y : float) : bool := PrimFloat.ltb x y.
Definition fle (x y : float) : bool := PrimFloat.leb x y.
Definition fgt (x y : float) : bool := PrimFloat.ltb y x.
Definition fge (x y : float) : bool := PrimFloat.leb y x.
Definition feq (x y : float) : bool := PrimFloat.eqb x y.

(** [x != x] holds of NaN only. *)
Definition is_nan (x : float) : bool := negb (feq x x).

(** An [int] that is a [len(...)] converted to float, as the mixed
    product [0.77 * my_moves] does. *)
Definition float_of_len (n : nat) : float :=
  PrimFloat.of_uint63 (Uint63.of_Z (Z.of_nat n)).

(** The builtin [max(iterable)] and [min(iterable)] on a non-empty
    sequence: the first item is kept until a later item compares strictly
    greater (strictly less) than the one kept. *)
Definition max_from {A} (gt : A -> A -> bool) (first : A) (rest : list A) : A :=
  fold_left (fun best item => if gt item best then item else best) rest first.

Definition min_from {A} (lt : A -> A -> bool) (first : A) (rest : list A) : A :=
  fold_left (fun best item => if lt item best then item else best) rest first.

End Py.

(** ** Data model *)

(** A move is a [(row, column)] tuple; [(-1, -1)] says there is none. *)
Definition move : Type := (Z * Z)%type.
Definition no_move : move := ((-1)%Z, (-1)%Z).

Definition move_eqb (a b : move) : bool :=
  (Z.eqb (fst a) (fst b) && Z.eqb (snd a) (snd b))%bool.

(** Tuple comparison of two moves: the first coordinate that differs decides. *)
Definition move_gt (a b : move) : bool :=
  if Z.eqb (fst a) (fst b) then Z.gtb (snd a) (snd b) else Z.gtb (fst a) (fst b).
Definition move_lt (a b : move) : bool :=
  if Z.eqb (fst a) (fst b) then Z.ltb (snd a) (snd b) else Z.ltb (fst a) (fst b).

(** Tuple comparison of two [(score, move)] pairs.  Python looks for the
    first place where the tuples differ with an identity test followed by
    [==], and only then applies [>] or [<] there.  On floats identity and
    [==] part ways on one case only, a NaN object met with itself, which
    Python takes as equal and [==] does not.  Scores are values here, not
    objects, so [pair_gt] and [pair_lt] are the comparison of the code
    whenever no score is NaN; what is stated of the pair selected by [max]
    or [min] beyond its being one of the pairs asks for that. *)
Definition pair_gt (a b : float * move) : bool :=
  if Py.feq (fst a) (fst b) then move_gt (snd a) (snd b) else Py.fgt (fst a) (fst b).
Definition pair_lt (a b : float * move) : bool :=
  if Py.feq (fst a) (fst b) then move_lt (snd a) (snd b) else Py.flt (fst a) (fst b).

(** The two player handles of a game. *)
Inductive player : Type := Player1 | Player2.

(** Modelled from the spec: the board capability, [isolation.Board], which
    these sources use but do not contain.  This is what a board answers
    about one position when asked about a player: [is_loser(player)],
    [is_winner(player)], [get_legal_moves(player)], [get_opponent(player)]. *)
Record position : Type := MkPosition {
  is_loser : player -> bool;
  is_winner : player -> bool;
  legal_moves_of : player -> list move;
  get_opponent : player -> player
}.

(** Modelled from the spec: a board of [isolation.Board] as a search sees
    it, a position together with, for each legal move of the side to move
    and in the order [get_legal_moves()] lists them, the board that
    [forecast_move] gives.  A game of Isolation is finite, and so is the
    tree. *)
Inductive board : Type :=
| MkBoard (pos : position) (successors : list (move * board)).

Definition board_position (b : board) : position :=
  match b with MkBoard p _ => p end.
Definition board_successors (b : board) : list (move * board) :=
  match b with MkBoard _ s => s end.

(** [game.get_legal_moves()]: the legal moves of the side to move. *)
Definition get_legal_moves (b : board) : list move :=
  map fst (board_successors b).

(** [game.forecast_move(m)], which the searches call on legal moves only. *)
Definition forecast_move (b : board) (m : move) : board :=
  match find (fun mc => move_eqb (fst mc) m) (board_successors b) with
  | Some mc => snd mc
  | None => b
  end.

(** ** Effects: the clock, the heuristic calls, and exceptions *)

(** The [n]-th call of [time_left()] answers [clock n] milliseconds. *)
Definition clock : Type := nat -> float.

Record world : Type := MkWorld {
  ticks : nat;                       (* clock reads made so far *)
  evals : list (board * player)      (* heuristic calls, most recent first *)
}.

Definition tick (w : world) : world := MkWorld (S (ticks w)) (evals w).
Definition record_eval (b : board) (p : player) (w : world) : world :=
  MkWorld (ticks w) ((b, p) :: evals w).

Inductive exn : Type :=
| Timeout
| ValueError (msg : string).

Inductive outcome (A : Type) : Type :=
| Ok (a : A)
| Raise (e : exn).
Arguments Ok {A} a.
Arguments Raise {A} e.

Definition M (A : Type) : Type := world -> outcome A * world.

Definition ret {A} (a : A) : M A := fun w => (Ok a, w).
Definition raise {A} (e : exn) : M A := fun w => (Raise e, w).
Definition bind {A B} (c : M A) (k : A -> M B) : M B :=
  fun w => match c w with
           | (Ok a, w') => k a w'
           | (Raise e, w') => (Raise e, w')
           end.

Notation "x <- c ;; k" := (bind c (fun x => k))
  (at level 61, c at next level, right associativity).

(** ** The heuristic *)

(** [custom_score(game, player)]. *)
Definition custom_score (game : board) (p : player) : float :=
  let pos := board_position game in
  if is_loser pos p then Py.neg_inf
  else if is_winner pos p then Py.inf
  else
    let my_moves := List.length (legal_moves_of pos p) in
    let opp_moves := List.length (legal_moves_of pos (get_opponent pos p)) in
    (0.77 * Py.float_of_len my_moves + 0.23 * Py.float_of_len opp_moves)%float.

(** ** The agent *)

Record CustomPlayer : Type := MkCustomPlayer {
  search_depth : Z;
  score : board -> player -> float;
  iterative : bool;
  method : string;
  time_left : clock;
  TIMER_THRESHOLD : float;
  (* the handle under which the boards know this agent: Python's [self] *)
  self_handle : player
}.

Definition set_time_left (self : CustomPlayer) (tl : clock) : CustomPlayer :=
  MkCustomPlayer (search_depth self) (score self) (iterative self) (method self)
                 tl (TIMER_THRESHOLD self) (self_handle self).

Section Agent.

Variable self : CustomPlayer.

(** [if self.time_left() < self.TIMER_THRESHOLD: raise Timeout()]. *)
Definition check_time : M unit :=
  fun w =>
    if Py.flt (time_left self (ticks w)) (TIMER_THRESHOLD self)
    then (Raise Timeout, tick w)
    else (Ok tt, tick w).

(** [self.score(b, self)]. *)
Definition call_score (b : board) : M float :=
  fun w => (Ok (score self b (self_handle self)),
            record_eval b (self_handle self) w).

(** A list comprehension [[(f(c), m) for (m, c) in succ]] whose body may
    raise. *)
Definition comprehension (f : board -> M float)
  : list (move * board) -> M (list (float * move)) :=
  fix go (succ : list (move * board)) : M (list (float * move)) :=
    match succ with
    | [] => ret []
    | (m, child) :: rest =>
        s <- f child ;;
        tl <- go rest ;;
        ret ((s, m) :: tl)
    end.

(** [max(children) if maximizing_player else min(children)]; both builtins
    raise [ValueError] on an empty sequence. *)
Definition select (maximizing_player : bool) (children : list (float * move))
  : M (float * move) :=
  match children with
  | [] =>
      raise (ValueError (if maximizing_player
                         then "max() arg is an empty sequence"
                         else "min() arg is an empty sequence"))
  | c :: cs =>
      ret (if maximizing_player then Py.max_from pair_gt c cs
           else Py.min_from pair_lt c cs)
  end.

(** [legal_moves == []]. *)
Definition is_empty {A} (l : list A) : bool :=
  match l with [] => true | _ :: _ => false end.

Fixpoint minimax (game : board) (depth : Z) (maximizing_player : bool)
  {struct game} : M (float * move) :=
  _ <- check_time ;;
  match game with
  | MkBoard _ succ =>
      if is_empty (map fst succ)
      then s <- call_score game ;; ret (s, no_move)
      else
        children <-
          (if Z.eqb depth 1
           then comprehension call_score succ
           else comprehension
                  (fun child =>
                     r <- minimax child (depth - 1) (negb maximizing_player) ;;
                     ret (fst r))
                  succ) ;;
        select maximizing_player children
  end.

(** [__prune__(old_alpha, old_beta, score, maximizing_player)]. *)
Definition __prune__ (old_alpha old_beta score : float) (maximizing_player : bool)
  : bool :=
  (maximizing_player && Py.fle old_beta score)
  || (negb maximizing_player && Py.fge old_alpha score).

(** [__update_limit__(old_alpha, old_beta, score, maximizing_player)]. *)
Definition __update_limit__ (old_alpha old_beta score : float)
  (maximizing_player : bool) : float * float :=
  if maximizing_player then (score, old_beta) else (old_alpha, score).

(** The test that guards the update of [best_move, best_score]. *)
Definition improves (maximizing_player : bool) (score best_score : float) : bool :=
  (maximizing_player && Py.fgt score best_score)
  || (negb maximizing_player && Py.flt score best_score).

(** The [for move in legal_moves] loop of [alphabeta], from the moves still
    to visit and the current [alpha], [beta], [best_score], [best_move];
    [recurse] is the call on a forecast board with the bounds of the
    moment. *)
Definition alphabeta_loop
  (recurse : board -> float -> float -> M (float * move))
  (maximizing_player : bool)
  : list (move * board) -> float -> float -> float -> move -> M (float * move) :=
  fix loop todo alpha beta best_score best_move :=
    match todo with
    | [] => ret (best_score, best_move)
    | (m, child) :: rest =>
        r <- recurse child alpha beta ;;
        let score := fst r in
        if improves maximizing_player score best_score
        then
          if __prune__ alpha beta score maximizing_player
          then ret (score, m)
          else
            let (alpha', beta') :=
              __update_limit__ alpha beta score maximizing_player in
            loop rest alpha' beta' score m
        else loop rest alpha beta best_score best_move
    end.

Fixpoint alphabeta (game : board) (depth : Z) (alpha beta : float)
  (maximizing_player : bool) {struct game} : M (float * move) :=
  _ <- check_time ;;
  match game with
  | MkBoard _ succ =>
      let legal_moves := map fst succ in
      if Z.eqb depth 0 || is_empty legal_moves
      then s <- call_score game ;; ret (s, no_move)
      else
        let best_score := if maximizing_player then Py.neg_inf else Py.inf in
        let best_move := hd no_move legal_moves in
        alphabeta_loop
          (fun child a b =>
             alphabeta child (depth - 1) a b (negb maximizing_player))
          maximizing_player succ alpha beta best_score best_move
  end.

(** The search the driver calls: [search_method(game, depth,
    maximizing_player=True)], with [alphabeta]'s default bounds. *)
Inductive search_method : Type := UseMinimax | UseAlphabeta.

Definition run_search (sm : search_method) (game : board) (depth : Z)
  : M (float * move) :=
  match sm with
  | UseMinimax => minimax game depth true
  | UseAlphabeta => alphabeta game depth Py.neg_inf Py.inf true
  end.

(** The [while True] loop of iterative deepening inside the [try] block,
    for at most [fuel] rounds; [None] says that the loop is still running
    after that many rounds.  [Timeout] is the one exception caught. *)
Fixpoint deepen (fuel : nat) (search : Z -> M (float * move))
  (current_depth : Z) (best_move : move) (w : world)
  : option (outcome move * world) :=
  match fuel with
  | O => None
  | S fuel' =>
      match search current_depth w with
      | (Ok r, w') => deepen fuel' search (current_depth + 1) (snd r) w'
      | (Raise Timeout, w') => Some (Ok best_move, w')
      | (Raise e, w') => Some (Raise e, w')
      end
  end.

End Agent.

(** The [if]/[elif]/[else] on [self.method] that picks the search. *)
Definition choose_method (name : string) : option search_method :=
  if String.eqb name "minimax" then Some UseMinimax
  else if String.eqb name "alphabeta" then Some UseAlphabeta
  else None.

(** [get_move(game, legal_moves, time_left)]. *)
Definition get_move (fuel : nat) (self0 : CustomPlayer) (game : board)
  (legal_moves : list move) (tl : clock) (w : world)
  : option (outcome move * world) :=
  let self := set_time_left self0 tl in
  match legal_moves with
  | [] => Some (Ok no_move, w)
  | first :: _ =>
      match choose_method (method self) with
      | None =>
          Some (Raise (ValueError ("Method " ++ method self ++ " not supported.")), w)
      | Some sm =>
          if negb (iterative self)
          then
            match run_search self sm game (search_depth self) w with
            | (Ok r, w') => Some (Ok (snd r), w')
            | (Raise Timeout, w') => Some (Ok first, w')
            | (Raise e, w') => Some (Raise e, w')
            end
          else deepen fuel (run_search self sm game) 1 first w
      end
  end.

(** ** heuristic_search.py: the report of the parameter sweep *)






(** [x * 0.01 for x in range(0, 120, 20)]. *)
Definition alphas : list float :=
  map (fun x => (Py.float_of_len x * 0.01)%float) [0; 20; 40; 60; 80; 100]%nat.







Section Sweep.

(** [str] on floats, the two readings of [datetime.now()] as printed, and
    the value [play_round_2] returns in the [k]-th turn of the loop over
    the test agents (the matches are played by [tournament], which is not
    part of these sources). *)
Variable str : float -> string.
Variable now_before now_after : string.
Variable round_result : nat -> float.






End Sweep.

(** ** Notions the statements use *)

(** An order-preserving key of a float that is not NaN: class, then
    exponent, then mantissa, mirrored for the negative ones. *)
Definition key3 : Type := (Z * Z * Z)%type.

Definition sf_key (f : spec_float) : key3 :=
  match f with
  | S754_infinity true => (-2, 0, 0)
  | S754_finite true m e => (-1, - e, Z.neg m)
  | S754_zero _ => (0, 0, 0)
  | S754_nan => (0, 0, 0)
  | S754_finite false m e => (1, e, Z.pos m)
  | S754_infinity false => (2, 0, 0)
  end%Z.

Definition fkey (x : float) : key3 := sf_key (Prim2SF x).

Definition lex3_lt (a b : key3) : Prop :=
  let '(a1, a2, a3) := a in
  let '(b1, b2, b3) := b in
  (a1 < b1 \/ (a1 = b1 /\ (a2 < b2 \/ (a2 = b2 /\ a3 < b3))))%Z.

Definition pair_key (a : float * move) : key3 * Z * Z :=
  (fkey (fst a), fst (snd a), snd (snd a)).

Definition lex5_lt (a b : key3 * Z * Z) : Prop :=
  let '(ka, ra, ca) := a in
  let '(kb, rb, cb) := b in
  lex3_lt ka kb \/ (ka = kb /\ (ra < rb \/ (ra = rb /\ ca < cb)))%Z.

Definition lex5_le (a b : key3 * Z * Z) : Prop := ~ lex5_lt b a.

(** A [(score, move)] pair whose score is a number. *)
Definition real_score (c : float * move) : Prop := Py.is_nan (fst c) = false.

(** The [n]-th clock reading is under the agent's threshold. *)
Definition below (self : CustomPlayer) (n : nat) : bool :=
  Py.flt (time_left self n) (TIMER_THRESHOLD self).

(** No reading from the [a]-th up to, not including, the [b]-th is under
    the threshold. *)
Definition reads_pass (self : CustomPlayer) (a b : nat) : Prop :=
  forall n, a <= n < b -> below self n = false.

(** From [w] to [w'] heuristic calls were only added, all of them from the
    perspective of the agent. *)
Definition only_self (self : CustomPlayer) (w w' : world) : Prop :=
  exists new, evals w' = new ++ evals w
              /\ Forall (fun e => snd e = self_handle self) new.

(** The score [s] is what the heuristic answered, asked from the
    perspective of the agent, on one of the boards it was called on between
    [w] and [w']. *)
Definition scored_by_self (self : CustomPlayer) (w w' : world) (s : float) : Prop :=
  exists new b,
    evals w' = new ++ evals w
    /\ In (b, self_handle self) new
    /\ s = score self b (self_handle self).

(** A computation that reads the clock in order, returns only when no
    reading was under the threshold, and raises nothing but [Timeout], at
    the first reading under the threshold. *)
Definition disciplined {A} (self : CustomPlayer) (c : M A) : Prop :=
  forall w,
    match c w with
    | (Ok _, w') =>
        ticks w <= ticks w' /\ reads_pass self (ticks w) (ticks w')
        /\ only_self self w w'
    | (Raise e, w') =>
        e = Timeout /\ ticks w < ticks w'
        /\ reads_pass self (ticks w) (Nat.pred (ticks w'))
        /\ below self (Nat.pred (ticks w')) = true
        /\ only_self self w w'
    end.

(** The value [minimax] pairs with a move: the heuristic of the forecast
    board at depth 1, the score of the recursive call otherwise. *)
Definition child_value (self : CustomPlayer) (depth : Z) (maximizing_player : bool)
  : board -> M float :=
  if Z.eqb depth 1 then call_score self
  else fun child =>
         r <- minimax self child (depth - 1) (negb maximizing_player) ;;
         ret (fst r).

(** What [minimax] and [alphabeta] do once the clock has let them in. *)
Definition minimax_body (self : CustomPlayer) (game : board) (depth : Z)
  (maximizing_player : bool) : M (float * move) :=
  if is_empty (get_legal_moves game)
  then s <- call_score self game ;; ret (s, no_move)
  else
    children <- comprehension (child_value self depth maximizing_player)
                              (board_successors game) ;;
    select maximizing_player children.

Definition alphabeta_body (self : CustomPlayer) (game : board) (depth : Z)
  (alpha beta : float) (maximizing_player : bool) : M (float * move) :=
  if Z.eqb depth 0 || is_empty (get_legal_moves game)
  then s <- call_score self game ;; ret (s, no_move)
  else
    alphabeta_loop
      (fun child a b =>
         alphabeta self child (depth - 1) a b (negb maximizing_player))
      maximizing_player (board_successors game) alpha beta
      (if maximizing_player then Py.neg_inf else Py.inf)
      (hd no_move (get_legal_moves game)).

(** The [(score, move)] pairs of the heuristic on each forecast board, and
    the world after the heuristic was called on each of them in turn. *)
Definition leaf_children (self : CustomPlayer) (succ : list (move * board))
  : list (float * move) :=
  map (fun mc => (score self (snd mc) (self_handle self), fst mc)) succ.

Definition after_leaf_evals (self : CustomPlayer) (succ : list (move * board))
  (w : world) : world :=
  MkWorld (ticks w)
          (rev (map (fun mc => (snd mc, self_handle self)) succ) ++ evals w).

(** A move a search may return on a board: one of the legal moves, or the
    sentinel when there is none. *)
Definition legal_or_sentinel (game : board) (m : move) : Prop :=
  (get_legal_moves game = [] /\ m = no_move)
  \/ (get_legal_moves game <> [] /\ In m (get_legal_moves game)).

(** [k] searches in a row, at depths [d], [d+1], ..., that all return: the
    move of the last one ([best] when [k] is 0) and the world they leave. *)
Fixpoint completed_rounds (search : Z -> M (float * move)) (k : nat)
  (d : Z) (best : move) (w : world) : option (move * world) :=
  match k with
  | O => Some (best, w)
  | S k' =>
      match search d w with
      | (Ok r, w') => completed_rounds search k' (d + 1) (snd r) w'
      | (Raise _, _) => None
      end
  end.

(** The specification float is a number. *)
Definition sf_not_nan (f : spec_float) : Prop := f <> S754_nan.

(** No pair of [children] compares greater (on a maximizing layer) or less
    (on a minimizing layer) than [r] as a tuple; in particular none has a
    better score, and among those of equal score none has a move that
    compares greater (less). *)
Definition extremal (mp : bool) (children : list (float * move))
  (r : float * move) : Prop :=
  Forall (fun c =>
            if mp
            then pair_gt c r = false
                 /\ Py.fgt (fst c) (fst r) = false
                 /\ (Py.feq (fst c) (fst r) = true -> move_gt (snd c) (snd r) = false)
            else pair_lt c r = false
                 /\ Py.flt (fst c) (fst r) = false
                 /\ (Py.feq (fst c) (fst r) = true -> move_lt (snd c) (snd r) = false))
         children.



(** ** Sample boards and agents *)

Definition player_eqb (p q : player) : bool :=
  match p, q with
  | Player1, Player1 | Player2, Player2 => true
  | _, _ => false
  end.

Definition other_player (p : player) : player :=
  match p with Player1 => Player2 | Player2 => Player1 end.

(** A board of Isolation seen from outside: [mover] is to move and has the
    moves of [succ]; the player waiting could reach [waiting_moves].  The
    side to move has lost, and the other side won, when it cannot move. *)
Definition node (mover : player) (waiting_moves : list move)
  (succ : list (move * board)) : board :=
  MkBoard
    (MkPosition
       (fun p => player_eqb p mover && is_empty succ)
       (fun p => negb (player_eqb p mover) && is_empty succ)
       (fun p => if player_eqb p mover then map fst succ else waiting_moves)
       other_player)
    succ.

Definition squares (n : nat) : list move := map (fun k => (0, Z.of_nat k)%Z) (seq 0 n).

(** Boards with no move left for the side to move. *)
Definition stuck (mover : player) (waiting : nat) : board :=
  node mover (squares waiting) [].

(** Player2 to move, one move left, Player1 could reach [waiting] squares. *)
Definition reply (waiting : nat) : board :=
  node Player2 (squares waiting) [((7, 7)%Z, stuck Player1 0)].

(** Player1 to move with two moves whose forecast boards score the same. *)
Definition tie_board : board :=
  node Player1 (squares 1) [((0, 1)%Z, reply 2); ((1, 0)%Z, reply 2)].

(** Player1 to move, three plies deep. *)
Definition deep_board : board :=
  node Player1 (squares 2)
    [ ((2, 3)%Z, node Player2 (squares 3)
                   [ ((1, 1)%Z, node Player1 (squares 1)
                                  [((4, 4)%Z, reply 2); ((4, 5)%Z, reply 5)]);
                     ((1, 2)%Z, node Player1 (squares 2) [((5, 5)%Z, reply 1)]) ]);
      ((3, 2)%Z, node Player2 (squares 4)
                   [ ((6, 1)%Z, node Player1 (squares 1)
                                  [((0, 0)%Z, reply 3); ((0, 2)%Z, reply 4)]) ]) ].

(** Player1 to move: the first move looks better to the heuristic one ply
    deep, the second one two plies deep. *)
Definition switch_board : board :=
  node Player1 (squares 2)
    [ ((0, 1)%Z, node Player2 (squares 5)
                   [((2, 2)%Z, node Player1 (squares 4)
                                 [((9, 9)%Z, stuck Player2 0)])]);
      ((1, 0)%Z, node Player2 (squares 3)
                   [((2, 2)%Z, node Player1 (squares 1)
                                 [((7, 7)%Z, stuck Player2 0);
                                  ((7, 8)%Z, stuck Player2 0);
                                  ((7, 9)%Z, stuck Player2 0)])]) ].

(** A clock that never runs low, one that is low from the start, and one
    that runs low at its [n]-th reading. *)
Definition plenty : clock := fun _ => 150%float.
Definition expired : clock := fun _ => 0%float.
Definition low_from (n : nat) : clock :=
  fun k => if Nat.ltb k n then 150%float else 5%float.

Definition sample_player (m : string) (iter : bool) (d : Z) (tl : clock)
  : CustomPlayer :=
  MkCustomPlayer d custom_score iter m tl 10%float Player1.

Definition fresh : world := MkWorld 0 [].

(** Agents with the heuristic above, the default threshold of 10 ms, known
    to the boards as Player1. *)
Definition alphabeta_agent : CustomPlayer := sample_player "alphabeta" false 3 plenty.
Definition minimax_agent : CustomPlayer := sample_player "minimax" false 3 plenty.
Definition deepening_agent : CustomPlayer := sample_player "minimax" true 3 plenty.

(** Player1 to move with five legal moves; Player2 could reach two squares. *)
Definition five_two_board : board :=
  node Player1 (squares 2)
    (map (fun m => (m, stuck Player2 0)) (squares 5)).





(** ** Notions of the further properties *)

(** The place of a float that is a number on the line of integers: floats
    compare as their places do. *)
Definition sf_rank (f : spec_float) : Z :=
  match f with
  | S754_infinity true => - 2 ^ 64
  | S754_finite true m e => - ((e + 1075) * 2 ^ 53 + Z.pos m)
  | S754_zero _ => 0
  | S754_nan => 0
  | S754_finite false m e => (e + 1075) * 2 ^ 53 + Z.pos m
  | S754_infinity false => 2 ^ 64
  end%Z.

Definition rank (x : float) : Z := sf_rank (Prim2SF x).

(** A float that is a number. *)
Definition numeric (x : float) : Prop := Py.is_nan x = false.

(** The greater and the lesser of two floats. *)
Definition fmax (x y : float) : float := if Py.flt x y then y else x.
Definition fmin (x y : float) : float := if Py.flt y x then y else x.

(** The value of a board to a horizon of [depth] plies, for the heuristic
    [h]: the heuristic at the horizon and on boards without a move, the
    best of the values of the forecast boards otherwise. *)
Fixpoint reference_value (h : board -> float) (game : board) (depth : Z)
  (maximizing : bool) {struct game} : float :=
  match game with
  | MkBoard _ succ =>
      if Z.eqb depth 0 || is_empty succ then h game
      else
        fold_left (if maximizing then fmax else fmin)
          (map (fun mc => reference_value h (snd mc) (depth - 1) (negb maximizing))
               succ)
          (if maximizing then Py.neg_inf else Py.inf)
  end.

(** The heuristic is a number on the board and on every board below it. *)
Fixpoint numeric_on (h : board -> float) (game : board) {struct game} : bool :=
  match game with
  | MkBoard _ succ =>
      negb (Py.is_nan (h game)) && forallb (fun mc => numeric_on h (snd mc)) succ
  end.

(** What a search with the window from [a] to [b] may answer for a value
    [v]: the value itself when it lies inside the window, and otherwise a
    bound between the value and the side of the window it fell out of. *)
Definition within_window (a b v s : Z) : Prop :=
  ((a < v < b -> s = v)
   /\ (v <= a -> v <= s <= a)
   /\ (b <= v -> b <= s <= v))%Z.

(** What a call on a forecast board is known to do: for any proper window
    of numbers its score is a number and a fair answer for the value. *)
Definition answers_within (recurse : board -> float -> float -> M (float * move))
  (val : board -> float) (child : board) : Prop :=
  numeric (val child)
  /\ forall a b w r w',
       numeric a -> numeric b -> (rank a < rank b)%Z ->
       recurse child a b w = (Ok r, w') ->
       numeric (fst r)
       /\ within_window (rank a) (rank b) (rank (val child)) (rank (fst r)).

(** The heuristic as the agent calls it. *)
Definition own_score (self : CustomPlayer) (b : board) : float :=
  score self b (self_handle self).

(** From [w] to [w'] heuristic calls were only added, all of them on boards
    that satisfy [P]. *)
Definition evals_added (P : board -> Prop) (w w' : world) : Prop :=
  exists new, evals w' = new ++ evals w /\ Forall (fun e => P (fst e)) new.

(** A computation whose heuristic calls are all on boards that satisfy [P]. *)
Definition evaluates_only {A} (P : board -> Prop) (c : M A) : Prop :=
  forall w, evals_added P w (snd (c w)).

(** A board on which the side to move has no legal move. *)
Definition no_moves (b : board) : Prop := get_legal_moves b = [].

(** The move [m] is the first of [l] that leads to a board of the best
    value, whose place is [best]: the boards before it have a lesser value
    on a maximizing layer, a greater one on a minimizing layer. *)
Definition first_best (mp : bool) (val : board -> float)
  (l : list (move * board)) (m : move) (best : Z) : Prop :=
  exists pre c post,
    l = pre ++ (m, c) :: post
    /\ rank (val c) = best
    /\ Forall (fun mc => if mp then (rank (val (snd mc)) < best)%Z
                         else (best < rank (val (snd mc)))%Z) pre.

(** The value of the board a move leads to, as its parent sees it. *)
Definition value_below (self : CustomPlayer) (depth : Z) (mp : bool)
  (child : board) : float :=
  reference_value (own_score self) child (depth - 1) (negb mp).

(** [l1] is [l2] with some items left out, the others in their order. *)
Inductive subsequence {A : Type} : list A -> list A -> Prop :=
| subsequence_nil : subsequence [] []
| subsequence_skip x l1 l2 : subsequence l1 l2 -> subsequence l1 (x :: l2)
| subsequence_keep x l1 l2 : subsequence l1 l2 -> subsequence (x :: l1) (x :: l2).

(** The heuristic calls of a run of [alphabeta] from [w2] to [w2'] are a
    subsequence of those of a run of [minimax] from [w1] to [w1']. *)
Definition calls_pruned (w1 w1' w2 w2' : world) : Prop :=
  exists e1 e2,
    evals w1' = e1 ++ evals w1 /\ evals w2' = e2 ++ evals w2
    /\ subsequence e2 e1.

(** A specification float that is zero, a positive number or plus
    infinity. *)
Definition sf_not_negative (f : spec_float) : Prop :=
  match f with
  | S754_zero _ => True
  | S754_finite false _ _ => True
  | S754_infinity false => True
  | _ => False
  end.

(** Modelled from the spec: [Agent], the named tuple of [tournament], built
    by these sources as [Agent(player, name)] and read through [.player]
    and [.name]; the player is here the identity of the player object. *)
Record Agent : Type := MkAgent {
  agent_player : nat;
  agent_name : string
}.

(** The matches [play_match] was asked to play so far, oldest first, each
    with the player that moved first and the one that moved second. *)
Record season : Type := MkSeason {
  matches : list (nat * nat)
}.

(** What [play_round_2] can raise. *)
Inductive round_error : Type := IndexError | ZeroDivisionError.

Inductive round_outcome : Type :=
| RoundOk (percentage : float)
| RoundRaise (e : round_error).

(** A dictionary from players to floats, in insertion order. *)
Definition counts_dict : Type := list (nat * float).

(** [{k1: 0., k2: 0.}]: one entry when the two keys are the same object. *)
Definition new_counts (k1 k2 : nat) : counts_dict :=
  if Nat.eqb k1 k2 then [(k1, 0%float)] else [(k1, 0%float); (k2, 0%float)].

(** [counts[k]] for a key that is present. *)
Definition counts_get (d : counts_dict) (k : nat) : float :=
  match find (fun kv => Nat.eqb (fst kv) k) d with
  | Some kv => snd kv
  | None => 0%float
  end.

(** [counts[k] += x] for a key that is present. *)
Definition counts_add (d : counts_dict) (k : nat) (x : float) : counts_dict :=
  map (fun kv => if Nat.eqb (fst kv) k then (fst kv, (snd kv + x)%float) else kv) d.

(** Modelled from the spec: [play_match] belongs to [tournament], which
    these sources only call; the match-running infrastructure is an opaque
    capability.  The [k]-th match of the season, between a first and a
    second player, gives the numbers of games won by the one and by the
    other. *)
Definition match_results : Type := nat -> nat -> nat -> nat * nat.

(** [score_1, score_2 = play_match(p1, p2)]. *)
Definition play_match (match_result : match_results) (p1 p2 : nat) (s : season)
  : (nat * nat) * season :=
  (match_result (List.length (matches s)) p1 p2,
   MkSeason (matches s ++ [(p1, p2)])).

(** The body of [for _ in range(num_matches)], [n] times. *)
Fixpoint play_matches (match_result : match_results) (n : nat) (p1 p2 : nat)
  (st : counts_dict * float * season) : counts_dict * float * season :=
  match n with
  | O => st
  | S n' =>
      let '(counts, total, s) := st in
      let '((score_1, score_2), s') := play_match match_result p1 p2 s in
      let counts := counts_add counts p1 (Py.float_of_len score_1) in
      let counts := counts_add counts p2 (Py.float_of_len score_2) in
      let total := (total + Py.float_of_len (score_1 + score_2))%float in
      play_matches match_result n' p1 p2 (counts, total, s')
  end.

(** The body of the loop over the opponents: both orders of the two
    players, [itertools.permutations] of the pair, [n] matches each. *)
Definition play_pairing (match_result : match_results) (n : nat)
  (agent_1 agent_2 : Agent) (st : float * float * season)
  : float * float * season :=
  let '(wins, total, s) := st in
  let p := agent_player agent_1 in
  let q := agent_player agent_2 in
  let counts := new_counts p q in
  let st1 := play_matches match_result n p q (counts, total, s) in
  let '(counts, total, s) := play_matches match_result n q p st1 in
  ((wins + counts_get counts p)%float, total, s).

(** [play_round_2(agents, num_matches)]. *)
Definition play_round_2 (match_result : match_results) (agents : list Agent)
  (num_matches : Z) (s : season) : round_outcome * season :=
  match agents with
  | [] => (RoundRaise IndexError, s)
  | first :: _ =>
      let agent_1 := last agents first in
      let '(wins, total, s') :=
        fold_left (fun st agent_2 =>
                     play_pairing match_result (Z.to_nat num_matches) agent_1 agent_2 st)
                  (removelast agents) (0%float, 0%float, s) in
      if Py.feq total 0
      then (RoundRaise ZeroDivisionError, s')
      else (RoundOk (100 * wins / total)%float, s')
  end.

(** The matches of one round, in the order they are played. *)
Definition schedule (agents : list Agent) (num_matches : Z) : list (nat * nat) :=
  match agents with
  | [] => []
  | first :: _ =>
      let p := agent_player (last agents first) in
      flat_map (fun agent_2 =>
                  repeat (p, agent_player agent_2) (Z.to_nat num_matches)
                  ++ repeat (agent_player agent_2, p) (Z.to_nat num_matches))
               (removelast agents)
  end.

(** A roster of three agents, and matches in which the player that moves
    first wins three games and loses one. *)
Definition sample_roster : list Agent :=
  [MkAgent 1 "AB_Null"; MkAgent 2 "AB_Open"; MkAgent 3 "Alpha0.2"].

Definition first_mover_wins : match_results := fun _ _ _ => (3, 1).

Definition new_season : season := MkSeason [].

(** * Lemmas *)

(** ** The order of floats that are numbers *)

Lemma SFcompare_Lt f1 f2 :
  sf_not_nan f1 -> sf_not_nan f2 ->
  (SFcompare f1 f2 = Some Lt <-> lex3_lt (sf_key f1) (sf_key f2)).
Proof.
  unfold sf_not_nan.
  destruct f1 as [s1|s1| |s1 m1 e1], f2 as [s2|s2| |s2 m2 e2];
    try congruence; intros _ _;
    try destruct s1; try destruct s2; cbn; try (split; [intros; try discriminate; lia | intros; try reflexivity; lia]).
  - destruct (Z.compare_spec e1 e2); rewrite ?Pos.compare_cont_spec; cbn.
    + subst. destruct (Pos.compare_spec m1 m2); cbn; split; intros; try discriminate; try reflexivity; lia.
    + split; intros; try discriminate; try reflexivity; lia.
    + split; intros; try discriminate; try reflexivity; lia.
  - destruct (Z.compare_spec e1 e2); rewrite ?Pos.compare_cont_spec; cbn.
    + subst. destruct (Pos.compare_spec m1 m2); cbn; split; intros; try discriminate; try reflexivity; lia.
    + split; intros; try discriminate; try reflexivity; lia.
    + split; intros; try discriminate; try reflexivity; lia.
Qed.

Lemma SFcompare_Eq f1 f2 :
  sf_not_nan f1 -> sf_not_nan f2 ->
  (SFcompare f1 f2 = Some Eq <-> sf_key f1 = sf_key f2).
Proof.
  unfold sf_not_nan.
  destruct f1 as [s1|s1| |s1 m1 e1], f2 as [s2|s2| |s2 m2 e2];
    try congruence; intros _ _;
    try destruct s1; try destruct s2; cbn;
    try (split; intros; try discriminate; reflexivity).
  - destruct (Z.compare_spec e1 e2); rewrite ?Pos.compare_cont_spec; cbn.
    + subst. destruct (Pos.compare_spec m1 m2); cbn; split; intros E;
        try discriminate; try (subst; reflexivity); inversion E; lia.
    + split; intros E; try discriminate; inversion E; lia.
    + split; intros E; try discriminate; inversion E; lia.
  - destruct (Z.compare_spec e1 e2); rewrite ?Pos.compare_cont_spec; cbn.
    + subst. destruct (Pos.compare_spec m1 m2); cbn; split; intros E;
        try discriminate; try (subst; reflexivity); inversion E; lia.
    + split; intros E; try discriminate; inversion E; lia.
    + split; intros E; try discriminate; inversion E; lia.
Qed.

Lemma SFcompare_total f1 f2 :
  sf_not_nan f1 -> sf_not_nan f2 -> SFcompare f1 f2 <> None.
Proof.
  unfold sf_not_nan.
  destruct f1 as [s1|s1| |s1 m1 e1], f2 as [s2|s2| |s2 m2 e2];
    try congruence; intros _ _; cbn; discriminate.
Qed.

Lemma is_nan_false x : Py.is_nan x = false -> sf_not_nan (Prim2SF x).
Proof.
  unfold Py.is_nan, Py.feq, sf_not_nan. rewrite negb_false_iff, FloatAxioms.eqb_spec. unfold SFeqb.
  intros H E. rewrite E in H. discriminate H.
Qed.

Lemma flt_key x y :
  Py.is_nan x = false -> Py.is_nan y = false ->
  (PrimFloat.ltb x y = true <-> lex3_lt (fkey x) (fkey y)).
Proof.
  intros Hx%is_nan_false Hy%is_nan_false.
  rewrite FloatAxioms.ltb_spec. unfold SFltb, fkey.
  rewrite <- (SFcompare_Lt _ _ Hx Hy).
  destruct (SFcompare (Prim2SF x) (Prim2SF y)) as [[]|]; split; congruence.
Qed.

Lemma feq_key x y :
  Py.is_nan x = false -> Py.is_nan y = false ->
  (PrimFloat.eqb x y = true <-> fkey x = fkey y).
Proof.
  intros Hx%is_nan_false Hy%is_nan_false.
  rewrite FloatAxioms.eqb_spec. unfold SFeqb, fkey.
  rewrite <- (SFcompare_Eq _ _ Hx Hy).
  destruct (SFcompare (Prim2SF x) (Prim2SF y)) as [[]|]; split; congruence.
Qed.

Lemma lex3_lt_irrefl k : ~ lex3_lt k k.
Proof. destruct k as [[a b] c]. cbn. lia. Qed.

Lemma lex3_trichotomy a b : lex3_lt a b \/ a = b \/ lex3_lt b a.
Proof.
  destruct a as [[a1 a2] a3], b as [[b1 b2] b3]. cbn.
  destruct (Z.lt_trichotomy a1 b1) as [|[|]]; try lia.
  destruct (Z.lt_trichotomy a2 b2) as [|[|]]; try lia.
  destruct (Z.lt_trichotomy a3 b3) as [|[|]]; try lia.
  right; left; congruence.
Qed.

Lemma lex3_lt_trans a b c : lex3_lt a b -> lex3_lt b c -> lex3_lt a c.
Proof.
  destruct a as [[a1 a2] a3], b as [[b1 b2] b3], c as [[c1 c2] c3]. cbn. lia.
Qed.

Lemma lex5_le_refl a : lex5_le a a.
Proof.
  destruct a as [[k r] c]. unfold lex5_le; cbn.
  intros [H|[_ H]]; [exact (lex3_lt_irrefl _ H) | lia].
Qed.

Lemma lex5_lt_le a b : lex5_lt a b -> lex5_le a b.
Proof.
  destruct a as [[ka ra] ca], b as [[kb rb] cb]. unfold lex5_le; cbn.
  intros H H'.
  destruct H as [H|[-> H]], H' as [H'|[E H']]; subst.
  - exact (lex3_lt_irrefl _ (lex3_lt_trans _ _ _ H H')).
  - exact (lex3_lt_irrefl _ H).
  - exact (lex3_lt_irrefl _ H').
  - lia.
Qed.

Lemma lex5_le_trans a b c : lex5_le a b -> lex5_le b c -> lex5_le a c.
Proof.
  destruct a as [[ka ra] ca], b as [[kb rb] cb], c as [[kc rc] cc].
  unfold lex5_le; cbn. intros Hab Hbc Hca.
  destruct (lex3_trichotomy ka kb) as [L|[E|L]].
  - destruct (lex3_trichotomy kb kc) as [L'|[E'|L']].
    + pose proof (lex3_lt_trans _ _ _ L L') as T.
      destruct Hca as [H|[E H]]; [exact (lex3_lt_irrefl _ (lex3_lt_trans _ _ _ T H))|subst; exact (lex3_lt_irrefl _ T)].
    + subst. destruct Hca as [H|[E H]]; [exact (lex3_lt_irrefl _ (lex3_lt_trans _ _ _ L H))|subst; exact (lex3_lt_irrefl _ L)].
    + apply Hbc. now left.
  - subst kb. destruct (lex3_trichotomy ka kc) as [L'|[E'|L']].
    + destruct Hca as [H|[E H]]; [exact (lex3_lt_irrefl _ (lex3_lt_trans _ _ _ L' H))|subst; exact (lex3_lt_irrefl _ L')].
    + subst kc.
      destruct Hca as [H|[_ H]]; [exact (lex3_lt_irrefl _ H)|].
      assert (~ (rb < ra \/ rb = ra /\ cb < ca))%Z by (intros H'; apply Hab; now right).
      assert (~ (rc < rb \/ rc = rb /\ cc < cb))%Z by (intros H'; apply Hbc; now right).
      lia.
    + apply Hbc. now left.
  - apply Hab. now left.
Qed.

Lemma pair_gt_key a b :
  Py.is_nan (fst a) = false -> Py.is_nan (fst b) = false ->
  (pair_gt a b = true <-> lex5_lt (pair_key b) (pair_key a)).
Proof.
  intros Ha Hb. unfold pair_gt, pair_key, lex5_lt, move_gt, Py.feq, Py.fgt.
  pose proof (feq_key _ _ Ha Hb) as Heq.
  pose proof (flt_key _ _ Hb Ha) as Hlt.
  destruct a as [sa [ra ca]], b as [sb [rb cb]]; cbn [fst snd] in *.
  destruct (PrimFloat.eqb sa sb).
  - assert (E : fkey sa = fkey sb) by now apply Heq. rewrite E.
    pose proof (lex3_lt_irrefl (fkey sb)).
    destruct (Z.eqb_spec ra rb); rewrite Z.gtb_ltb, Z.ltb_lt; intuition lia.
  - assert (E : fkey sa <> fkey sb) by (intros E; apply Heq in E; discriminate).
    rewrite Hlt. intuition congruence.
Qed.

Lemma pair_lt_key a b :
  Py.is_nan (fst a) = false -> Py.is_nan (fst b) = false ->
  (pair_lt a b = true <-> lex5_lt (pair_key a) (pair_key b)).
Proof.
  intros Ha Hb. unfold pair_lt, pair_key, lex5_lt, move_lt, Py.feq, Py.flt.
  pose proof (feq_key _ _ Ha Hb) as Heq.
  pose proof (flt_key _ _ Ha Hb) as Hlt.
  destruct a as [sa [ra ca]], b as [sb [rb cb]]; cbn [fst snd] in *.
  destruct (PrimFloat.eqb sa sb).
  - assert (E : fkey sa = fkey sb) by now apply Heq. rewrite E.
    pose proof (lex3_lt_irrefl (fkey sb)).
    destruct (Z.eqb_spec ra rb); rewrite Z.ltb_lt; intuition lia.
  - assert (E : fkey sa <> fkey sb) by (intros E; apply Heq in E; discriminate).
    rewrite Hlt. intuition congruence.
Qed.

Lemma max_from_In {A} (gt : A -> A -> bool) rest : forall first,
  In (Py.max_from gt first rest) (first :: rest).
Proof.
  unfold Py.max_from. induction rest as [|i rest IH]; intros first; cbn.
  - now left.
  - destruct (IH (if gt i first then i else first)) as [E|H].
    + rewrite <- E. destruct (gt i first); auto.
    + auto.
Qed.

Lemma max_from_upper rest : forall first,
  real_score first -> Forall real_score rest ->
  lex5_le (pair_key first) (pair_key (Py.max_from pair_gt first rest))
  /\ Forall (fun x => lex5_le (pair_key x) (pair_key (Py.max_from pair_gt first rest))) rest.
Proof.
  unfold Py.max_from. induction rest as [|i rest IH]; intros first Hf Hr; cbn.
  - split; [apply lex5_le_refl | constructor].
  - inversion_clear Hr as [|? ? Hi Hr'].
    pose proof (pair_gt_key i first Hi Hf) as K.
    destruct (pair_gt i first) eqn:G.
    + destruct (IH i Hi Hr') as [L1 L2]. split; [|constructor; assumption].
      apply lex5_le_trans with (pair_key i); [|exact L1].
      apply lex5_lt_le, K; reflexivity.
    + destruct (IH first Hf Hr') as [L1 L2]. split; [exact L1|constructor; [|assumption]].
      apply lex5_le_trans with (pair_key first); [|exact L1].
      intros H. apply K in H. discriminate H.
Qed.

Lemma min_from_lower rest : forall first,
  real_score first -> Forall real_score rest ->
  lex5_le (pair_key (Py.min_from pair_lt first rest)) (pair_key first)
  /\ Forall (fun x => lex5_le (pair_key (Py.min_from pair_lt first rest)) (pair_key x)) rest.
Proof.
  unfold Py.min_from. induction rest as [|i rest IH]; intros first Hf Hr; cbn.
  - split; [apply lex5_le_refl | constructor].
  - inversion_clear Hr as [|? ? Hi Hr'].
    pose proof (pair_lt_key i first Hi Hf) as K.
    destruct (pair_lt i first) eqn:G.
    + destruct (IH i Hi Hr') as [L1 L2]. split; [|constructor; assumption].
      apply lex5_le_trans with (pair_key i); [exact L1|].
      apply lex5_lt_le, K; reflexivity.
    + destruct (IH first Hf Hr') as [L1 L2]. split; [exact L1|constructor; [|assumption]].
      apply lex5_le_trans with (pair_key first); [exact L1|].
      intros H. apply K in H. discriminate H.
Qed.


(** ** Boards *)

Lemma board_induction (P : board -> Prop) :
  (forall pos succ, Forall (fun mc => P (snd mc)) succ -> P (MkBoard pos succ)) ->
  forall b, P b.
Proof.
  intros step. fix IH 1. intros [pos succ]. apply step.
  induction succ as [|[m c] rest IHrest]; constructor.
  - apply IH.
  - exact IHrest.
Qed.

Lemma move_eqb_eq a b : move_eqb a b = true <-> a = b.
Proof.
  destruct a as [ra ca], b as [rb cb]. unfold move_eqb. cbn.
  rewrite andb_true_iff, !Z.eqb_eq. split.
  - intros [-> ->]. reflexivity.
  - intros E. inversion E. auto.
Qed.

Lemma find_move_after (m : move) (c : board) todo : forall done,
  find (fun mc => move_eqb (fst mc) m) done = None ->
  find (fun mc => move_eqb (fst mc) m) (done ++ (m, c) :: todo) = Some (m, c).
Proof.
  induction done as [|d done IH]; cbn; intros H.
  - assert (T : move_eqb m m = true) by now apply move_eqb_eq.
    rewrite T. reflexivity.
  - destruct (move_eqb (fst d) m); [discriminate H | exact (IH H)].
Qed.

(** The loops of the searches go through the successors of a board; this
    is going through its legal moves and forecasting each, as the moves of
    a board are distinct. *)
Lemma forecast_successors b :
  NoDup (get_legal_moves b) ->
  map (fun m => (m, forecast_move b m)) (get_legal_moves b) = board_successors b.
Proof.
  destruct b as [pos succ]. unfold get_legal_moves, forecast_move.
  cbn [board_successors]. intros Hnd.
  assert (G : forall todo done,
             succ = done ++ todo ->
             map (fun m =>
                    (m, match find (fun mc => move_eqb (fst mc) m) succ with
                        | Some mc => snd mc
                        | None => MkBoard pos succ
                        end))
                 (map fst todo) = todo).
  { induction todo as [|[m c] todo IH]; intros done E; [reflexivity|].
    cbn [map fst]. f_equal.
    - f_equal. rewrite E at 1. rewrite find_move_after; [reflexivity|].
      destruct (find (fun mc => move_eqb (fst mc) m) done) as [[m' c']|] eqn:F;
        [|reflexivity].
      apply find_some in F. destruct F as [Hin Heq]. cbn in Heq.
      apply move_eqb_eq in Heq. subst m'.
      rewrite E, map_app in Hnd. cbn in Hnd.
      apply NoDup_remove_2 in Hnd. exfalso. apply Hnd.
      apply in_or_app. left. apply (in_map fst) in Hin. exact Hin.
    - apply (IH (done ++ [(m, c)])). rewrite <- app_assoc. exact E. }
  exact (G succ [] eq_refl).
Qed.

(** ** The monad *)

Lemma bind_ok {A B} (c : M A) (k : A -> M B) w a w1 :
  c w = (Ok a, w1) -> bind c k w = k a w1.
Proof. unfold bind. intros ->. reflexivity. Qed.

Lemma bind_raise {A B} (c : M A) (k : A -> M B) w e w1 :
  c w = (Raise e, w1) -> bind c k w = (Raise e, w1).
Proof. unfold bind. intros ->. reflexivity. Qed.

Lemma bind_inv_ok {A B} (c : M A) (k : A -> M B) w b w' :
  bind c k w = (Ok b, w') ->
  exists a w1, c w = (Ok a, w1) /\ k a w1 = (Ok b, w').
Proof.
  unfold bind. destruct (c w) as [[a|e] w1]; intros H.
  - exists a, w1. split; [reflexivity | exact H].
  - discriminate H.
Qed.

(** ** Clock discipline *)

Lemma only_self_refl self w : only_self self w w.
Proof. exists []. split; [reflexivity | constructor]. Qed.

Lemma only_self_trans self w1 w2 w3 :
  only_self self w1 w2 -> only_self self w2 w3 -> only_self self w1 w3.
Proof.
  intros [n1 [E1 F1]] [n2 [E2 F2]]. exists (n2 ++ n1). split.
  - rewrite E2, E1. apply app_assoc.
  - apply Forall_app. split; assumption.
Qed.

Lemma only_self_tick self w : only_self self w (tick w).
Proof. exists []. split; [reflexivity | constructor]. Qed.

Lemma reads_pass_split self a b c :
  a <= b -> reads_pass self a b -> reads_pass self b c -> reads_pass self a c.
Proof.
  intros Hab H1 H2 n Hn. destruct (Nat.lt_ge_cases n b).
  - apply H1. lia.
  - apply H2. lia.
Qed.

Lemma disciplined_ret {A} self (a : A) : disciplined self (ret a).
Proof.
  intros w. cbn. split; [lia|]. split; [|apply only_self_refl].
  intros n Hn. lia.
Qed.

Lemma disciplined_bind {A B} self (c : M A) (k : A -> M B) :
  disciplined self c ->
  (forall w a w1, c w = (Ok a, w1) -> disciplined self (k a)) ->
  disciplined self (bind c k).
Proof.
  intros Hc Hk w. unfold bind. specialize (Hc w).
  destruct (c w) as [[a|e] w1] eqn:Ec.
  - destruct Hc as (T1 & R1 & S1).
    specialize (Hk w a w1 Ec w1).
    destruct (k a w1) as [[b|e] w2].
    + destruct Hk as (T2 & R2 & S2). split; [lia|]. split.
      * apply reads_pass_split with (ticks w1); assumption.
      * apply only_self_trans with w1; assumption.
    + destruct Hk as (E & T2 & R2 & B2 & S2). split; [exact E|].
      split; [lia|]. split; [|split; [exact B2|]].
      * apply reads_pass_split with (ticks w1); [assumption..].
      * apply only_self_trans with w1; assumption.
  - exact Hc.
Qed.

Lemma disciplined_check_time self : disciplined self (check_time self).
Proof.
  intros w. unfold check_time.
  destruct (Py.flt (time_left self (ticks w)) (TIMER_THRESHOLD self)) eqn:E; cbn.
  - split; [reflexivity|]. split; [lia|]. split; [|split; [exact E|apply only_self_tick]].
    intros n Hn. lia.
  - split; [lia|]. split; [|apply only_self_tick].
    intros n Hn. assert (n = ticks w) as -> by lia. exact E.
Qed.

Lemma disciplined_call_score self b : disciplined self (call_score self b).
Proof.
  intros w. cbn. split; [lia|]. split.
  - intros n Hn. lia.
  - exists [(b, self_handle self)]. split; [reflexivity|].
    constructor; [reflexivity | constructor].
Qed.

Lemma disciplined_select self mp c cs : disciplined self (select mp (c :: cs)).
Proof. apply disciplined_ret. Qed.

Lemma comprehension_moves (f : board -> M float) succ : forall w children w',
  comprehension f succ w = (Ok children, w') -> map snd children = map fst succ.
Proof.
  induction succ as [|[m c] rest IH]; intros w children w' H; cbn in H.
  - inversion H. reflexivity.
  - apply bind_inv_ok in H. destruct H as (s & w1 & _ & H).
    apply bind_inv_ok in H. destruct H as (tl & w2 & Hrest & H).
    inversion H; subst. cbn. f_equal. exact (IH _ _ _ Hrest).
Qed.

Lemma disciplined_comprehension self (f : board -> M float) succ :
  Forall (fun mc => disciplined self (f (snd mc))) succ ->
  disciplined self (comprehension f succ).
Proof.
  induction 1 as [|[m c] rest Hc Hrest IH]; cbn.
  - apply disciplined_ret.
  - apply disciplined_bind; [exact Hc|]. intros _ s _ _.
    apply disciplined_bind; [exact IH|]. intros _ tl _ _.
    apply disciplined_ret.
Qed.

(** ** The two searches, unfolded once *)

Lemma minimax_unfold self game depth mp :
  minimax self game depth mp =
  (_ <- check_time self ;; minimax_body self game depth mp).
Proof.
  destruct game as [pos succ]. cbn.
  unfold minimax_body, child_value, get_legal_moves. cbn.
  destruct (Z.eqb depth 1); reflexivity.
Qed.

Lemma alphabeta_unfold self game depth alpha beta mp :
  alphabeta self game depth alpha beta mp =
  (_ <- check_time self ;; alphabeta_body self game depth alpha beta mp).
Proof. destruct game as [pos succ]. reflexivity. Qed.

Lemma is_empty_false {A} (l : list A) : is_empty l = false <-> l <> [].
Proof. destruct l; cbn; split; congruence. Qed.

Lemma is_empty_true {A} (l : list A) : is_empty l = true <-> l = [].
Proof. destruct l; cbn; split; congruence. Qed.

Lemma disciplined_minimax_body self : forall game depth mp,
  disciplined self (minimax_body self game depth mp).
Proof.
  induction game as [pos succ IH] using board_induction; intros depth mp.
  unfold minimax_body, get_legal_moves. cbn [board_successors].
  destruct (is_empty (map fst succ)) eqn:E.
  - apply disciplined_bind; [apply disciplined_call_score|]. intros _ s _ _.
    apply disciplined_ret.
  - apply disciplined_bind.
    + apply disciplined_comprehension. unfold child_value.
      destruct (Z.eqb depth 1).
      * apply Forall_forall. intros mc _. apply disciplined_call_score.
      * eapply Forall_impl; [|exact IH]. intros mc Hmc. cbn beta.
        apply disciplined_bind; [|intros _ r _ _; apply disciplined_ret].
        rewrite minimax_unfold.
        apply disciplined_bind; [apply disciplined_check_time|].
        intros _ _ _ _. apply Hmc.
    + intros w children w1 Hc. apply comprehension_moves in Hc.
      destruct children as [|c cs].
      * apply is_empty_false in E. cbn in Hc. symmetry in Hc. contradiction.
      * apply disciplined_select.
Qed.

Lemma disciplined_minimax self game depth mp :
  disciplined self (minimax self game depth mp).
Proof.
  rewrite minimax_unfold.
  apply disciplined_bind; [apply disciplined_check_time|].
  intros _ _ _ _. apply disciplined_minimax_body.
Qed.

Lemma disciplined_alphabeta_loop self recurse mp todo :
  Forall (fun mc => forall a b, disciplined self (recurse (snd mc) a b)) todo ->
  forall alpha beta best_score best_move,
    disciplined self (alphabeta_loop recurse mp todo alpha beta best_score best_move).
Proof.
  induction 1 as [|[m c] rest Hc Hrest IH]; intros alpha beta bs bm; cbn.
  - apply disciplined_ret.
  - apply disciplined_bind; [apply Hc|]. intros _ r _ _.
    destruct (improves mp (fst r) bs); [|apply IH].
    destruct (__prune__ alpha beta (fst r) mp); [apply disciplined_ret|].
    destruct (__update_limit__ alpha beta (fst r) mp) as [a' b']. apply IH.
Qed.

Lemma disciplined_alphabeta_body self : forall game depth alpha beta mp,
  disciplined self (alphabeta_body self game depth alpha beta mp).
Proof.
  induction game as [pos succ IH] using board_induction; intros depth alpha beta mp.
  unfold alphabeta_body.
  destruct (Z.eqb depth 0 || is_empty (get_legal_moves (MkBoard pos succ))).
  - apply disciplined_bind; [apply disciplined_call_score|]. intros _ s _ _.
    apply disciplined_ret.
  - apply disciplined_alphabeta_loop. cbn [board_successors].
    eapply Forall_impl; [|exact IH]. intros mc Hmc a b. cbn beta.
    rewrite alphabeta_unfold.
    apply disciplined_bind; [apply disciplined_check_time|].
    intros _ _ _ _. apply Hmc.
Qed.

Lemma disciplined_alphabeta self game depth alpha beta mp :
  disciplined self (alphabeta self game depth alpha beta mp).
Proof.
  rewrite alphabeta_unfold.
  apply disciplined_bind; [apply disciplined_check_time|].
  intros _ _ _ _. apply disciplined_alphabeta_body.
Qed.

Lemma disciplined_run_search self sm game depth :
  disciplined self (run_search self sm game depth).
Proof.
  destruct sm; [apply disciplined_minimax | apply disciplined_alphabeta].
Qed.

(** ** Which move comes back *)

Lemma select_In mp children w r w' :
  select mp children w = (Ok r, w') -> In r children /\ w' = w.
Proof.
  destruct children as [|c cs]; cbn; intros H; inversion H; subst.
  split; [|reflexivity].
  destruct mp; [apply max_from_In | apply (max_from_In pair_lt)].
Qed.

Lemma alphabeta_loop_move recurse mp todo : forall alpha beta bs bm w r w',
  alphabeta_loop recurse mp todo alpha beta bs bm w = (Ok r, w') ->
  snd r = bm \/ In (snd r) (map fst todo).
Proof.
  induction todo as [|[m c] rest IH]; intros alpha beta bs bm w r w' H; cbn in H.
  - inversion H. now left.
  - apply bind_inv_ok in H. destruct H as (rc & w1 & _ & H).
    destruct (improves mp (fst rc) bs).
    + destruct (__prune__ alpha beta (fst rc) mp).
      * inversion H. right; left; reflexivity.
      * destruct (__update_limit__ alpha beta (fst rc) mp) as [a' b'].
        apply IH in H. cbn. destruct H as [<-|H]; auto.
    + apply IH in H. cbn. destruct H as [H|H]; auto.
Qed.

(** * The claims *)

(** C1.  In [alphabeta], after a child's score strictly improves
    [best_score] and the prune test fails, the loop goes on with exactly one
    bound overwritten by the new best score: [alpha] on a maximizing layer,
    [beta] on a minimizing layer, the other bound unchanged.  The assignment
    is unconditional and no maximum or minimum with the previous bound is
    taken: there are such updates that lower [alpha], and such updates that
    raise [beta]. *)
Theorem alphabeta_overwrites_one_bound :
  forall self depth mp m child rest alpha beta best_score best_move w r w1,
    alphabeta self child (depth - 1) alpha beta (negb mp) w = (Ok r, w1) ->
    improves mp (fst r) best_score = true ->
    __prune__ alpha beta (fst r) mp = false ->
    __update_limit__ alpha beta (fst r) mp
    = (if mp then fst r else alpha, if mp then beta else fst r)
    /\ alphabeta_loop
         (fun c a b => alphabeta self c (depth - 1) a b (negb mp))
         mp ((m, child) :: rest) alpha beta best_score best_move w
       = alphabeta_loop
           (fun c a b => alphabeta self c (depth - 1) a b (negb mp))
           mp rest (if mp then fst r else alpha) (if mp then beta else fst r)
           (fst r) m w1
    /\ (exists a b s,
           improves true s Py.neg_inf = true
           /\ __prune__ a b s true = false
           /\ Py.flt (fst (__update_limit__ a b s true)) a = true)
    /\ (exists a b s,
           improves false s Py.inf = true
           /\ __prune__ a b s false = false
           /\ Py.fgt (snd (__update_limit__ a b s false)) b = true).
Proof.
  intros self depth mp m child rest alpha beta bs bm w r w1 Hrec Himp Hprune.
  split; [destruct mp; reflexivity|]. split.
  - cbn. unfold bind at 1. rewrite Hrec, Himp, Hprune.
    destruct mp; reflexivity.
  - split.
    + exists 5%float, 10%float, 3%float. repeat split; vm_compute; reflexivity.
    + exists 0%float, 1%float, 4%float. repeat split; vm_compute; reflexivity.
Qed.

Lemma alphabeta_overwrites_one_bound_witness :
  alphabeta alphabeta_agent (reply 2) (1 - 1) 5 10 (negb true) fresh
  = (Ok (1.77%float, no_move), record_eval (reply 2) Player1 (tick fresh))
  /\ improves true 1.77 Py.neg_inf = true
  /\ __prune__ 5 10 1.77 true = false
  /\ alphabeta_loop
       (fun c a b => alphabeta alphabeta_agent c (1 - 1) a b (negb true))
       true [((0, 1)%Z, reply 2); ((1, 0)%Z, reply 3)]
       5 10 Py.neg_inf (0, 1)%Z fresh
     = alphabeta_loop
         (fun c a b => alphabeta alphabeta_agent c (1 - 1) a b (negb true))
         true [((1, 0)%Z, reply 3)]
         1.77 10 1.77 (0, 1)%Z (record_eval (reply 2) Player1 (tick fresh)).
Proof.
  split; [vm_compute; reflexivity|].
  split; [vm_compute; reflexivity|].
  split; [vm_compute; reflexivity|].
  refine (proj1 (proj2 (alphabeta_overwrites_one_bound
           alphabeta_agent 1 true (0, 1)%Z (reply 2)
           [((1, 0)%Z, reply 3)] 5 10 Py.neg_inf (0, 1)%Z fresh
           (1.77%float, no_move) (record_eval (reply 2) Player1 (tick fresh))
           _ _ _)));
    vm_compute; reflexivity.
Defined.

(** ** The leaf shortcut *)

Lemma comprehension_call_score self succ : forall w,
  comprehension (call_score self) succ w
  = (Ok (leaf_children self succ), after_leaf_evals self succ w).
Proof.
  induction succ as [|[m c] rest IH]; intros w.
  - destruct w; reflexivity.
  - cbn. unfold bind at 1. rewrite IH. cbn.
    unfold after_leaf_evals. cbn. rewrite <- app_assoc. reflexivity.
Qed.

Lemma check_time_pass self w :
  below self (ticks w) = false -> check_time self w = (Ok tt, tick w).
Proof. unfold below, check_time. intros ->. reflexivity. Qed.

Lemma check_time_low self w :
  below self (ticks w) = true -> check_time self w = (Raise Timeout, tick w).
Proof. unfold below, check_time. intros ->. reflexivity. Qed.

(** C2.  When the clock lets the call in: [alphabeta] returns
    [(score(board, self), (-1, -1))], after one heuristic call on the board
    itself, when [depth == 0] or the side to move has no legal move, and in
    every other case returns a legal move (hence not the sentinel, unless
    the board lists the sentinel as legal); [minimax] at [depth == 1] on a
    board with legal moves calls the heuristic on every forecast board, in
    order and on nothing else, and returns one of those [(score, move)]
    pairs: when no score is NaN, their maximum or minimum. *)
Theorem base_cases_differ :
  forall self game depth alpha beta mp w,
    below self (ticks w) = false ->
    (depth = 0%Z \/ get_legal_moves game = [] ->
     alphabeta self game depth alpha beta mp w
     = (Ok (score self game (self_handle self), no_move),
        record_eval game (self_handle self) (tick w)))
    /\ (depth <> 0%Z -> get_legal_moves game <> [] ->
        forall r w', alphabeta self game depth alpha beta mp w = (Ok r, w') ->
                     In (snd r) (get_legal_moves game)
                     /\ (~ In no_move (get_legal_moves game) -> snd r <> no_move))
    /\ (get_legal_moves game <> [] ->
        exists r,
          minimax self game 1 mp w
          = (Ok r, after_leaf_evals self (board_successors game) (tick w))
          /\ In r (leaf_children self (board_successors game))
          /\ (Forall real_score (leaf_children self (board_successors game)) ->
              exists c cs,
                leaf_children self (board_successors game) = c :: cs
                /\ r = (if mp then Py.max_from pair_gt c cs
                        else Py.min_from pair_lt c cs))).
Proof.
  intros self game depth alpha beta mp w Hclock. split; [|split].
  - intros Hbase. rewrite alphabeta_unfold. unfold bind at 1.
    rewrite (check_time_pass _ _ Hclock). unfold alphabeta_body.
    assert (E : Z.eqb depth 0 || is_empty (get_legal_moves game) = true).
    { destruct Hbase as [-> | ->]; [reflexivity | apply orb_true_r]. }
    rewrite E. reflexivity.
  - intros Hd Hl r w' H. rewrite alphabeta_unfold in H. unfold bind at 1 in H.
    rewrite (check_time_pass _ _ Hclock) in H. unfold alphabeta_body in H.
    assert (E : Z.eqb depth 0 || is_empty (get_legal_moves game) = false).
    { apply orb_false_iff. split; [now apply Z.eqb_neq | now apply is_empty_false]. }
    rewrite E in H. apply alphabeta_loop_move in H.
    assert (Hin : In (snd r) (get_legal_moves game)).
    { destruct H as [-> | H]; [|exact H].
      destruct (get_legal_moves game); [contradiction | now left]. }
    split; [exact Hin|]. intros Hno E'. rewrite E' in Hin. contradiction.
  - intros Hl. destruct game as [pos succ]. cbn [board_successors].
    destruct succ as [|[m c] rest]; [contradiction Hl; reflexivity|].
    set (succ := (m, c) :: rest).
    assert (E : exists k ks, leaf_children self succ = k :: ks)
      by (eexists _, _; reflexivity).
    destruct E as (k & ks & E).
    exists (if mp then Py.max_from pair_gt k ks else Py.min_from pair_lt k ks).
    split; [|split].
    + rewrite minimax_unfold. unfold bind at 1.
      rewrite (check_time_pass _ _ Hclock). unfold minimax_body.
      cbn [get_legal_moves board_successors map is_empty succ].
      unfold child_value. cbn [Z.eqb Pos.eqb]. unfold bind at 1.
      fold succ. rewrite comprehension_call_score, E. reflexivity.
    + rewrite E. destruct mp; [apply max_from_In | apply (max_from_In pair_lt)].
    + intros _. exists k, ks. split; [exact E | reflexivity].
Qed.

Lemma base_cases_differ_witness :
  below alphabeta_agent (ticks fresh) = false
  /\ alphabeta alphabeta_agent tie_board 0 Py.neg_inf Py.inf true fresh
     = (Ok (score alphabeta_agent tie_board Player1, no_move),
        record_eval tie_board Player1 (tick fresh))
  /\ leaf_children alphabeta_agent (board_successors tie_board)
     = [(1.77%float, (0, 1)%Z); (1.77%float, (1, 0)%Z)]
  /\ minimax alphabeta_agent tie_board 1 true fresh
     = (Ok (1.77%float, (1, 0)%Z),
        after_leaf_evals alphabeta_agent (board_successors tie_board) (tick fresh)).
Proof.
  pose proof (base_cases_differ alphabeta_agent
                tie_board 0 Py.neg_inf Py.inf true fresh eq_refl) as [H1 [_ H3]].
  split; [reflexivity|]. split; [|split].
  - apply H1. left. reflexivity.
  - vm_compute. reflexivity.
  - destruct H3 as (r & H & _ & Hsel); [discriminate|].
    destruct Hsel as (c & cs & E & ->).
    + vm_compute. repeat constructor.
    + rewrite H. inversion E; subst. vm_compute. reflexivity.
Defined.

Lemma minimax_move self game depth mp w r w' :
  minimax self game depth mp w = (Ok r, w') -> legal_or_sentinel game (snd r).
Proof.
  rewrite minimax_unfold. intros H.
  apply bind_inv_ok in H. destruct H as ([] & w1 & _ & H).
  unfold minimax_body in H.
  destruct (is_empty (get_legal_moves game)) eqn:E.
  - apply bind_inv_ok in H. destruct H as (s & w2 & _ & H). inversion H; subst.
    left. split; [now apply is_empty_true | reflexivity].
  - apply bind_inv_ok in H. destruct H as (children & w2 & Hc & H).
    apply comprehension_moves in Hc. apply select_In in H. destruct H as [Hin _].
    right. split; [now apply is_empty_false|].
    unfold get_legal_moves. rewrite <- Hc. apply in_map. exact Hin.
Qed.

Lemma alphabeta_move self game depth alpha beta mp w r w' :
  depth <> 0%Z ->
  alphabeta self game depth alpha beta mp w = (Ok r, w') ->
  legal_or_sentinel game (snd r).
Proof.
  intros Hd. rewrite alphabeta_unfold. intros H.
  apply bind_inv_ok in H. destruct H as ([] & w1 & _ & H).
  unfold alphabeta_body in H.
  apply Z.eqb_neq in Hd. rewrite Hd in H. cbn [orb] in H.
  destruct (is_empty (get_legal_moves game)) eqn:E.
  - apply bind_inv_ok in H. destruct H as (s & w2 & _ & H). inversion H; subst.
    left. split; [now apply is_empty_true | reflexivity].
  - apply alphabeta_loop_move in H. right.
    apply is_empty_false in E. split; [exact E|].
    destruct H as [-> | H]; [|exact H].
    destruct (get_legal_moves game); [contradiction | now left].
Qed.

Lemma disciplined_returns {A} self (c : M A) w :
  disciplined self c -> (forall n, below self n = false) ->
  exists a w', c w = (Ok a, w').
Proof.
  intros D Hclock. specialize (D w). destruct (c w) as [[a|e] w'].
  - eauto.
  - destruct D as (_ & _ & _ & B & _). rewrite Hclock in B. discriminate B.
Qed.

(** C3.  At every depth the driver passes (1, 2, 3, ...) and for both values
    of the maximizing flag, the move that [minimax] returns and the move that
    [alphabeta] returns is one of the legal moves of the side to move on that
    board, or the sentinel [(-1, -1)] when that side has no legal move; and
    both searches do return when the clock never runs low. *)
Theorem returned_move_is_legal :
  forall self game depth alpha beta mp w,
    (1 <= depth)%Z ->
    (forall r w', minimax self game depth mp w = (Ok r, w') ->
                  legal_or_sentinel game (snd r))
    /\ (forall r w', alphabeta self game depth alpha beta mp w = (Ok r, w') ->
                     legal_or_sentinel game (snd r))
    /\ ((forall n, below self n = false) ->
        (exists r w', minimax self game depth mp w = (Ok r, w'))
        /\ (exists r w', alphabeta self game depth alpha beta mp w = (Ok r, w'))).
Proof.
  intros self game depth alpha beta mp w Hd. split; [|split].
  - intros r w'. apply minimax_move.
  - intros r w'. apply alphabeta_move. lia.
  - intros Hclock. split.
    + apply disciplined_returns with self; [apply disciplined_minimax | exact Hclock].
    + apply disciplined_returns with self; [apply disciplined_alphabeta | exact Hclock].
Qed.

Lemma returned_move_is_legal_witness :
  (1 <= 3)%Z
  /\ fst (alphabeta alphabeta_agent deep_board 3 Py.neg_inf Py.inf true fresh)
     = Ok (3.31%float, (3, 2)%Z)
  /\ legal_or_sentinel deep_board (3, 2)%Z
  /\ fst (minimax alphabeta_agent (stuck Player1 2) 3 true fresh)
     = Ok (Py.neg_inf, no_move)
  /\ legal_or_sentinel (stuck Player1 2) no_move.
Proof.
  split; [lia|]. split; [vm_compute; reflexivity|]. split; [|split].
  - refine (proj1 (proj2 (returned_move_is_legal
             alphabeta_agent deep_board 3
             Py.neg_inf Py.inf true fresh _)) (3.31%float, (3, 2)%Z) _ _); [lia|].
    vm_compute. reflexivity.
  - vm_compute. reflexivity.
  - refine (proj1 (returned_move_is_legal
             alphabeta_agent (stuck Player1 2) 3
             Py.neg_inf Py.inf true fresh _) (Py.neg_inf, no_move) _ _); [lia|].
    vm_compute. reflexivity.
Defined.

(** ** The driver *)

Lemma deepen_completed search : forall k d best w mk wk w' fuel,
  completed_rounds search k d best w = Some (mk, wk) ->
  search (d + Z.of_nat k)%Z wk = (Raise Timeout, w') ->
  k < fuel ->
  deepen fuel search d best w = Some (Ok mk, w').
Proof.
  induction k as [|k IH]; intros d best w mk wk w' fuel Hc Hr Hf;
    destruct fuel as [|fuel]; try lia; cbn in Hc |- *.
  - inversion Hc; subst. rewrite Z.add_0_r in Hr. rewrite Hr. reflexivity.
  - destruct (search d w) as [[r|e] w1]; [|discriminate Hc].
    apply IH with wk; [exact Hc | | lia].
    rewrite <- Hr. f_equal. lia.
Qed.

Lemma completed_rounds_last search : forall j d best w m' w',
  completed_rounds search (S j) d best w = Some (m', w') ->
  exists mj wj r,
    completed_rounds search j d best w = Some (mj, wj)
    /\ search (d + Z.of_nat j)%Z wj = (Ok r, w')
    /\ m' = snd r.
Proof.
  induction j as [|j IH]; intros d best w m' w' H.
  - cbn in H. destruct (search d w) as [[r|e] w1] eqn:E; [|discriminate H].
    inversion H; subst. exists best, w, r. rewrite Z.add_0_r. auto.
  - change (completed_rounds search (S (S j)) d best w)
      with (match search d w with
            | (Ok r, w1) => completed_rounds search (S j) (d + 1) (snd r) w1
            | (Raise _, _) => None
            end) in H.
    destruct (search d w) as [[r|e] w1] eqn:E; [|discriminate H].
    destruct (IH _ _ _ _ _ H) as (mj & wj & r' & Hc & Hs & Hm).
    exists mj, wj, r'. cbn. rewrite E. split; [exact Hc|]. split; [|exact Hm].
    rewrite <- Hs. f_equal. lia.
Qed.

Lemma completed_rounds_prefix search : forall k j d best w mk wk,
  completed_rounds search k d best w = Some (mk, wk) ->
  j <= k ->
  exists mj wj, completed_rounds search j d best w = Some (mj, wj).
Proof.
  induction k as [|k IH]; intros j d best w mk wk H Hj.
  - assert (j = 0) as -> by lia. eauto.
  - destruct (Nat.eq_dec j (S k)) as [-> | Hne]; [eauto|].
    destruct (completed_rounds_last _ _ _ _ _ _ _ H) as (m' & w' & r & Hc & _).
    apply (IH j d best w m' w' Hc). lia.
Qed.

Lemma deepen_never_timeout search : forall fuel d best w out,
  deepen fuel search d best w = Some out -> fst out <> Raise Timeout.
Proof.
  induction fuel as [|fuel IH]; intros d best w out H; cbn in H; [discriminate H|].
  destruct (search d w) as [[r|[|msg]] w1].
  - exact (IH _ _ _ _ H).
  - inversion H. discriminate.
  - inversion H. discriminate.
Qed.

Lemma run_search_unfold self sm game depth :
  exists body, disciplined self body
               /\ run_search self sm game depth = (_ <- check_time self ;; body).
Proof.
  destruct sm; cbn.
  - exists (minimax_body self game depth true).
    split; [apply disciplined_minimax_body | apply minimax_unfold].
  - exists (alphabeta_body self game depth Py.neg_inf Py.inf true).
    split; [apply disciplined_alphabeta_body | apply alphabeta_unfold].
Qed.

Lemma entered_or_raised self (body : M (float * move)) w :
  disciplined self body ->
  ((_ <- check_time self ;; body) w = (Raise Timeout, tick w)
   <-> below self (ticks w) = true).
Proof.
  intros D. unfold bind. split.
  - intros H. destruct (below self (ticks w)) eqn:B; [reflexivity|].
    rewrite (check_time_pass _ _ B) in H.
    specialize (D (tick w)). destruct (body (tick w)) as [[r|e] w1].
    + discriminate H.
    + destruct D as (_ & T & _). inversion H; subst. cbn in T. lia.
  - intros B. rewrite (check_time_low _ _ B). reflexivity.
Qed.

Lemma entered_progress self (body : M (float * move)) w r w' :
  disciplined self body ->
  (_ <- check_time self ;; body) w = (Ok r, w') -> ticks w < ticks w'.
Proof.
  intros D H. apply bind_inv_ok in H. destruct H as ([] & w1 & Hc & H).
  unfold check_time in Hc.
  destruct (Py.flt (time_left self (ticks w)) (TIMER_THRESHOLD self));
    inversion Hc; subst.
  specialize (D (tick w)). rewrite H in D. destruct D as (T & _). cbn in T. lia.
Qed.

Lemma deepen_running search : forall k d best w mk wk,
  completed_rounds search k d best w = Some (mk, wk) ->
  deepen k search d best w = None.
Proof.
  induction k as [|k IH]; intros d best w mk wk H; cbn in H |- *; [reflexivity|].
  destruct (search d w) as [[r|e] w1]; [|discriminate H].
  exact (IH _ _ _ _ _ H).
Qed.

Lemma disciplined_search_progress self sm game depth w r w' :
  run_search self sm game depth w = (Ok r, w') -> ticks w < ticks w'.
Proof.
  destruct (run_search_unfold self sm game depth) as (body & D & ->).
  apply entered_progress. exact D.
Qed.

Lemma eventually_aborts self sm game n :
  below self n = true ->
  forall m d best w,
    ticks w <= n -> n - ticks w <= m ->
    exists k mk wk w',
      completed_rounds (run_search self sm game) k d best w = Some (mk, wk)
      /\ run_search self sm game (d + Z.of_nat k)%Z wk = (Raise Timeout, w').
Proof.
  intros Hn. induction m as [|m IH]; intros d best w Hle Hm.
  - pose proof (disciplined_run_search self sm game d w) as D.
    destruct (run_search self sm game d w) as [[r|e] w1] eqn:E.
    + apply disciplined_search_progress in E. destruct D as (_ & R & _).
      rewrite (R n) in Hn; [discriminate Hn | lia].
    + destruct D as (-> & _). exists 0, best, w, w1.
      rewrite Z.add_0_r. split; [reflexivity | exact E].
  - pose proof (disciplined_run_search self sm game d w) as D.
    destruct (run_search self sm game d w) as [[r|e] w1] eqn:E.
    + pose proof (disciplined_search_progress _ _ _ _ _ _ _ E) as P.
      destruct D as (_ & R & _).
      assert (Hw1 : ticks w1 <= n).
      { destruct (Nat.lt_ge_cases n (ticks w1)) as [L|L]; [|exact L].
        rewrite (R n) in Hn; [discriminate Hn | lia]. }
      destruct (IH (d + 1)%Z (snd r) w1 Hw1) as (k & mk & wk & w' & Hc & Hr); [lia|].
      exists (S k), mk, wk, w'. cbn. rewrite E. split; [exact Hc|].
      rewrite <- Hr. f_equal. lia.
    + destruct D as (-> & _). exists 0, best, w, w1.
      rewrite Z.add_0_r. split; [reflexivity | exact E].
Qed.

Lemma get_move_iterative fuel self game first rest tl sm w :
  iterative self = true ->
  choose_method (method self) = Some sm ->
  get_move fuel self game (first :: rest) tl w
  = deepen fuel (run_search (set_time_left self tl) sm game) 1 first w.
Proof.
  intros Hi Hm. unfold get_move. cbn [method iterative set_time_left].
  rewrite Hm, Hi. reflexivity.
Qed.

Lemma get_move_fixed fuel self game first rest tl sm w :
  iterative self = false ->
  choose_method (method self) = Some sm ->
  get_move fuel self game (first :: rest) tl w
  = match run_search (set_time_left self tl) sm game (search_depth self) w with
    | (Ok r, w') => Some (Ok (snd r), w')
    | (Raise Timeout, w') => Some (Ok first, w')
    | (Raise e, w') => Some (Raise e, w')
    end.
Proof.
  intros Hi Hm. unfold get_move. cbn [method iterative set_time_left search_depth].
  rewrite Hm, Hi. reflexivity.
Qed.

Lemma get_move_never_timeout fuel self game legal tl w out :
  get_move fuel self game legal tl w = Some out -> fst out <> Raise Timeout.
Proof.
  unfold get_move. destruct legal as [|first rest].
  - intros H. inversion H. discriminate.
  - destruct (choose_method (method (set_time_left self tl))) as [sm|].
    + destruct (negb (iterative (set_time_left self tl))).
      * destruct (run_search (set_time_left self tl) sm game
                    (search_depth (set_time_left self tl)) w) as [[r|[|msg]] w1];
          intros H; inversion H; discriminate.
      * apply deepen_never_timeout.
    + intros H. inversion H. discriminate.
Qed.

(** C4.  Every call of [minimax] and of [alphabeta], whatever the board,
    the depth and the flag, starts by reading the clock, and raises
    [Timeout] right there if and only if the reading is strictly under the
    threshold.  Neither search catches it: a call returns only when no
    reading made during it was under the threshold, and raises, [Timeout]
    and nothing else, at the first reading under it.  [get_move]
    never passes [Timeout] on: in fixed-depth mode an aborted search gives
    the first legal move; in iterative mode an abort after [k] returned
    depths gives the move on record after them, which is the first legal
    move when [k] is 0. *)
Theorem timeout_raised_at_entry_caught_in_get_move :
  forall self game depth alpha beta mp,
    (forall w, minimax self game depth mp w = (Raise Timeout, tick w)
               <-> below self (ticks w) = true)
    /\ (forall w, alphabeta self game depth alpha beta mp w = (Raise Timeout, tick w)
                  <-> below self (ticks w) = true)
    /\ disciplined self (minimax self game depth mp)
    /\ disciplined self (alphabeta self game depth alpha beta mp)
    /\ (forall fuel legal tl w out,
           get_move fuel self game legal tl w = Some out ->
           fst out <> Raise Timeout)
    /\ (forall fuel first rest tl sm w w',
           iterative self = false ->
           choose_method (method self) = Some sm ->
           run_search (set_time_left self tl) sm game (search_depth self) w
           = (Raise Timeout, w') ->
           get_move fuel self game (first :: rest) tl w = Some (Ok first, w'))
    /\ (forall fuel first rest tl sm w k mk wk w',
           iterative self = true ->
           choose_method (method self) = Some sm ->
           completed_rounds (run_search (set_time_left self tl) sm game)
                            k 1 first w = Some (mk, wk) ->
           run_search (set_time_left self tl) sm game (1 + Z.of_nat k)%Z wk
           = (Raise Timeout, w') ->
           k < fuel ->
           get_move fuel self game (first :: rest) tl w = Some (Ok mk, w')
           /\ (k = 0 -> mk = first)).
Proof.
  intros self game depth alpha beta mp.
  split; [|split; [|split; [|split; [|split; [|split]]]]].
  - intros w. rewrite minimax_unfold.
    apply entered_or_raised, disciplined_minimax_body.
  - intros w. rewrite alphabeta_unfold.
    apply entered_or_raised, disciplined_alphabeta_body.
  - apply disciplined_minimax.
  - apply disciplined_alphabeta.
  - intros fuel legal tl w out. apply get_move_never_timeout.
  - intros fuel first rest tl sm w w' Hi Hm Hr.
    rewrite (get_move_fixed _ _ _ _ _ _ sm _ Hi Hm), Hr. reflexivity.
  - intros fuel first rest tl sm w k mk wk w' Hi Hm Hc Hr Hf. split.
    + rewrite (get_move_iterative _ _ _ _ _ _ sm _ Hi Hm).
      exact (deepen_completed _ _ _ _ _ _ _ _ _ Hc Hr Hf).
    + intros ->. cbn in Hc. inversion Hc. reflexivity.
Qed.

(** With a clock that is low from the start the driver gives the first
    legal move, in either mode and with either search. *)
Example expired_clock_gives_first_move :
  get_move 1 (sample_player "minimax" true 3 plenty) switch_board
           (get_legal_moves switch_board) expired fresh
  = Some (Ok (0, 1)%Z, tick fresh)
  /\ get_move 0 (sample_player "alphabeta" false 3 plenty) switch_board
              (get_legal_moves switch_board) expired fresh
     = Some (Ok (0, 1)%Z, tick fresh)
  /\ get_move 0 (sample_player "negascout" false 3 plenty) switch_board
              (get_legal_moves switch_board) expired fresh
     = Some (Raise (ValueError "Method negascout not supported."), fresh).
Proof. repeat split; vm_compute; reflexivity. Qed.

(** C5.  In iterative mode, on a non-empty list of legal moves, the driver
    calls the chosen search at depth 1, then 2, then 3, ..., each from the
    world the previous one left; the move on record is the first legal move
    until a depth has returned, and then the move the last returned depth
    gave.  Nothing but the abort ends the loop: after [k] depths that all
    returned it is still running.  When the search at depth [k+1] is
    aborted, the driver returns the move on record after depth [k].  The
    abort does come when some later clock reading is under the threshold. *)
Theorem iterative_deepening_keeps_last_completed :
  forall self game first rest tl sm w,
    iterative self = true ->
    choose_method (method self) = Some sm ->
    let search := run_search (set_time_left self tl) sm game in
    (forall k mk wk w' fuel,
        completed_rounds search k 1 first w = Some (mk, wk) ->
        search (1 + Z.of_nat k)%Z wk = (Raise Timeout, w') ->
        k < fuel ->
        get_move fuel self game (first :: rest) tl w = Some (Ok mk, w'))
    /\ completed_rounds search 0 1 first w = Some (first, w)
    /\ (forall k mk wk,
           completed_rounds search (S k) 1 first w = Some (mk, wk) ->
           exists mprev wprev r,
             completed_rounds search k 1 first w = Some (mprev, wprev)
             /\ search (1 + Z.of_nat k)%Z wprev = (Ok r, wk)
             /\ mk = snd r)
    /\ (forall k mk wk,
           completed_rounds search k 1 first w = Some (mk, wk) ->
           get_move k self game (first :: rest) tl w = None)
    /\ ((exists n, ticks w <= n /\ below (set_time_left self tl) n = true) ->
        exists k mk wk w',
          completed_rounds search k 1 first w = Some (mk, wk)
          /\ search (1 + Z.of_nat k)%Z wk = (Raise Timeout, w')).
Proof.
  intros self game first rest tl sm w Hi Hm search.
  split; [|split; [|split; [|split]]].
  - intros k mk wk w' fuel Hc Hr Hf.
    rewrite (get_move_iterative _ _ _ _ _ _ sm _ Hi Hm).
    exact (deepen_completed _ _ _ _ _ _ _ _ _ Hc Hr Hf).
  - reflexivity.
  - intros k mk wk H. exact (completed_rounds_last _ _ _ _ _ _ _ H).
  - intros k mk wk H. rewrite (get_move_iterative _ _ _ _ _ _ sm _ Hi Hm).
    exact (deepen_running _ _ _ _ _ _ _ H).
  - intros (n & Hle & Hn).
    exact (eventually_aborts _ sm game n Hn (n - ticks w) 1%Z first w Hle (le_n _)).
Qed.

Lemma iterative_deepening_keeps_last_completed_witness :
  iterative deepening_agent = true
  /\ choose_method (method deepening_agent) = Some UseMinimax
  /\ option_map fst
       (completed_rounds
          (run_search (set_time_left deepening_agent (low_from 5))
                      UseMinimax switch_board)
          1 1 (0, 1)%Z fresh)
     = Some (0, 1)%Z
  /\ option_map fst
       (completed_rounds
          (run_search (set_time_left deepening_agent (low_from 5))
                      UseMinimax switch_board)
          2 1 (0, 1)%Z fresh)
     = Some (1, 0)%Z
  /\ option_map fst
       (get_move 3 deepening_agent switch_board [(0, 1); (1, 0)]%Z
                 (low_from 5) fresh)
     = Some (Ok (1, 0)%Z).
Proof.
  split; [reflexivity|]. split; [reflexivity|].
  split; [vm_compute; reflexivity|]. split; [vm_compute; reflexivity|].
  pose proof (iterative_deepening_keeps_last_completed
                deepening_agent switch_board
                (0, 1)%Z [(1, 0)%Z] (low_from 5) UseMinimax fresh
                eq_refl eq_refl) as [H _].
  destruct (completed_rounds
              (run_search (set_time_left deepening_agent (low_from 5))
                          UseMinimax switch_board)
              2 1 (0, 1)%Z fresh) as [[mk wk]|] eqn:E;
    [|vm_compute in E; discriminate E].
  assert (Em : mk = (1, 0)%Z).
  { vm_compute in E. inversion E. reflexivity. }
  subst mk.
  refine (f_equal (option_map fst)
            (H 2 (1, 0)%Z wk
               (snd (run_search (set_time_left deepening_agent (low_from 5))
                                UseMinimax switch_board (1 + 2) wk))
               3 E _ _)).
  - vm_compute in E. inversion E. vm_compute. reflexivity.
  - lia.
Defined.

(** ** The sweep's report *)





Lemma alphas_values : alphas = [0; 0.2; 0.4; 0.6; 0.8; 1]%float.
Proof. vm_compute. reflexivity. Qed.




(** ** Selection among the children *)

Lemma not_true_false (b : bool) : b <> true -> b = false.
Proof. destruct b; congruence. Qed.

Lemma pair_gt_false_parts c r :
  real_score c -> real_score r -> pair_gt c r = false ->
  Py.fgt (fst c) (fst r) = false
  /\ (Py.feq (fst c) (fst r) = true -> move_gt (snd c) (snd r) = false).
Proof.
  unfold real_score, pair_gt. intros Hc Hr H.
  destruct (Py.feq (fst c) (fst r)) eqn:E.
  - split; [|intros _; exact H].
    apply not_true_false. unfold Py.fgt. rewrite (flt_key _ _ Hr Hc).
    apply (feq_key _ _ Hc Hr) in E. rewrite E. apply lex3_lt_irrefl.
  - split; [exact H | discriminate].
Qed.

Lemma pair_lt_false_parts c r :
  real_score c -> real_score r -> pair_lt c r = false ->
  Py.flt (fst c) (fst r) = false
  /\ (Py.feq (fst c) (fst r) = true -> move_lt (snd c) (snd r) = false).
Proof.
  unfold real_score, pair_lt. intros Hc Hr H.
  destruct (Py.feq (fst c) (fst r)) eqn:E.
  - split; [|intros _; exact H].
    apply not_true_false. unfold Py.flt. rewrite (flt_key _ _ Hc Hr).
    apply (feq_key _ _ Hc Hr) in E. rewrite E. apply lex3_lt_irrefl.
  - split; [exact H | discriminate].
Qed.

Lemma select_extremal mp children w r w' :
  select mp children w = (Ok r, w') ->
  Forall real_score children -> extremal mp children r.
Proof.
  destruct children as [|c cs]; cbn; intros H Hreal; inversion H; subst; clear H.
  assert (Hr : real_score (if mp then Py.max_from pair_gt c cs
                           else Py.min_from pair_lt c cs)).
  { rewrite Forall_forall in Hreal. apply Hreal.
    destruct mp; [apply max_from_In | apply (max_from_In pair_lt)]. }
  inversion Hreal as [|? ? Hc Hcs]; subst.
  unfold extremal. destruct mp.
  - destruct (max_from_upper cs c Hc Hcs) as [U1 U2].
    assert (G : forall x, real_score x ->
                          lex5_le (pair_key x) (pair_key (Py.max_from pair_gt c cs)) ->
                          pair_gt x (Py.max_from pair_gt c cs) = false).
    { intros x Hx L. apply not_true_false. intros T.
      apply (pair_gt_key _ _ Hx Hr) in T. exact (L T). }
    rewrite Forall_forall in *. intros x [<- | Hin].
    + pose proof (G _ Hc U1) as P. split; [exact P|].
      exact (pair_gt_false_parts _ _ Hc Hr P).
    + pose proof (G _ (Hcs _ Hin) (U2 _ Hin)) as P. split; [exact P|].
      exact (pair_gt_false_parts _ _ (Hcs _ Hin) Hr P).
  - destruct (min_from_lower cs c Hc Hcs) as [U1 U2].
    assert (G : forall x, real_score x ->
                          lex5_le (pair_key (Py.min_from pair_lt c cs)) (pair_key x) ->
                          pair_lt x (Py.min_from pair_lt c cs) = false).
    { intros x Hx L. apply not_true_false. intros T.
      apply (pair_lt_key _ _ Hx Hr) in T. exact (L T). }
    rewrite Forall_forall in *. intros x [<- | Hin].
    + pose proof (G _ Hc U1) as P. split; [exact P|].
      exact (pair_lt_false_parts _ _ Hc Hr P).
    + pose proof (G _ (Hcs _ Hin) (U2 _ Hin)) as P. split; [exact P|].
      exact (pair_lt_false_parts _ _ (Hcs _ Hin) Hr P).
Qed.

Lemma check_time_ok_inv self w a w1 :
  check_time self w = (Ok a, w1) -> w1 = tick w /\ below self (ticks w) = false.
Proof.
  unfold check_time, below.
  destruct (Py.flt (time_left self (ticks w)) (TIMER_THRESHOLD self));
    intros H; inversion H; auto.
Qed.

(** C7.  On a board with legal moves, at depth 1 through the leaf shortcut
    and at every other depth through the recursive calls, [minimax] pairs
    each legal move, in order, with its value and returns one of these
    [(score, move)] pairs.  When the scores are numbers it is the greatest
    pair in the order of tuples on a maximizing layer and the least on a
    minimizing layer: no pair has a better score, and among the pairs with
    an equal score the one returned has the greatest (least) move, rows
    compared before columns.  The call does return when the clock never
    runs low. *)
Theorem minimax_selects_by_tuple_order :
  forall self game depth mp w,
    get_legal_moves game <> [] ->
    (forall r w',
        minimax self game depth mp w = (Ok r, w') ->
        exists children,
          comprehension (child_value self depth mp) (board_successors game) (tick w)
          = (Ok children, w')
          /\ map snd children = get_legal_moves game
          /\ In r children
          /\ (Forall real_score children -> extremal mp children r))
    /\ ((forall n, below self n = false) ->
        exists r w', minimax self game depth mp w = (Ok r, w')).
Proof.
  intros self game depth mp w Hl. split.
  - intros r w' H.
    rewrite minimax_unfold in H. apply bind_inv_ok in H.
    destruct H as (u & w1 & Hc & H). apply check_time_ok_inv in Hc.
    destruct Hc as [-> _]. unfold minimax_body in H.
    apply is_empty_false in Hl. rewrite Hl in H.
    apply bind_inv_ok in H. destruct H as (children & w2 & Hch & H).
    destruct (select_In _ _ _ _ _ H) as [Hin ->].
    exists children. split; [exact Hch|]. split; [|split].
    + exact (comprehension_moves _ _ _ _ _ Hch).
    + exact Hin.
    + intros Hreal. exact (select_extremal _ _ _ _ _ H Hreal).
  - intros Hclock.
    apply disciplined_returns with self; [apply disciplined_minimax | exact Hclock].
Qed.

Lemma minimax_selects_by_tuple_order_witness :
  get_legal_moves tie_board <> []
  /\ fst (minimax minimax_agent tie_board 1 true fresh) = Ok (1.77%float, (1, 0)%Z)
  /\ fst (minimax minimax_agent tie_board 1 false fresh) = Ok (1.77%float, (0, 1)%Z)
  /\ extremal true [(1.77%float, (0, 1)%Z); (1.77%float, (1, 0)%Z)]
                   (1.77%float, (1, 0)%Z)
  /\ extremal false [(1.77%float, (0, 1)%Z); (1.77%float, (1, 0)%Z)]
                    (1.77%float, (0, 1)%Z).
Proof.
  split; [discriminate|].
  split; [vm_compute; reflexivity|]. split; [vm_compute; reflexivity|].
  split.
  - destruct (proj1 (minimax_selects_by_tuple_order
                       minimax_agent tie_board 1 true fresh
                       (fun E => nil_cons (eq_sym E)))
                    (1.77%float, (1, 0)%Z)
                    (snd (minimax minimax_agent tie_board 1 true fresh)))
      as (children & Hch & _ & _ & Hext).
    + vm_compute. reflexivity.
    + vm_compute in Hch. inversion Hch; subst. apply Hext.
      repeat constructor.
  - destruct (proj1 (minimax_selects_by_tuple_order
                       minimax_agent tie_board 1 false fresh
                       (fun E => nil_cons (eq_sym E)))
                    (1.77%float, (0, 1)%Z)
                    (snd (minimax minimax_agent tie_board 1 false fresh)))
      as (children & Hch & _ & _ & Hext).
    + vm_compute. reflexivity.
    + vm_compute in Hch. inversion Hch; subst. apply Hext.
      repeat constructor.
Defined.

(** C8.  With an empty list of legal moves [get_move] returns the sentinel
    [(-1, -1)] at once, whatever the method, the mode and the clock: the
    world is as it was, whereas any search would have read the clock and any
    heuristic call would have been recorded. *)
Theorem get_move_without_legal_moves :
  forall fuel self game tl w,
    get_move fuel self game [] tl w = Some (Ok no_move, w)
    /\ (forall sm depth,
           ticks w < ticks (snd (run_search (set_time_left self tl) sm game depth w)))
    /\ (forall b,
           List.length (evals w)
           < List.length (evals (snd (call_score (set_time_left self tl) b w)))).
Proof.
  intros fuel self game tl w. split; [reflexivity|]. split.
  - intros sm depth.
    destruct (run_search_unfold (set_time_left self tl) sm game depth)
      as (body & D & ->).
    unfold bind, check_time.
    destruct (Py.flt _ _); [cbn; lia|].
    specialize (D (tick w)). destruct (body (tick w)) as [[r|e] w1]; cbn.
    + destruct D as (T & _). cbn in T. lia.
    + destruct D as (_ & T & _). cbn in T. lia.
  - intros b. cbn. lia.
Qed.

(** C9 as the code has it.  [custom_score] is the evaluator with weights
    0.77 and 0.23: minus infinity when the perspective has lost, plus
    infinity when it has won, and otherwise 0.77 times the number of its
    legal moves plus 0.23 times the number of the opponent's, computed in
    binary64.  With 5 and 2 legal moves this is 4.3100000000000005, the
    double next above 4.31. *)
Theorem custom_score_moves_combined :
  forall game p,
    let pos := board_position game in
    let my_moves := List.length (legal_moves_of pos p) in
    let opp_moves := List.length (legal_moves_of pos (get_opponent pos p)) in
    (is_loser pos p = true -> custom_score game p = Py.neg_inf)
    /\ (is_loser pos p = false -> is_winner pos p = true ->
        custom_score game p = Py.inf)
    /\ (is_loser pos p = false -> is_winner pos p = false ->
        custom_score game p
        = (0.77 * Py.float_of_len my_moves + 0.23 * Py.float_of_len opp_moves)%float
        /\ (my_moves = 5 -> opp_moves = 2 ->
            custom_score game p = 4.3100000000000005%float
            /\ custom_score game p = PrimFloat.next_up 4.31%float)).
Proof.
  intros game p pos my_moves opp_moves. unfold custom_score.
  fold pos. fold my_moves. fold opp_moves. split; [|split].
  - intros ->. reflexivity.
  - intros -> ->. reflexivity.
  - intros -> ->. split; [reflexivity|].
    intros -> ->. split; vm_compute; reflexivity.
Qed.

Lemma custom_score_moves_combined_witness :
  is_loser (board_position five_two_board) Player1 = false
  /\ is_winner (board_position five_two_board) Player1 = false
  /\ custom_score five_two_board Player1 = 4.3100000000000005%float.
Proof.
  split; [reflexivity|]. split; [reflexivity|].
  exact (proj1 (proj2 (proj2 (proj2 (custom_score_moves_combined
                                       five_two_board Player1))
                             eq_refl eq_refl)
                      eq_refl eq_refl)).
Defined.

(** C9 as stated fails: on a board that is not decided, where the mover has
    5 legal moves and the opponent 2, the value is not the double written
    4.31. *)
Lemma custom_score_five_two_not_4_31 :
  is_loser (board_position five_two_board) Player1 = false
  /\ is_winner (board_position five_two_board) Player1 = false
  /\ List.length (legal_moves_of (board_position five_two_board) Player1) = 5
  /\ List.length (legal_moves_of (board_position five_two_board)
                    (get_opponent (board_position five_two_board) Player1)) = 2
  /\ custom_score five_two_board Player1 <> 4.31%float
  /\ Py.feq (custom_score five_two_board Player1) 4.31 = false.
Proof.
  repeat split; try reflexivity.
  vm_compute. intros H. discriminate H.
Qed.

(** ** Whose point of view the scores are taken from *)

Lemma scored_by_self_widen self w0 w1 w2 w3 s :
  (exists e, evals w1 = e ++ evals w0) ->
  scored_by_self self w1 w2 s ->
  (exists e, evals w3 = e ++ evals w2) ->
  scored_by_self self w0 w3 s.
Proof.
  intros [e1 E1] (new & b & E & Hin & Hs) [e3 E3].
  exists (e3 ++ new ++ e1), b. split; [|split].
  - rewrite E3, E, E1, <- !app_assoc. reflexivity.
  - apply in_or_app. right. apply in_or_app. left. exact Hin.
  - exact Hs.
Qed.

Lemma evals_extend_refl (w : world) : exists e, evals w = e ++ evals w.
Proof. exists []. reflexivity. Qed.

Lemma returns_extend {A} self (c : M A) w a w' :
  disciplined self c -> c w = (Ok a, w') -> exists e, evals w' = e ++ evals w.
Proof.
  intros D H. specialize (D w). rewrite H in D.
  destruct D as (_ & _ & new & E & _). exists new. exact E.
Qed.

Lemma call_score_scored self b w s w' :
  call_score self b w = (Ok s, w') -> scored_by_self self w w' s.
Proof.
  intros H. inversion H; subst. exists [(b, self_handle self)], b.
  split; [reflexivity|]. split; [left; reflexivity | reflexivity].
Qed.

Lemma comprehension_scored self (f : board -> M float) succ :
  Forall (fun mc => disciplined self (f (snd mc))
                    /\ forall w s w', f (snd mc) w = (Ok s, w') ->
                                      scored_by_self self w w' s) succ ->
  forall w children w',
    comprehension f succ w = (Ok children, w') ->
    (exists e, evals w' = e ++ evals w)
    /\ forall c, In c children -> scored_by_self self w w' (fst c).
Proof.
  induction 1 as [|[m c] rest [Dc Hc] Hrest IH]; intros w children w' H; cbn in H.
  - inversion H; subst. split; [apply evals_extend_refl|]. intros c [].
  - apply bind_inv_ok in H. destruct H as (s & w1 & Hs & H).
    apply bind_inv_ok in H. destruct H as (tl & w2 & Htl & H).
    inversion H; subst. cbn [snd] in *.
    pose proof (returns_extend _ _ _ _ _ Dc Hs) as X1.
    destruct (IH _ _ _ Htl) as [X2 Hall]. split.
    + destruct X1 as [e1 E1], X2 as [e2 E2]. exists (e2 ++ e1).
      rewrite E2, E1. apply app_assoc.
    + intros k [<- | Hin].
      * cbn [fst].
        exact (scored_by_self_widen _ _ _ _ _ _ (evals_extend_refl _) (Hc _ _ _ Hs) X2).
      * exact (scored_by_self_widen _ _ _ _ _ _ X1 (Hall _ Hin) (evals_extend_refl _)).
Qed.

Lemma minimax_scored self : forall game depth mp w r w',
  minimax self game depth mp w = (Ok r, w') -> scored_by_self self w w' (fst r).
Proof.
  induction game as [pos succ IH] using board_induction.
  intros depth mp w r w' H. rewrite minimax_unfold in H.
  apply bind_inv_ok in H. destruct H as ([] & w1 & T & H).
  apply check_time_ok_inv in T. destruct T as [-> _].
  refine (scored_by_self_widen self w (tick w) w' w' _ (evals_extend_refl _) _
            (evals_extend_refl _)).
  unfold minimax_body in H.
  destruct (is_empty (get_legal_moves (MkBoard pos succ))).
  - apply bind_inv_ok in H. destruct H as (s & w2 & Hs & H). inversion H; subst.
    exact (call_score_scored _ _ _ _ _ Hs).
  - apply bind_inv_ok in H. destruct H as (children & w2 & Hch & H).
    destruct (select_In _ _ _ _ _ H) as [Hin ->]. cbn [board_successors] in Hch.
    refine (proj2 (comprehension_scored self _ succ _ _ _ _ Hch) r Hin).
    rewrite Forall_forall in *. intros mc Hmc. unfold child_value.
    destruct (Z.eqb depth 1).
    + split; [apply disciplined_call_score|]. intros u s u' Hs.
      exact (call_score_scored _ _ _ _ _ Hs).
    + split.
      * apply disciplined_bind; [apply disciplined_minimax|].
        intros u0 r0 u1 _. apply disciplined_ret.
      * intros u s u' Hs. apply bind_inv_ok in Hs.
        destruct Hs as (rc & u1 & Hrc & Hs). inversion Hs; subst.
        exact (IH mc Hmc _ _ _ _ _ Hrc).
Qed.

Lemma alphabeta_loop_scored self
  (recurse : board -> float -> float -> M (float * move)) mp todo :
  Forall (fun mc => forall a b,
            disciplined self (recurse (snd mc) a b)
            /\ forall w r w', recurse (snd mc) a b w = (Ok r, w') ->
                              fst r = Py.neg_inf \/ fst r = Py.inf
                              \/ scored_by_self self w w' (fst r)) todo ->
  forall a b best bm w r w',
    alphabeta_loop recurse mp todo a b best bm w = (Ok r, w') ->
    (exists e, evals w' = e ++ evals w)
    /\ (fst r = best \/ fst r = Py.neg_inf \/ fst r = Py.inf
        \/ scored_by_self self w w' (fst r)).
Proof.
  induction 1 as [|[m c] rest Hc Hrest IH]; intros a b best bm w r w' H; cbn in H.
  - inversion H; subst. split; [apply evals_extend_refl | left; reflexivity].
  - apply bind_inv_ok in H. destruct H as (rc & w1 & Hrc & H).
    destruct (Hc a b) as [Dc Sc]. cbn [snd] in Dc, Sc.
    pose proof (returns_extend _ _ _ _ _ Dc Hrc) as X1.
    pose proof (Sc _ _ _ Hrc) as S1.
    assert (Here : forall u, (exists e, evals u = e ++ evals w1) ->
                   fst rc = Py.neg_inf \/ fst rc = Py.inf
                   \/ scored_by_self self w u (fst rc)).
    { intros u Xu. destruct S1 as [S1 | [S1 | S1]]; auto.
      right. right.
      exact (scored_by_self_widen _ _ _ _ _ _ (evals_extend_refl _) S1 Xu). }
    assert (Rest : forall a' b' best' bm',
               alphabeta_loop recurse mp rest a' b' best' bm' w1 = (Ok r, w') ->
               (exists e, evals w' = e ++ evals w)
               /\ (fst r = best' \/ fst r = Py.neg_inf \/ fst r = Py.inf
                   \/ scored_by_self self w w' (fst r))).
    { intros a' b' best' bm' Hloop. destruct (IH _ _ _ _ _ _ _ Hloop) as [X2 S2].
      split.
      - destruct X1 as [e1 E1], X2 as [e2 E2]. exists (e2 ++ e1).
        rewrite E2, E1. apply app_assoc.
      - destruct S2 as [S2 | [S2 | [S2 | S2]]]; auto.
        right. right. right.
        exact (scored_by_self_widen _ _ _ _ _ _ X1 S2 (evals_extend_refl _)). }
    destruct (improves mp (fst rc) best).
    + destruct (__prune__ a b (fst rc) mp).
      * inversion H; subst. split; [exact X1|]. right.
        exact (Here _ (evals_extend_refl _)).
      * destruct (__update_limit__ a b (fst rc) mp) as [a' b'].
        destruct (Rest _ _ _ _ H) as [X S]. split; [exact X|].
        destruct S as [S | S]; [|right; exact S].
        right. rewrite S. apply Here.
        destruct (IH _ _ _ _ _ _ _ H) as [X2 _]. exact X2.
    + exact (Rest _ _ _ _ H).
Qed.

Lemma alphabeta_scored self : forall game depth alpha beta mp w r w',
  alphabeta self game depth alpha beta mp w = (Ok r, w') ->
  fst r = Py.neg_inf \/ fst r = Py.inf \/ scored_by_self self w w' (fst r).
Proof.
  induction game as [pos succ IH] using board_induction.
  intros depth alpha beta mp w r w' H. rewrite alphabeta_unfold in H.
  apply bind_inv_ok in H. destruct H as ([] & w1 & T & H).
  apply check_time_ok_inv in T. destruct T as [-> _].
  assert (Widen : fst r = Py.neg_inf \/ fst r = Py.inf
                  \/ scored_by_self self (tick w) w' (fst r) ->
                  fst r = Py.neg_inf \/ fst r = Py.inf
                  \/ scored_by_self self w w' (fst r)).
  { intros [S | [S | S]]; [left; exact S | right; left; exact S |].
    right. right.
    exact (scored_by_self_widen self w (tick w) w' w' _ (evals_extend_refl _) S
             (evals_extend_refl _)). }
  apply Widen. unfold alphabeta_body in H.
  destruct (Z.eqb depth 0 || is_empty (get_legal_moves (MkBoard pos succ))).
  - apply bind_inv_ok in H. destruct H as (s & w2 & Hs & H). inversion H; subst.
    right. right. exact (call_score_scored _ _ _ _ _ Hs).
  - cbn [board_successors] in H.
    assert (F : Forall (fun mc => forall a b,
                  disciplined self (alphabeta self (snd mc) (depth - 1) a b (negb mp))
                  /\ forall u r0 u',
                       alphabeta self (snd mc) (depth - 1) a b (negb mp) u = (Ok r0, u') ->
                       fst r0 = Py.neg_inf \/ fst r0 = Py.inf
                       \/ scored_by_self self u u' (fst r0)) succ).
    { rewrite Forall_forall in *. intros mc Hmc a b. split.
      - apply disciplined_alphabeta.
      - intros u r0 u' Hr. exact (IH mc Hmc _ _ _ _ _ _ _ Hr). }
    destruct (alphabeta_loop_scored self _ mp succ F _ _ _ _ _ _ _ H) as [_ [S | S]];
      [|exact S].
      rewrite S. destruct mp; auto.
Qed.

(** C10.  Whatever the board, the depth, the bounds and the maximizing flag,
    the heuristic calls that [minimax] and [alphabeta] add to the record
    are all made from the perspective of the agent itself, whether the call
    returns or is aborted; and the score that comes back is taken from that
    point of view: from [minimax] it is what the heuristic answers for the
    agent on one of the boards just evaluated, and from [alphabeta] it is
    that or one of the two infinities the loop starts from. *)
Theorem heuristic_called_from_own_perspective :
  forall self game depth alpha beta mp w,
    only_self self w (snd (minimax self game depth mp w))
    /\ only_self self w (snd (alphabeta self game depth alpha beta mp w))
    /\ (forall r w',
          minimax self game depth mp w = (Ok r, w') ->
          scored_by_self self w w' (fst r))
    /\ (forall r w',
          alphabeta self game depth alpha beta mp w = (Ok r, w') ->
          fst r = Py.neg_inf \/ fst r = Py.inf
          \/ scored_by_self self w w' (fst r)).
Proof.
  intros self game depth alpha beta mp w. split; [|split; [|split]].
  - pose proof (disciplined_minimax self game depth mp w) as D.
    destruct (minimax self game depth mp w) as [[r|e] w']; cbn; tauto.
  - pose proof (disciplined_alphabeta self game depth alpha beta mp w) as D.
    destruct (alphabeta self game depth alpha beta mp w) as [[r|e] w']; cbn; tauto.
  - intros r w' H. exact (minimax_scored _ _ _ _ _ _ _ H).
  - intros r w' H. exact (alphabeta_scored _ _ _ _ _ _ _ _ _ H).
Qed.

Example perspectives_on_deep_board :
  map snd (evals (snd (minimax minimax_agent
                               deep_board 3 true fresh)))
  = [Player1; Player1; Player1; Player1; Player1]
  /\ map snd (evals (snd (alphabeta alphabeta_agent
                                    deep_board 2 Py.neg_inf Py.inf true fresh)))
     = [Player1; Player1; Player1].
Proof. split; vm_compute; reflexivity. Qed.

(** * Further properties *)

Lemma digits2_pos_bound (m : positive) :
  (Z.pos m < 2 ^ Z.pos (digits2_pos m))%Z.
Proof.
  induction m as [m IH|m IH|]; cbn [digits2_pos].
  - rewrite Pos2Z.inj_succ, Z.pow_succ_r by lia. lia.
  - rewrite Pos2Z.inj_succ, Z.pow_succ_r by lia. lia.
  - reflexivity.
Qed.

Lemma valid_finite_bounds s m e :
  valid_binary (S754_finite s m e) = true ->
  (-1074 <= e <= 971 /\ 1 <= Z.pos m < 2 ^ 53)%Z.
Proof.
  cbn. unfold bounded, canonical_mantissa, fexp, emin, prec, emax.
  rewrite andb_true_iff, Z.eqb_eq, Z.leb_le. intros [C E].
  pose proof (digits2_pos_bound m) as D.
  assert (Z.pos (digits2_pos m) <= 53)%Z by lia.
  assert (2 ^ Z.pos (digits2_pos m) <= 2 ^ 53)%Z
    by (apply Z.pow_le_mono_r; lia).
  lia.
Qed.

Lemma sf_rank_lt f1 f2 :
  valid_binary f1 = true -> valid_binary f2 = true ->
  (lex3_lt (sf_key f1) (sf_key f2) <-> (sf_rank f1 < sf_rank f2)%Z).
Proof.
  intros V1 V2.
  destruct f1 as [s1|s1| |s1 m1 e1], f2 as [s2|s2| |s2 m2 e2];
    try (apply valid_finite_bounds in V1); try (apply valid_finite_bounds in V2);
    try destruct s1; try destruct s2; cbn -[Z.pow]; lia.
Qed.

Lemma sf_rank_eq f1 f2 :
  valid_binary f1 = true -> valid_binary f2 = true ->
  (sf_key f1 = sf_key f2 <-> sf_rank f1 = sf_rank f2).
Proof.
  intros V1 V2.
  destruct f1 as [s1|s1| |s1 m1 e1], f2 as [s2|s2| |s2 m2 e2];
    try (apply valid_finite_bounds in V1); try (apply valid_finite_bounds in V2);
    try destruct s1; try destruct s2; cbn -[Z.pow];
    (split; [intros E; inversion E; subst; lia | intros E]);
    try lia; try reflexivity.
  - assert (e1 = e2 /\ m1 = m2) as [-> ->] by lia. reflexivity.
  - assert (e1 = e2 /\ m1 = m2) as [-> ->] by lia. reflexivity.
Qed.

Lemma flt_rank x y :
  numeric x -> numeric y -> (Py.flt x y = true <-> (rank x < rank y)%Z).
Proof.
  intros Hx Hy. unfold Py.flt. rewrite (flt_key _ _ Hx Hy).
  apply sf_rank_lt; apply Prim2SF_valid.
Qed.

Lemma feq_rank x y :
  numeric x -> numeric y -> (Py.feq x y = true <-> rank x = rank y).
Proof.
  intros Hx Hy. unfold Py.feq. rewrite (feq_key _ _ Hx Hy).
  apply sf_rank_eq; apply Prim2SF_valid.
Qed.

Lemma fle_rank x y :
  numeric x -> numeric y -> (Py.fle x y = true <-> (rank x <= rank y)%Z).
Proof.
  intros Hx Hy. unfold Py.fle. rewrite FloatAxioms.leb_spec. unfold SFleb.
  pose proof (is_nan_false _ Hx) as Nx. pose proof (is_nan_false _ Hy) as Ny.
  pose proof (SFcompare_Lt _ _ Nx Ny) as L.
  pose proof (SFcompare_Eq _ _ Nx Ny) as E.
  pose proof (SFcompare_Lt _ _ Ny Nx) as G.
  pose proof (SFcompare_total _ _ Nx Ny) as T.
  rewrite (sf_rank_lt _ _ (Prim2SF_valid x) (Prim2SF_valid y)) in L.
  rewrite (sf_rank_eq _ _ (Prim2SF_valid x) (Prim2SF_valid y)) in E.
  rewrite (sf_rank_lt _ _ (Prim2SF_valid y) (Prim2SF_valid x)) in G.
  fold (rank x) in L, E, G. fold (rank y) in L, E, G.
  destruct (SFcompare (Prim2SF x) (Prim2SF y)) as [[]|].
  - assert (rank x = rank y) by now apply E. split; [lia | reflexivity].
  - assert (rank x < rank y)%Z by now apply L. split; [lia | reflexivity].
  - split; [discriminate|]. intros H.
    destruct (Z.lt_trichotomy (rank x) (rank y)) as [H1|[H1|H1]].
    + apply L in H1. discriminate H1.
    + apply E in H1. discriminate H1.
    + lia.
  - contradiction T. reflexivity.
Qed.

Lemma rank_range x : numeric x -> (- 2 ^ 64 <= rank x <= 2 ^ 64)%Z.
Proof.
  intros _. unfold rank. pose proof (Prim2SF_valid x) as V.
  destruct (Prim2SF x) as [s|s| |s m e]; try destruct s;
    try (apply valid_finite_bounds in V); cbn -[Z.pow]; lia.
Qed.

Lemma rank_neg_inf : rank Py.neg_inf = (- 2 ^ 64)%Z.
Proof. vm_compute. reflexivity. Qed.

Lemma rank_inf : rank Py.inf = (2 ^ 64)%Z.
Proof. vm_compute. reflexivity. Qed.

Lemma numeric_neg_inf : numeric Py.neg_inf.
Proof. reflexivity. Qed.

Lemma numeric_inf : numeric Py.inf.
Proof. reflexivity. Qed.

Lemma rank_fmax x y :
  numeric x -> numeric y ->
  numeric (fmax x y) /\ rank (fmax x y) = Z.max (rank x) (rank y).
Proof.
  intros Hx Hy. unfold fmax. pose proof (flt_rank x y Hx Hy) as L.
  destruct (Py.flt x y).
  - split; [exact Hy|]. assert (rank x < rank y)%Z by now apply L. lia.
  - split; [exact Hx|].
    assert (~ (rank x < rank y)%Z) by (intros H; apply L in H; discriminate H). lia.
Qed.

Lemma rank_fmin x y :
  numeric x -> numeric y ->
  numeric (fmin x y) /\ rank (fmin x y) = Z.min (rank x) (rank y).
Proof.
  intros Hx Hy. unfold fmin. pose proof (flt_rank y x Hy Hx) as L.
  destruct (Py.flt y x).
  - split; [exact Hy|]. assert (rank y < rank x)%Z by now apply L. lia.
  - split; [exact Hx|].
    assert (~ (rank y < rank x)%Z) by (intros H; apply L in H; discriminate H). lia.
Qed.

Lemma fold_fmax_rank l : forall init,
  numeric init -> Forall numeric l ->
  numeric (fold_left fmax l init)
  /\ (rank init <= rank (fold_left fmax l init))%Z
  /\ Forall (fun v => (rank v <= rank (fold_left fmax l init))%Z) l
  /\ (rank (fold_left fmax l init) = rank init
      \/ Exists (fun v => rank (fold_left fmax l init) = rank v) l).
Proof.
  induction l as [|v l IH]; intros init Hi Hl; cbn.
  - repeat split; auto. lia.
  - inversion_clear Hl as [|? ? Hv Hl'].
    destruct (rank_fmax init v Hi Hv) as [N R].
    destruct (IH (fmax init v) N Hl') as (N' & G & A & E).
    split; [exact N'|]. split; [lia|]. split.
    + constructor; [lia | exact A].
    + destruct E as [E|E].
      * destruct (Z.max_spec (rank init) (rank v)) as [[_ M]|[_ M]].
        -- right. left. lia.
        -- left. lia.
      * right. right. exact E.
Qed.

Lemma fold_fmin_rank l : forall init,
  numeric init -> Forall numeric l ->
  numeric (fold_left fmin l init)
  /\ (rank (fold_left fmin l init) <= rank init)%Z
  /\ Forall (fun v => (rank (fold_left fmin l init) <= rank v)%Z) l
  /\ (rank (fold_left fmin l init) = rank init
      \/ Exists (fun v => rank (fold_left fmin l init) = rank v) l).
Proof.
  induction l as [|v l IH]; intros init Hi Hl; cbn.
  - repeat split; auto. lia.
  - inversion_clear Hl as [|? ? Hv Hl'].
    destruct (rank_fmin init v Hi Hv) as [N R].
    destruct (IH (fmin init v) N Hl') as (N' & G & A & E).
    split; [exact N'|]. split; [lia|]. split.
    + constructor; [lia | exact A].
    + destruct E as [E|E].
      * destruct (Z.min_spec (rank init) (rank v)) as [[_ M]|[_ M]].
        -- left. lia.
        -- right. left. lia.
      * right. right. exact E.
Qed.

Lemma numeric_on_here h pos succ :
  numeric_on h (MkBoard pos succ) = true -> numeric (h (MkBoard pos succ)).
Proof.
  cbn. rewrite andb_true_iff, negb_true_iff. intros [H _]. exact H.
Qed.

Lemma numeric_on_below h pos succ :
  numeric_on h (MkBoard pos succ) = true ->
  Forall (fun mc => numeric_on h (snd mc) = true) succ.
Proof.
  cbn. rewrite andb_true_iff, forallb_forall. intros [_ H].
  apply Forall_forall. exact H.
Qed.

Lemma reference_value_numeric h : forall game depth mp,
  numeric_on h game = true -> numeric (reference_value h game depth mp).
Proof.
  induction game as [pos succ IH] using board_induction; intros depth mp Hn.
  cbn [reference_value].
  destruct (Z.eqb depth 0 || is_empty succ); [exact (numeric_on_here _ _ _ Hn)|].
  assert (F : Forall numeric
                (map (fun mc => reference_value h (snd mc) (depth - 1) (negb mp)) succ)).
  { apply Forall_map. pose proof (numeric_on_below _ _ _ Hn) as B.
    rewrite Forall_forall in *. intros mc Hin. apply IH; auto. }
  destruct mp.
  - exact (proj1 (fold_fmax_rank _ _ numeric_neg_inf F)).
  - exact (proj1 (fold_fmin_rank _ _ numeric_inf F)).
Qed.

Lemma improves_max s best :
  numeric s -> numeric best ->
  (improves true s best = true <-> (rank best < rank s)%Z).
Proof.
  intros Hs Hb. unfold improves. cbn [andb negb orb]. rewrite orb_false_r.
  exact (flt_rank best s Hb Hs).
Qed.

Lemma improves_min s best :
  numeric s -> numeric best ->
  (improves false s best = true <-> (rank s < rank best)%Z).
Proof.
  intros Hs Hb. unfold improves. cbn [andb negb orb].
  exact (flt_rank s best Hs Hb).
Qed.

Lemma prune_max a b s :
  numeric b -> numeric s ->
  (__prune__ a b s true = true <-> (rank b <= rank s)%Z).
Proof.
  intros Hb Hs. unfold __prune__. cbn [andb negb orb]. rewrite orb_false_r.
  exact (fle_rank b s Hb Hs).
Qed.

Lemma prune_min a b s :
  numeric a -> numeric s ->
  (__prune__ a b s false = true <-> (rank s <= rank a)%Z).
Proof.
  intros Ha Hs. unfold __prune__. cbn [andb negb orb].
  exact (fle_rank s a Hs Ha).
Qed.

Lemma bool_cases (b : bool) (P : Prop) :
  (b = true <-> P) -> (b = true /\ P) \/ (b = false /\ ~ P).
Proof. destruct b; intros [H1 H2]; [left | right]; split; auto. intros p. discriminate (H2 p). Qed.

Lemma loop_max recurse val a0 b0 :
  numeric a0 -> numeric b0 ->
  forall todo,
    Forall (fun mc => answers_within recurse val (snd mc)) todo ->
    forall a best bm m w r w',
      numeric a -> numeric best -> numeric m ->
      (rank a0 < rank b0)%Z -> (rank best < rank b0)%Z ->
      (rank m <= rank best)%Z ->
      (rank best <= rank a0 \/ rank best <= rank m)%Z ->
      (a = best \/ (rank best = - 2 ^ 64 /\ a = a0))%Z ->
      alphabeta_loop recurse true todo a b0 best bm w = (Ok r, w') ->
      numeric (fst r)
      /\ within_window (rank a0) (rank b0)
           (rank (fold_left fmax (map (fun mc => val (snd mc)) todo) m))
           (rank (fst r)).
Proof.
  intros Na0 Nb0. induction 1 as [|[mv c] rest [Nv Hc] Hrest IH];
    intros a best bm m w r w' Na Nbest Nm W Bb Mb Ba Ab H.
  - cbn in H. inversion H; subst. cbn. split; [exact Nbest|].
    unfold within_window. lia.
  - cbn [alphabeta_loop] in H. apply bind_inv_ok in H.
    destruct H as (rc & w1 & Hrec & H). cbn [map snd fold_left].
    assert (Wa : (rank a < rank b0)%Z) by (destruct Ab as [-> | [_ ->]]; lia).
    destruct (Hc a b0 w rc w1 Na Nb0 Wa Hrec) as [Nrc Src].
    cbn [snd] in Src, Nv.
    destruct (rank_fmax m (val c) Nm Nv) as [Nm' Rm'].
    pose proof (rank_range _ Nbest) as Rb. pose proof (rank_range _ Na0) as Ra0.
    cbv zeta in H.
    destruct (bool_cases _ _ (improves_max (fst rc) best Nrc Nbest)) as [[E I]|[E I]];
      rewrite E in H; clear E.
    + destruct (bool_cases _ _ (prune_max a b0 (fst rc) Nb0 Nrc)) as [[E P]|[E P]];
        rewrite E in H; clear E.
      * inversion H; subst. cbn [fst]. split; [exact Nrc|].
        assert (F : Forall numeric (map (fun mc => val (snd mc)) rest)).
        { apply Forall_map. eapply Forall_impl; [|exact Hrest].
          intros mc [N _]. exact N. }
        destruct (fold_fmax_rank _ _ Nm' F) as (_ & G & _).
        unfold within_window in *.
        destruct Ab as [-> | [Eb ->]]; lia.
      * cbn [__update_limit__] in H.
        apply (IH (fst rc) (fst rc) mv (fmax m (val c)) w1 r w'); auto;
          unfold within_window in *; destruct Ab as [-> | [Eb ->]]; lia.
    + apply (IH a best bm (fmax m (val c)) w1 r w'); auto;
        unfold within_window in *; destruct Ab as [-> | [Eb ->]]; lia.
Qed.

Lemma loop_min recurse val a0 b0 :
  numeric a0 -> numeric b0 ->
  forall todo,
    Forall (fun mc => answers_within recurse val (snd mc)) todo ->
    forall b best bm m w r w',
      numeric b -> numeric best -> numeric m ->
      (rank a0 < rank b0)%Z -> (rank a0 < rank best)%Z ->
      (rank best <= rank m)%Z ->
      (rank b0 <= rank best \/ rank m <= rank best)%Z ->
      (b = best \/ (rank best = 2 ^ 64 /\ b = b0))%Z ->
      alphabeta_loop recurse false todo a0 b best bm w = (Ok r, w') ->
      numeric (fst r)
      /\ within_window (rank a0) (rank b0)
           (rank (fold_left fmin (map (fun mc => val (snd mc)) todo) m))
           (rank (fst r)).
Proof.
  intros Na0 Nb0. induction 1 as [|[mv c] rest [Nv Hc] Hrest IH];
    intros b best bm m w r w' Nb Nbest Nm W Bb Mb Ba Ab H.
  - cbn in H. inversion H; subst. cbn. split; [exact Nbest|].
    unfold within_window. lia.
  - cbn [alphabeta_loop] in H. apply bind_inv_ok in H.
    destruct H as (rc & w1 & Hrec & H). cbn [map snd fold_left].
    assert (Wb : (rank a0 < rank b)%Z) by (destruct Ab as [-> | [_ ->]]; lia).
    destruct (Hc a0 b w rc w1 Na0 Nb Wb Hrec) as [Nrc Src].
    cbn [snd] in Src, Nv.
    destruct (rank_fmin m (val c) Nm Nv) as [Nm' Rm'].
    pose proof (rank_range _ Nbest) as Rb. pose proof (rank_range _ Nb0) as Rb0.
    cbv zeta in H.
    destruct (bool_cases _ _ (improves_min (fst rc) best Nrc Nbest)) as [[E I]|[E I]];
      rewrite E in H; clear E.
    + destruct (bool_cases _ _ (prune_min a0 b (fst rc) Na0 Nrc)) as [[E P]|[E P]];
        rewrite E in H; clear E.
      * inversion H; subst. cbn [fst]. split; [exact Nrc|].
        assert (F : Forall numeric (map (fun mc => val (snd mc)) rest)).
        { apply Forall_map. eapply Forall_impl; [|exact Hrest].
          intros mc [N _]. exact N. }
        destruct (fold_fmin_rank _ _ Nm' F) as (_ & G & _).
        unfold within_window in *.
        destruct Ab as [-> | [Eb ->]]; lia.
      * cbn [__update_limit__] in H.
        apply (IH (fst rc) (fst rc) mv (fmin m (val c)) w1 r w'); auto;
          unfold within_window in *; destruct Ab as [-> | [Eb ->]]; lia.
    + apply (IH b best bm (fmin m (val c)) w1 r w'); auto;
        unfold within_window in *; destruct Ab as [-> | [Eb ->]]; lia.
Qed.

Lemma alphabeta_answers_within self : forall game depth mp,
  (0 <= depth)%Z ->
  numeric_on (own_score self) game = true ->
  answers_within
    (fun c a b => alphabeta self c depth a b mp)
    (fun c => reference_value (own_score self) c depth mp)
    game.
Proof.
  induction game as [pos succ IH] using board_induction; intros depth mp Hd Hn.
  split; [apply reference_value_numeric; exact Hn|].
  intros a b w r w' Na Nb W H.
  rewrite alphabeta_unfold in H. apply bind_inv_ok in H.
  destruct H as ([] & w1 & _ & H). unfold alphabeta_body in H.
  cbn [reference_value]. unfold get_legal_moves in H. cbn [board_successors] in H.
  assert (Em : is_empty (map fst succ) = is_empty succ) by (destruct succ; reflexivity).
  rewrite Em in H.
  destruct (Z.eqb depth 0 || is_empty succ) eqn:E.
  - apply bind_inv_ok in H. destruct H as (s & w2 & Hs & H).
    inversion H; subst. inversion Hs; subst. cbn [fst].
    split; [exact (numeric_on_here _ _ _ Hn)|]. unfold within_window, own_score. lia.
  - apply orb_false_iff in E. destruct E as [E0 _]. apply Z.eqb_neq in E0.
    assert (F : Forall (fun mc =>
                          answers_within
                            (fun c a b => alphabeta self c (depth - 1) a b (negb mp))
                            (fun c => reference_value (own_score self) c (depth - 1) (negb mp))
                            (snd mc)) succ).
    { pose proof (numeric_on_below _ _ _ Hn) as B.
      rewrite Forall_forall in *. intros mc Hin. apply IH; auto. lia. }
    pose proof (rank_range _ Na) as Ra. pose proof (rank_range _ Nb) as Rb.
    destruct mp.
    + refine (loop_max _ _ a b Na Nb succ F a Py.neg_inf _ Py.neg_inf w1 r w'
                Na numeric_neg_inf numeric_neg_inf W _ _ _ _ H);
        rewrite ?rank_neg_inf; try lia. right. split; reflexivity.
    + refine (loop_min _ _ a b Na Nb succ F b Py.inf _ Py.inf w1 r w'
                Nb numeric_inf numeric_inf W _ _ _ _ H);
        rewrite ?rank_inf; try lia. right. split; reflexivity.
Qed.

Lemma fold_fmax_ranks l : forall init,
  numeric init -> Forall numeric l ->
  rank (fold_left fmax l init) = fold_left Z.max (map rank l) (rank init).
Proof.
  induction l as [|v l IH]; intros init Hi Hl; cbn; [reflexivity|].
  inversion_clear Hl as [|? ? Hv Hl'].
  destruct (rank_fmax init v Hi Hv) as [N R].
  rewrite (IH _ N Hl'), R. reflexivity.
Qed.

Lemma fold_fmin_ranks l : forall init,
  numeric init -> Forall numeric l ->
  rank (fold_left fmin l init) = fold_left Z.min (map rank l) (rank init).
Proof.
  induction l as [|v l IH]; intros init Hi Hl; cbn; [reflexivity|].
  inversion_clear Hl as [|? ? Hv Hl'].
  destruct (rank_fmin init v Hi Hv) as [N R].
  rewrite (IH _ N Hl'), R. reflexivity.
Qed.

Lemma fold_max_is l : forall init x,
  (init <= x)%Z -> (x = init \/ In x l) -> Forall (fun y => (y <= x)%Z) l ->
  fold_left Z.max l init = x.
Proof.
  induction l as [|y l IH]; intros init x Hi Hx Hl; cbn.
  - destruct Hx as [-> | []]. reflexivity.
  - inversion_clear Hl as [|? ? Hy Hl']. apply IH; [lia | | exact Hl'].
    destruct Hx as [-> | [-> | Hin]]; [left; lia | left; lia | right; exact Hin].
Qed.

Lemma fold_min_is l : forall init x,
  (x <= init)%Z -> (x = init \/ In x l) -> Forall (fun y => (x <= y)%Z) l ->
  fold_left Z.min l init = x.
Proof.
  induction l as [|y l IH]; intros init x Hi Hx Hl; cbn.
  - destruct Hx as [-> | []]. reflexivity.
  - inversion_clear Hl as [|? ? Hy Hl']. apply IH; [lia | | exact Hl'].
    destruct Hx as [-> | [-> | Hin]]; [left; lia | left; lia | right; exact Hin].
Qed.

Lemma lex5_le_rank x r :
  lex5_le (pair_key x) (pair_key r) -> (rank (fst x) <= rank (fst r))%Z.
Proof.
  unfold lex5_le, pair_key, lex5_lt. intros H.
  apply Z.nlt_ge. intros L. apply H. left.
  apply (sf_rank_lt _ _ (Prim2SF_valid (fst r)) (Prim2SF_valid (fst x))). exact L.
Qed.

(** The scores of a comprehension are, in order, those its body gives. *)
Lemma comprehension_ranks (f : board -> M float) (val : board -> float) succ :
  Forall (fun mc => forall w s w', f (snd mc) w = (Ok s, w') ->
                                   numeric s /\ rank s = rank (val (snd mc))) succ ->
  forall w children w',
    comprehension f succ w = (Ok children, w') ->
    Forall real_score children
    /\ map (fun c => rank (fst c)) children
       = map (fun mc => rank (val (snd mc))) succ.
Proof.
  induction 1 as [|[m c] rest Hc Hrest IH]; intros w children w' H; cbn in H.
  - inversion H. split; [constructor | reflexivity].
  - apply bind_inv_ok in H. destruct H as (s & w1 & Hs & H).
    apply bind_inv_ok in H. destruct H as (tl & w2 & Htl & H).
    inversion H; subst. destruct (Hc _ _ _ Hs) as [Ns Rs].
    destruct (IH _ _ _ Htl) as [Ft Et]. split.
    + constructor; [exact Ns | exact Ft].
    + cbn. rewrite Rs, Et. reflexivity.
Qed.

Lemma minimax_value self : forall game depth mp w r w',
  (1 <= depth)%Z ->
  numeric_on (own_score self) game = true ->
  minimax self game depth mp w = (Ok r, w') ->
  numeric (fst r)
  /\ rank (fst r) = rank (reference_value (own_score self) game depth mp).
Proof.
  induction game as [pos succ IH] using board_induction;
    intros depth mp w r w' Hd Hn H.
  rewrite minimax_unfold in H. apply bind_inv_ok in H.
  destruct H as ([] & w1 & _ & H). unfold minimax_body in H.
  cbn [reference_value]. unfold get_legal_moves in H. cbn [board_successors] in H.
  assert (Em : is_empty (map fst succ) = is_empty succ) by (destruct succ; reflexivity).
  rewrite Em in H.
  assert (E0 : Z.eqb depth 0 = false) by (apply Z.eqb_neq; lia).
  rewrite E0. cbn [orb].
  destruct (is_empty succ) eqn:E.
  - apply bind_inv_ok in H. destruct H as (s & w2 & Hs & H).
    inversion H; subst. inversion Hs; subst. cbn [fst].
    split; [exact (numeric_on_here _ _ _ Hn) | reflexivity].
  - apply bind_inv_ok in H. destruct H as (children & w2 & Hch & H).
    assert (F : Forall (fun mc => forall w s w',
                          child_value self depth mp (snd mc) w = (Ok s, w') ->
                          numeric s
                          /\ rank s = rank (reference_value (own_score self) (snd mc)
                                              (depth - 1) (negb mp))) succ).
    { pose proof (numeric_on_below _ _ _ Hn) as B.
      rewrite Forall_forall in *. intros [m c] Hin w0 s w0' Hv. cbn [snd] in *.
      specialize (B _ Hin). cbn [snd] in B. unfold child_value in Hv.
      destruct (Z.eqb_spec depth 1) as [-> | Hne].
      - inversion Hv; subst. destruct c as [cpos csucc]. cbn [reference_value Z.sub Z.eqb orb Z.add Z.opp Z.pos_sub].
        split; [exact (numeric_on_here _ _ _ B) | reflexivity].
      - apply bind_inv_ok in Hv. destruct Hv as (rc & w3 & Hrc & Hv).
        inversion Hv; subst.
        apply (IH _ Hin (depth - 1)%Z (negb mp) w0 rc w0'); auto. lia. }
    destruct (comprehension_ranks
                (child_value self depth mp)
                (fun c => reference_value (own_score self) c (depth - 1) (negb mp))
                succ F _ _ _ Hch) as [Fr Er].
    assert (Fv : Forall numeric
                   (map (fun mc => reference_value (own_score self) (snd mc)
                                     (depth - 1) (negb mp)) succ)).
    { apply Forall_map. pose proof (numeric_on_below _ _ _ Hn) as B.
      eapply Forall_impl; [|exact B]. intros mc Hmc.
      apply reference_value_numeric. exact Hmc. }
    destruct children as [|c cs]; [cbn in H; discriminate H|].
    cbn in H. inversion H; subst; clear H.
    assert (Hin : In (if mp then Py.max_from pair_gt c cs
                      else Py.min_from pair_lt c cs) (c :: cs))
      by (destruct mp; [apply max_from_In | apply (max_from_In pair_lt)]).
    assert (Nr : numeric (fst (if mp then Py.max_from pair_gt c cs
                               else Py.min_from pair_lt c cs))).
    { rewrite Forall_forall in Fr. exact (Fr _ Hin). }
    split; [exact Nr|].
    inversion Fr as [|? ? Hc Hcs]; subst.
    pose proof (rank_range _ Nr) as Rr.
    destruct mp.
    + rewrite (fold_fmax_ranks _ _ numeric_neg_inf Fv), map_map, <- Er, rank_neg_inf.
      symmetry. apply fold_max_is; [lia | |].
      * right. apply (in_map (fun c => rank (fst c))) in Hin. exact Hin.
      * apply Forall_map. destruct (max_from_upper cs c Hc Hcs) as [U1 U2].
        constructor; [exact (lex5_le_rank _ _ U1)|].
        eapply Forall_impl; [|exact U2]. intros x. apply lex5_le_rank.
    + rewrite (fold_fmin_ranks _ _ numeric_inf Fv), map_map, <- Er, rank_inf.
      symmetry. apply fold_min_is; [lia | |].
      * right. apply (in_map (fun c => rank (fst c))) in Hin. exact Hin.
      * apply Forall_map. destruct (min_from_lower cs c Hc Hcs) as [U1 U2].
        constructor; [exact (lex5_le_rank _ _ U1)|].
        eapply Forall_impl; [|exact U2]. intros x. apply lex5_le_rank.
Qed.

(** X1.  For a heuristic that is a number on the board and below it, and a
    depth of at least 1, the score [minimax] returns equals the value of the
    board to that horizon. *)
Theorem minimax_returns_game_value :
  forall self game depth mp w r w',
    (1 <= depth)%Z ->
    numeric_on (own_score self) game = true ->
    minimax self game depth mp w = (Ok r, w') ->
    Py.feq (fst r) (reference_value (own_score self) game depth mp) = true.
Proof.
  intros self game depth mp w r w' Hd Hn H.
  destruct (minimax_value self game depth mp w r w' Hd Hn H) as [N R].
  apply feq_rank; [exact N | apply reference_value_numeric; exact Hn | exact R].
Qed.

Lemma minimax_returns_game_value_witness :
  (1 <= 3)%Z
  /\ numeric_on (own_score minimax_agent) deep_board = true
  /\ fst (minimax minimax_agent deep_board 3 true fresh) = Ok (3.31%float, (3, 2)%Z)
  /\ Py.feq 3.31 (reference_value (own_score minimax_agent) deep_board 3 true) = true.
Proof.
  split; [lia|]. split; [vm_compute; reflexivity|].
  split; [vm_compute; reflexivity|].
  refine (minimax_returns_game_value minimax_agent deep_board 3 true fresh
            (3.31%float, (3, 2)%Z)
            (snd (minimax minimax_agent deep_board 3 true fresh)) _ _ _).
  - lia.
  - vm_compute. reflexivity.
  - vm_compute. reflexivity.
Defined.

(** X2.  For a heuristic that is a number on the board and below it, a depth
    of at least 0 and a window of numbers with [alpha < beta], the score
    [alphabeta] returns is the value of the board to that horizon when the
    value lies strictly inside the window; when the value is at most
    [alpha] the score lies between the value and [alpha]; when the value is
    at least [beta] the score lies between [beta] and the value. *)
Theorem alphabeta_score_within_window :
  forall self game depth alpha beta mp w r w',
    (0 <= depth)%Z ->
    numeric_on (own_score self) game = true ->
    Py.is_nan alpha = false -> Py.is_nan beta = false ->
    Py.flt alpha beta = true ->
    alphabeta self game depth alpha beta mp w = (Ok r, w') ->
    (Py.flt alpha (reference_value (own_score self) game depth mp) = true ->
     Py.flt (reference_value (own_score self) game depth mp) beta = true ->
     Py.feq (fst r) (reference_value (own_score self) game depth mp) = true)
    /\ (Py.fle (reference_value (own_score self) game depth mp) alpha = true ->
        Py.fle (reference_value (own_score self) game depth mp) (fst r) = true
        /\ Py.fle (fst r) alpha = true)
    /\ (Py.fle beta (reference_value (own_score self) game depth mp) = true ->
        Py.fle beta (fst r) = true
        /\ Py.fle (fst r) (reference_value (own_score self) game depth mp) = true).
Proof.
  intros self game depth alpha beta mp w r w' Hd Hn Na Nb W H.
  pose proof (reference_value_numeric (own_score self) game depth mp Hn) as Nv.
  apply (flt_rank _ _ Na Nb) in W.
  destruct (alphabeta_answers_within self game depth mp Hd Hn) as [_ A].
  destruct (A alpha beta w r w' Na Nb W H) as [Nr [S1 [S2 S3]]].
  split; [|split].
  - intros L1 L2. apply (flt_rank _ _ Na Nv) in L1. apply (flt_rank _ _ Nv Nb) in L2.
    apply (feq_rank _ _ Nr Nv). apply S1. lia.
  - intros L. apply (fle_rank _ _ Nv Na) in L. destruct (S2 L).
    split; [apply (fle_rank _ _ Nv Nr) | apply (fle_rank _ _ Nr Na)]; lia.
  - intros L. apply (fle_rank _ _ Nb Nv) in L. destruct (S3 L).
    split; [apply (fle_rank _ _ Nb Nr) | apply (fle_rank _ _ Nr Nv)]; lia.
Qed.

Lemma alphabeta_score_within_window_witness :
  (0 <= 2)%Z
  /\ numeric_on (own_score alphabeta_agent) deep_board = true
  /\ Py.flt 2 3 = true
  /\ reference_value (own_score alphabeta_agent) deep_board 2 true = 1.77%float
  /\ fst (alphabeta alphabeta_agent deep_board 2 2 3 true fresh)
     = Ok (1.77%float, (2, 3)%Z)
  /\ Py.fle 1.77 2 = true.
Proof.
  split; [lia|]. split; [vm_compute; reflexivity|].
  split; [vm_compute; reflexivity|]. split; [vm_compute; reflexivity|].
  split; [vm_compute; reflexivity|].
  refine (proj2 (proj1 (proj2 (alphabeta_score_within_window
            alphabeta_agent deep_board 2 2 3 true fresh
            (1.77%float, (2, 3)%Z)
            (snd (alphabeta alphabeta_agent deep_board 2 2 3 true fresh))
            _ _ _ _ _ _)) _));
    try (vm_compute; reflexivity). lia.
Defined.

(** X3.  For a heuristic that is a number on the board and below it, and a
    depth of at least 1, [alphabeta] called with the window from minus
    infinity to plus infinity returns the same score as [minimax]. *)
Theorem alphabeta_score_equals_minimax_score :
  forall self game depth mp w1 r1 w1' w2 r2 w2',
    (1 <= depth)%Z ->
    numeric_on (own_score self) game = true ->
    minimax self game depth mp w1 = (Ok r1, w1') ->
    alphabeta self game depth Py.neg_inf Py.inf mp w2 = (Ok r2, w2') ->
    Py.feq (fst r1) (fst r2) = true.
Proof.
  intros self game depth mp w1 r1 w1' w2 r2 w2' Hd Hn H1 H2.
  destruct (minimax_value self game depth mp w1 r1 w1' Hd Hn H1) as [N1 R1].
  assert (Hd0 : (0 <= depth)%Z) by lia.
  destruct (alphabeta_answers_within self game depth mp Hd0 Hn) as [Nv A].
  assert (W : (rank Py.neg_inf < rank Py.inf)%Z)
    by (rewrite rank_neg_inf, rank_inf; lia).
  destruct (A _ _ _ _ _ numeric_neg_inf numeric_inf W H2) as [N2 S].
  apply (feq_rank _ _ N1 N2). pose proof (rank_range _ Nv) as Rv.
  pose proof (rank_range _ N2) as R2.
  unfold within_window in S. rewrite rank_neg_inf, rank_inf in S. lia.
Qed.

Lemma alphabeta_score_equals_minimax_score_witness :
  (1 <= 3)%Z
  /\ numeric_on (own_score minimax_agent) switch_board = true
  /\ fst (minimax minimax_agent switch_board 3 true fresh)
     = Ok (Py.inf, (1, 0)%Z)
  /\ fst (alphabeta minimax_agent switch_board 3 Py.neg_inf Py.inf true fresh)
     = Ok (Py.inf, (0, 1)%Z)
  /\ Py.feq Py.inf Py.inf = true.
Proof.
  split; [lia|]. split; [vm_compute; reflexivity|].
  split; [vm_compute; reflexivity|]. split; [vm_compute; reflexivity|].
  refine (alphabeta_score_equals_minimax_score minimax_agent switch_board 3 true
            fresh (Py.inf, (1, 0)%Z)
            (snd (minimax minimax_agent switch_board 3 true fresh))
            fresh (Py.inf, (0, 1)%Z)
            (snd (alphabeta minimax_agent switch_board 3 Py.neg_inf Py.inf true fresh))
            _ _ _ _).
  - lia.
  - vm_compute. reflexivity.
  - vm_compute. reflexivity.
  - vm_compute. reflexivity.
Defined.

(** ** Which boards the heuristic sees *)

Lemma evals_added_refl P w : evals_added P w w.
Proof. exists []. split; [reflexivity | constructor]. Qed.

Lemma evals_added_trans P w1 w2 w3 :
  evals_added P w1 w2 -> evals_added P w2 w3 -> evals_added P w1 w3.
Proof.
  intros [n1 [E1 F1]] [n2 [E2 F2]]. exists (n2 ++ n1). split.
  - rewrite E2, E1. apply app_assoc.
  - apply Forall_app. split; assumption.
Qed.

Lemma evaluates_only_ret {A} P (a : A) : evaluates_only P (ret a).
Proof. intros w. apply evals_added_refl. Qed.

Lemma evaluates_only_bind {A B} P (c : M A) (k : A -> M B) :
  evaluates_only P c -> (forall a, evaluates_only P (k a)) ->
  evaluates_only P (bind c k).
Proof.
  intros Hc Hk w. unfold bind. specialize (Hc w).
  destruct (c w) as [[a|e] w1]; cbn [snd] in *.
  - apply evals_added_trans with w1; [exact Hc | apply Hk].
  - exact Hc.
Qed.

Lemma evaluates_only_check_time P self : evaluates_only P (check_time self).
Proof.
  intros w. unfold check_time.
  destruct (Py.flt _ _); exists []; split; try reflexivity; constructor.
Qed.

Lemma evaluates_only_call_score (P : board -> Prop) self b :
  P b -> evaluates_only P (call_score self b).
Proof.
  intros Hb w. exists [(b, self_handle self)]. split; [reflexivity|].
  constructor; [exact Hb | constructor].
Qed.

Lemma evaluates_only_select P mp children : evaluates_only P (select mp children).
Proof. destruct children; intros w; apply evals_added_refl. Qed.

Lemma evaluates_only_comprehension P (f : board -> M float) succ :
  Forall (fun mc => evaluates_only P (f (snd mc))) succ ->
  evaluates_only P (comprehension f succ).
Proof.
  induction 1 as [|[m c] rest Hc Hrest IH]; cbn.
  - apply evaluates_only_ret.
  - apply evaluates_only_bind; [exact Hc|]. intros s.
    apply evaluates_only_bind; [exact IH|]. intros tl. apply evaluates_only_ret.
Qed.

Lemma evaluates_only_alphabeta_loop P recurse mp todo :
  Forall (fun mc => forall a b, evaluates_only P (recurse (snd mc) a b)) todo ->
  forall alpha beta best_score best_move,
    evaluates_only P (alphabeta_loop recurse mp todo alpha beta best_score best_move).
Proof.
  induction 1 as [|[m c] rest Hc Hrest IH]; intros alpha beta bs bm; cbn.
  - apply evaluates_only_ret.
  - apply evaluates_only_bind; [apply Hc|]. intros r.
    destruct (improves mp (fst r) bs); [|apply IH].
    destruct (__prune__ alpha beta (fst r) mp); [apply evaluates_only_ret|].
    destruct (__update_limit__ alpha beta (fst r) mp) as [a' b']. apply IH.
Qed.

Lemma minimax_to_the_end self : forall game depth mp,
  (depth <= 0)%Z -> evaluates_only no_moves (minimax self game depth mp).
Proof.
  induction game as [pos succ IH] using board_induction; intros depth mp Hd.
  rewrite minimax_unfold. apply evaluates_only_bind; [apply evaluates_only_check_time|].
  intros _. unfold minimax_body.
  destruct (is_empty (get_legal_moves (MkBoard pos succ))) eqn:E.
  - apply evaluates_only_bind; [|intros s; apply evaluates_only_ret].
    apply evaluates_only_call_score. apply is_empty_true. exact E.
  - apply evaluates_only_bind; [|intros ch; apply evaluates_only_select].
    apply evaluates_only_comprehension. cbn [board_successors]. unfold child_value.
    assert (E1 : Z.eqb depth 1 = false) by (apply Z.eqb_neq; lia). rewrite E1.
    eapply Forall_impl; [|exact IH]. intros mc Hmc. cbn beta.
    apply evaluates_only_bind; [apply Hmc; lia | intros r; apply evaluates_only_ret].
Qed.

Lemma alphabeta_to_the_end self : forall game depth alpha beta mp,
  (depth < 0)%Z -> evaluates_only no_moves (alphabeta self game depth alpha beta mp).
Proof.
  induction game as [pos succ IH] using board_induction; intros depth alpha beta mp Hd.
  rewrite alphabeta_unfold. apply evaluates_only_bind; [apply evaluates_only_check_time|].
  intros _. unfold alphabeta_body.
  assert (E0 : Z.eqb depth 0 = false) by (apply Z.eqb_neq; lia). rewrite E0. cbn [orb].
  destruct (is_empty (get_legal_moves (MkBoard pos succ))) eqn:E.
  - apply evaluates_only_bind; [|intros s; apply evaluates_only_ret].
    apply evaluates_only_call_score. apply is_empty_true. exact E.
  - apply evaluates_only_alphabeta_loop. cbn [board_successors].
    eapply Forall_impl; [|exact IH]. intros mc Hmc a b. cbn beta. apply Hmc. lia.
Qed.

(** X4.  [minimax] called with a depth of 0 or less, and [alphabeta] called
    with a negative depth, never meet their depth test: whether they return
    or are aborted, every board they hand to the heuristic is one on which
    the side to move has no legal move. *)
Theorem nonpositive_depth_searches_to_the_end :
  forall self game depth alpha beta mp w,
    (depth <= 0)%Z ->
    evals_added no_moves w (snd (minimax self game depth mp w))
    /\ evals_added no_moves w
         (snd (alphabeta self game (depth - 1) alpha beta mp w)).
Proof.
  intros self game depth alpha beta mp w Hd. split.
  - apply minimax_to_the_end. exact Hd.
  - apply alphabeta_to_the_end. lia.
Qed.

Lemma nonpositive_depth_searches_to_the_end_witness :
  (0 <= 0)%Z
  /\ map (fun e => get_legal_moves (fst e))
         (evals (snd (minimax minimax_agent switch_board 0 true fresh)))
     = [[]; []; []; []]
  /\ evals_added no_moves fresh (snd (minimax minimax_agent switch_board 0 true fresh))
  /\ evals_added no_moves fresh
       (snd (alphabeta minimax_agent switch_board (0 - 1) Py.neg_inf Py.inf true fresh)).
Proof.
  split; [lia|]. split; [vm_compute; reflexivity|].
  exact (nonpositive_depth_searches_to_the_end
           minimax_agent switch_board 0 Py.neg_inf Py.inf true fresh (Z.le_refl 0)).
Defined.

(** ** What the driver returns *)

Lemma choose_method_none name :
  choose_method name = None <-> name <> "minimax"%string /\ name <> "alphabeta"%string.
Proof.
  unfold choose_method.
  destruct (String.eqb_spec name "minimax"); [split; [discriminate | tauto]|].
  destruct (String.eqb_spec name "alphabeta"); [split; [discriminate | tauto]|].
  tauto.
Qed.

(** X5.  With a list of legal moves that is not empty and a method that is
    neither ['minimax'] nor ['alphabeta'], [get_move] raises the
    [ValueError] that names the method, in either mode and whatever the
    search depth, before the clock is read or the heuristic called. *)
Theorem get_move_raises_for_unknown_method :
  forall fuel self game legal tl w,
    legal <> [] ->
    method self <> "minimax"%string ->
    method self <> "alphabeta"%string ->
    get_move fuel self game legal tl w
    = Some (Raise (ValueError ("Method " ++ method self ++ " not supported.")), w).
Proof.
  intros fuel self game legal tl w Hl H1 H2. unfold get_move.
  cbn [method iterative search_depth set_time_left].
  destruct legal as [|first rest]; [contradiction Hl; reflexivity|].
  rewrite (proj2 (choose_method_none (method self)) (conj H1 H2)). reflexivity.
Qed.

Lemma get_move_raises_for_unknown_method_witness :
  get_legal_moves switch_board <> []
  /\ method (sample_player "negascout" true 3 plenty) <> "minimax"%string
  /\ method (sample_player "negascout" true 3 plenty) <> "alphabeta"%string
  /\ get_move 0 (sample_player "negascout" true 3 plenty) switch_board
              (get_legal_moves switch_board) plenty fresh
     = Some (Raise (ValueError "Method negascout not supported."), fresh).
Proof.
  split; [discriminate|]. split; [discriminate|]. split; [discriminate|].
  refine (get_move_raises_for_unknown_method 0 (sample_player "negascout" true 3 plenty)
            switch_board (get_legal_moves switch_board) plenty fresh _ _ _).
  - discriminate.
  - discriminate.
  - discriminate.
Defined.

Lemma deepen_keeps_legal self sm game : forall fuel d best w m w',
  (1 <= d)%Z ->
  get_legal_moves game <> [] ->
  In best (get_legal_moves game) ->
  deepen fuel (run_search self sm game) d best w = Some (Ok m, w') ->
  In m (get_legal_moves game).
Proof.
  induction fuel as [|fuel IH]; intros d best w m w' Hd Hl Hb H; cbn in H;
    [discriminate H|].
  destruct (run_search self sm game d w) as [[r|[|msg]] w1] eqn:E.
  - apply (IH (d + 1)%Z (snd r) w1 m w'); [lia | exact Hl | | exact H].
    assert (L : legal_or_sentinel game (snd r)).
    { destruct sm; cbn in E.
      - exact (minimax_move _ _ _ _ _ _ _ E).
      - refine (alphabeta_move _ _ _ _ _ _ _ _ _ _ E). lia. }
    destruct L as [[L _] | [_ L]]; [contradiction | exact L].
  - inversion H; subst. exact Hb.
  - discriminate H.
Qed.

(** X6.  Called with the legal moves of the board, which are not empty, and
    a supported method, in iterative mode or with a search depth of at
    least 1, [get_move] returns nothing but one of these legal moves,
    whether the search completed or was aborted. *)
Theorem get_move_returns_legal_move :
  forall fuel self game tl w sm m w',
    choose_method (method self) = Some sm ->
    iterative self = true \/ (1 <= search_depth self)%Z ->
    get_legal_moves game <> [] ->
    get_move fuel self game (get_legal_moves game) tl w = Some (Ok m, w') ->
    In m (get_legal_moves game).
Proof.
  intros fuel self game tl w sm m w' Hm Hmode Hl H.
  destruct (get_legal_moves game) as [|first rest] eqn:El; [contradiction|].
  destruct (iterative self) eqn:Hi.
  - rewrite (get_move_iterative _ _ _ _ _ _ sm _ Hi Hm) in H.
    rewrite <- El. refine (deepen_keeps_legal _ _ _ _ _ _ _ _ _ _ _ _ H).
    + lia.
    + rewrite El. discriminate.
    + rewrite El. left. reflexivity.
  - destruct Hmode as [Hmode | Hd]; [discriminate Hmode|].
    rewrite (get_move_fixed _ _ _ _ _ _ sm _ Hi Hm) in H.
    destruct (run_search (set_time_left self tl) sm game (search_depth self) w)
      as [[r|[|msg]] w1] eqn:E.
    + inversion H; subst.
      assert (L : legal_or_sentinel game (snd r)).
      { destruct sm; cbn in E.
        - exact (minimax_move _ _ _ _ _ _ _ E).
        - refine (alphabeta_move _ _ _ _ _ _ _ _ _ _ E). lia. }
      rewrite <- El. destruct L as [[L _] | [_ L]]; [|exact L].
      rewrite El in L. discriminate L.
    + inversion H; subst. left. reflexivity.
    + discriminate H.
Qed.

Lemma get_move_returns_legal_move_witness :
  choose_method (method deepening_agent) = Some UseMinimax
  /\ (iterative deepening_agent = true \/ (1 <= search_depth deepening_agent)%Z)
  /\ get_legal_moves switch_board <> []
  /\ option_map fst
       (get_move 4 deepening_agent switch_board (get_legal_moves switch_board)
                 (low_from 5) fresh)
     = Some (Ok (1, 0)%Z)
  /\ In (1, 0)%Z (get_legal_moves switch_board).
Proof.
  split; [reflexivity|]. split; [left; reflexivity|]. split; [discriminate|].
  split; [vm_compute; reflexivity|].
  destruct (get_move 4 deepening_agent switch_board (get_legal_moves switch_board)
                     (low_from 5) fresh) as [[[m|e] w']|] eqn:E;
    try (vm_compute in E; discriminate E).
  assert (Em : m = (1, 0)%Z).
  { pose proof E as E'. vm_compute in E'. inversion E'. reflexivity. }
  subst m.
  refine (get_move_returns_legal_move 4 deepening_agent switch_board (low_from 5)
            fresh UseMinimax (1, 0)%Z w' _ _ _ E).
  - reflexivity.
  - left. reflexivity.
  - discriminate.
Defined.

Lemma deepen_goes_on self sm game :
  (forall n, below self n = false) ->
  forall fuel d best w, deepen fuel (run_search self sm game) d best w = None.
Proof.
  intros Hclock. induction fuel as [|fuel IH]; intros d best w; cbn; [reflexivity|].
  destruct (disciplined_returns self (run_search self sm game d) w
              (disciplined_run_search self sm game d) Hclock) as (r & w1 & E).
  rewrite E. apply IH.
Qed.

(** X7.  In iterative mode with a supported method and legal moves, when no
    clock reading is ever under the threshold the loop of [get_move] does
    not end: after any number of rounds it is still running, however small
    the board. *)
Theorem iterative_get_move_needs_the_timeout :
  forall fuel self game first rest tl sm w,
    iterative self = true ->
    choose_method (method self) = Some sm ->
    (forall n, below (set_time_left self tl) n = false) ->
    get_move fuel self game (first :: rest) tl w = None.
Proof.
  intros fuel self game first rest tl sm w Hi Hm Hclock.
  rewrite (get_move_iterative _ _ _ _ _ _ sm _ Hi Hm).
  apply deepen_goes_on. exact Hclock.
Qed.

Lemma iterative_get_move_needs_the_timeout_witness :
  iterative deepening_agent = true
  /\ choose_method (method deepening_agent) = Some UseMinimax
  /\ get_move 50 deepening_agent (stuck Player1 0) [(0, 0)%Z] plenty fresh = None.
Proof.
  split; [reflexivity|]. split; [reflexivity|].
  refine (iterative_get_move_needs_the_timeout 50 deepening_agent (stuck Player1 0)
            (0, 0)%Z [] plenty UseMinimax fresh eq_refl eq_refl _).
  intros n. reflexivity.
Defined.

(** X8.  In fixed-depth mode with ['alphabeta'] and a search depth of 0,
    when the first clock reading is not under the threshold [get_move]
    returns the sentinel [(-1, -1)] although there are legal moves: the
    search stops on the board it was given, after one heuristic call on
    it. *)
Theorem fixed_alphabeta_depth_zero_gives_sentinel :
  forall fuel self game first rest tl w,
    iterative self = false ->
    method self = "alphabeta"%string ->
    search_depth self = 0%Z ->
    below (set_time_left self tl) (ticks w) = false ->
    get_move fuel self game (first :: rest) tl w
    = Some (Ok no_move, record_eval game (self_handle self) (tick w)).
Proof.
  intros fuel self game first rest tl w Hi Hm Hd Hclock.
  assert (Hc : choose_method (method self) = Some UseAlphabeta)
    by (rewrite Hm; reflexivity).
  rewrite (get_move_fixed _ _ _ _ _ _ UseAlphabeta _ Hi Hc), Hd.
  cbn [run_search]. rewrite alphabeta_unfold. unfold bind at 1.
  rewrite (check_time_pass _ _ Hclock). reflexivity.
Qed.

Lemma fixed_alphabeta_depth_zero_gives_sentinel_witness :
  get_move 0 (sample_player "alphabeta" false 0 plenty) switch_board
           (get_legal_moves switch_board) plenty fresh
  = Some (Ok no_move, record_eval switch_board Player1 (tick fresh)).
Proof.
  exact (fixed_alphabeta_depth_zero_gives_sentinel 0
           (sample_player "alphabeta" false 0 plenty) switch_board
           (0, 1)%Z [(1, 0)%Z] plenty fresh eq_refl eq_refl eq_refl eq_refl).
Defined.

Lemma rank_bounds x : (- 2 ^ 64 <= rank x <= 2 ^ 64)%Z.
Proof.
  unfold rank. pose proof (Prim2SF_valid x) as V.
  destruct (Prim2SF x) as [s|s| |s m e]; try destruct s;
    try (apply valid_finite_bounds in V); cbn -[Z.pow]; lia.
Qed.

Lemma first_best_more mp val seen m best x :
  first_best mp val seen m best -> first_best mp val (seen ++ [x]) m best.
Proof.
  intros (pre & c & post & -> & E & F). exists pre, c, (post ++ [x]).
  rewrite <- app_assoc. auto.
Qed.

Lemma first_best_head mp val (x : move * board) seen best :
  Forall (fun mc => rank (val (snd mc)) = best) (x :: seen) ->
  first_best mp val (x :: seen) (hd no_move (map fst (x :: seen))) best.
Proof.
  intros F. inversion_clear F as [|? ? Hx _]. destruct x as [m c].
  exists [], c, seen. cbn. auto.
Qed.

Lemma loop_max_first recurse val :
  forall todo,
    Forall (fun mc => answers_within recurse val (snd mc)) todo ->
    forall seen a best bm m w r w',
      numeric a -> numeric best -> numeric m ->
      rank a = rank best -> rank m = rank best -> (rank best < 2 ^ 64)%Z ->
      Forall (fun mc => (rank (val (snd mc)) <= rank best)%Z) seen ->
      ((rank best = - 2 ^ 64 /\ bm = hd no_move (map fst (seen ++ todo)))%Z
       \/ first_best true val seen bm (rank best)) ->
      seen ++ todo <> [] ->
      alphabeta_loop recurse true todo a Py.inf best bm w = (Ok r, w') ->
      first_best true val (seen ++ todo) (snd r) (rank (fst r)).
Proof.
  induction 1 as [|[mv c] rest [Nv Hc] Hrest IH];
    intros seen a best bm m w r w' Na Nbest Nm Ea Em Bb Fs St Hne H.
  - cbn in H. inversion H; subst. cbn [fst snd]. rewrite app_nil_r in *.
    destruct St as [[Eb ->] | St]; [|exact St].
    destruct seen as [|x seen]; [contradiction Hne; reflexivity|].
    apply first_best_head. eapply Forall_impl; [|exact Fs].
    intros mc L. cbn beta in L. pose proof (rank_bounds (val (snd mc))). lia.
  - cbn [alphabeta_loop] in H. apply bind_inv_ok in H.
    destruct H as (rc & w1 & Hrec & H). cbv zeta in H.
    assert (Wa : (rank a < rank Py.inf)%Z) by (rewrite rank_inf; lia).
    destruct (Hc a Py.inf w rc w1 Na numeric_inf Wa Hrec) as [Nrc Src].
    cbn [snd] in Src, Nv. rewrite rank_inf in Src.
    destruct (rank_fmax m (val c) Nm Nv) as [Nm' Rm'].
    pose proof (rank_bounds (val c)) as Rv. pose proof (rank_bounds (fst rc)) as Rrc.
    assert (Eapp : seen ++ (mv, c) :: rest = (seen ++ [(mv, c)]) ++ rest)
      by (rewrite <- app_assoc; reflexivity).
    destruct (bool_cases _ _ (improves_max (fst rc) best Nrc Nbest)) as [[E I]|[E I]];
      rewrite E in H; clear E.
    + assert (Ev : rank (fst rc) = rank (val c)) by (unfold within_window in Src; lia).
      assert (Fs' : Forall (fun mc => (rank (val (snd mc)) < rank (fst rc))%Z) seen).
      { eapply Forall_impl; [|exact Fs]. intros mc L. cbn beta in L. lia. }
      destruct (bool_cases _ _ (prune_max a Py.inf (fst rc) numeric_inf Nrc))
        as [[E P]|[E P]]; rewrite E in H; clear E.
      * inversion H; subst. cbn [fst snd]. exists seen, c, rest. auto.
      * cbn [__update_limit__] in H. rewrite rank_inf in P. rewrite Eapp.
        apply (IH (seen ++ [(mv, c)]) (fst rc) (fst rc) mv (fmax m (val c)) w1 r w');
          auto; try lia.
        -- apply Forall_app. split.
           ++ eapply Forall_impl; [|exact Fs']. intros mc L. cbn beta in L. lia.
           ++ constructor; [cbn; lia | constructor].
        -- right. exists seen, c, []. auto.
        -- destruct seen; discriminate.
    + assert (Ev : (rank (val c) <= rank best)%Z) by (unfold within_window in Src; lia).
      rewrite Eapp.
      apply (IH (seen ++ [(mv, c)]) a best bm (fmax m (val c)) w1 r w');
        auto; try lia.
      * apply Forall_app. split; [exact Fs|]. constructor; [exact Ev | constructor].
      * destruct St as [[Eb ->] | St].
        -- left. split; [exact Eb|]. rewrite <- Eapp. reflexivity.
        -- right. apply first_best_more. exact St.
      * destruct seen; discriminate.
Qed.

Lemma loop_min_first recurse val :
  forall todo,
    Forall (fun mc => answers_within recurse val (snd mc)) todo ->
    forall seen b best bm m w r w',
      numeric b -> numeric best -> numeric m ->
      rank b = rank best -> rank m = rank best -> (- 2 ^ 64 < rank best)%Z ->
      Forall (fun mc => (rank best <= rank (val (snd mc)))%Z) seen ->
      ((rank best = 2 ^ 64 /\ bm = hd no_move (map fst (seen ++ todo)))%Z
       \/ first_best false val seen bm (rank best)) ->
      seen ++ todo <> [] ->
      alphabeta_loop recurse false todo Py.neg_inf b best bm w = (Ok r, w') ->
      first_best false val (seen ++ todo) (snd r) (rank (fst r)).
Proof.
  induction 1 as [|[mv c] rest [Nv Hc] Hrest IH];
    intros seen b best bm m w r w' Nb Nbest Nm Eb Em Bb Fs St Hne H.
  - cbn in H. inversion H; subst. cbn [fst snd]. rewrite app_nil_r in *.
    destruct St as [[Ebest ->] | St]; [|exact St].
    destruct seen as [|x seen]; [contradiction Hne; reflexivity|].
    apply first_best_head. eapply Forall_impl; [|exact Fs].
    intros mc L. cbn beta in L. pose proof (rank_bounds (val (snd mc))). lia.
  - cbn [alphabeta_loop] in H. apply bind_inv_ok in H.
    destruct H as (rc & w1 & Hrec & H). cbv zeta in H.
    assert (Wb : (rank Py.neg_inf < rank b)%Z) by (rewrite rank_neg_inf; lia).
    destruct (Hc Py.neg_inf b w rc w1 numeric_neg_inf Nb Wb Hrec) as [Nrc Src].
    cbn [snd] in Src, Nv. rewrite rank_neg_inf in Src.
    destruct (rank_fmin m (val c) Nm Nv) as [Nm' Rm'].
    pose proof (rank_bounds (val c)) as Rv. pose proof (rank_bounds (fst rc)) as Rrc.
    assert (Eapp : seen ++ (mv, c) :: rest = (seen ++ [(mv, c)]) ++ rest)
      by (rewrite <- app_assoc; reflexivity).
    destruct (bool_cases _ _ (improves_min (fst rc) best Nrc Nbest)) as [[E I]|[E I]];
      rewrite E in H; clear E.
    + assert (Ev : rank (fst rc) = rank (val c)) by (unfold within_window in Src; lia).
      assert (Fs' : Forall (fun mc => (rank (fst rc) < rank (val (snd mc)))%Z) seen).
      { eapply Forall_impl; [|exact Fs]. intros mc L. cbn beta in L. lia. }
      destruct (bool_cases _ _ (prune_min Py.neg_inf b (fst rc) numeric_neg_inf Nrc))
        as [[E P]|[E P]]; rewrite E in H; clear E.
      * inversion H; subst. cbn [fst snd]. exists seen, c, rest. auto.
      * cbn [__update_limit__] in H. rewrite rank_neg_inf in P. rewrite Eapp.
        apply (IH (seen ++ [(mv, c)]) (fst rc) (fst rc) mv (fmin m (val c)) w1 r w');
          auto; try lia.
        -- apply Forall_app. split.
           ++ eapply Forall_impl; [|exact Fs']. intros mc L. cbn beta in L. lia.
           ++ constructor; [cbn; lia | constructor].
        -- right. exists seen, c, []. auto.
        -- destruct seen; discriminate.
    + assert (Ev : (rank best <= rank (val c))%Z) by (unfold within_window in Src; lia).
      rewrite Eapp.
      apply (IH (seen ++ [(mv, c)]) b best bm (fmin m (val c)) w1 r w');
        auto; try lia.
      * apply Forall_app. split; [exact Fs|]. constructor; [exact Ev | constructor].
      * destruct St as [[Ebest ->] | St].
        -- left. split; [exact Ebest|]. rewrite <- Eapp. reflexivity.
        -- right. apply first_best_more. exact St.
      * destruct seen; discriminate.
Qed.

Lemma child_value_rank self depth mp c w s w' :
  (1 <= depth)%Z ->
  numeric_on (own_score self) c = true ->
  child_value self depth mp c w = (Ok s, w') ->
  numeric s /\ rank s = rank (value_below self depth mp c).
Proof.
  intros Hd Hn H. unfold child_value in H. unfold value_below.
  destruct (Z.eqb_spec depth 1) as [-> | Hne].
  - inversion H; subst. destruct c as [cpos csucc].
    split; [exact (numeric_on_here _ _ _ Hn) | reflexivity].
  - apply bind_inv_ok in H. destruct H as (rc & w1 & Hrc & H). inversion H; subst.
    apply (minimax_value self c (depth - 1)%Z (negb mp) w rc w'); auto. lia.
Qed.

Lemma comprehension_pointwise (f : board -> M float) (val : board -> float) succ :
  Forall (fun mc => forall w s w', f (snd mc) w = (Ok s, w') ->
                                   rank s = rank (val (snd mc))) succ ->
  forall w children w',
    comprehension f succ w = (Ok children, w') ->
    forall r, In r children ->
              exists c, In (snd r, c) succ /\ rank (val c) = rank (fst r).
Proof.
  induction 1 as [|[m c] rest Hc Hrest IH]; intros w children w' H r Hin; cbn in H.
  - inversion H; subst. destruct Hin.
  - apply bind_inv_ok in H. destruct H as (s & w1 & Hs & H).
    apply bind_inv_ok in H. destruct H as (tl & w2 & Htl & H).
    inversion H; subst. destruct Hin as [<- | Hin].
    + exists c. split; [left; reflexivity|]. cbn. symmetry. exact (Hc _ _ _ Hs).
    + destruct (IH _ _ _ Htl r Hin) as (c' & Hin' & E).
      exists c'. split; [right; exact Hin' | exact E].
Qed.

Lemma minimax_move_has_value self game depth mp w r w' :
  (1 <= depth)%Z ->
  numeric_on (own_score self) game = true ->
  get_legal_moves game <> [] ->
  minimax self game depth mp w = (Ok r, w') ->
  exists c, In (snd r, c) (board_successors game)
            /\ rank (value_below self depth mp c) = rank (fst r).
Proof.
  intros Hd Hn Hl H. rewrite minimax_unfold in H. apply bind_inv_ok in H.
  destruct H as ([] & w1 & _ & H). unfold minimax_body in H.
  apply is_empty_false in Hl. rewrite Hl in H.
  apply bind_inv_ok in H. destruct H as (children & w2 & Hch & H).
  destruct (select_In _ _ _ _ _ H) as [Hin _].
  refine (comprehension_pointwise _ (value_below self depth mp) _ _ _ _ _ Hch r Hin).
  destruct game as [pos succ]. cbn [board_successors].
  pose proof (numeric_on_below _ _ _ Hn) as B.
  rewrite Forall_forall in *. intros mc Hmc w0 s w0' Hv.
  exact (proj2 (child_value_rank self depth mp (snd mc) w0 s w0' Hd (B _ Hmc) Hv)).
Qed.

Lemma alphabeta_first_best self game depth mp w r w' :
  (1 <= depth)%Z ->
  numeric_on (own_score self) game = true ->
  get_legal_moves game <> [] ->
  alphabeta self game depth Py.neg_inf Py.inf mp w = (Ok r, w') ->
  first_best mp (value_below self depth mp) (board_successors game)
             (snd r) (rank (fst r)).
Proof.
  intros Hd Hn Hl H. rewrite alphabeta_unfold in H. apply bind_inv_ok in H.
  destruct H as ([] & w1 & _ & H). unfold alphabeta_body in H.
  assert (E0 : Z.eqb depth 0 = false) by (apply Z.eqb_neq; lia).
  apply is_empty_false in Hl. rewrite E0, Hl in H. cbn [orb] in H.
  destruct game as [pos succ]. cbn [board_successors] in *.
  assert (F : Forall (fun mc =>
                        answers_within
                          (fun c a b => alphabeta self c (depth - 1) a b (negb mp))
                          (value_below self depth mp) (snd mc)) succ).
  { pose proof (numeric_on_below _ _ _ Hn) as B.
    rewrite Forall_forall in *. intros mc Hin.
    apply alphabeta_answers_within; [lia | exact (B _ Hin)]. }
  assert (Hne : [] ++ succ <> []).
  { cbn. intros ->. apply is_empty_false in Hl. apply Hl. reflexivity. }
  destruct mp.
  - refine (loop_max_first _ _ succ F [] Py.neg_inf Py.neg_inf _ Py.neg_inf w1 r w'
              numeric_neg_inf numeric_neg_inf numeric_neg_inf eq_refl eq_refl
              _ (Forall_nil _) _ Hne H).
    + rewrite rank_neg_inf. lia.
    + left. split; [apply rank_neg_inf | reflexivity].
  - refine (loop_min_first _ _ succ F [] Py.inf Py.inf _ Py.inf w1 r w'
              numeric_inf numeric_inf numeric_inf eq_refl eq_refl
              _ (Forall_nil _) _ Hne H).
    + rewrite rank_inf. lia.
    + left. split; [apply rank_inf | reflexivity].
Qed.

Lemma reference_value_bounds self game depth (mp : bool) :
  (1 <= depth)%Z ->
  numeric_on (own_score self) game = true ->
  get_legal_moves game <> [] ->
  Forall (fun mc : move * board =>
            if mp
            then (rank (value_below self depth mp (snd mc))
                  <= rank (reference_value (own_score self) game depth mp))%Z
            else (rank (reference_value (own_score self) game depth mp)
                  <= rank (value_below self depth mp (snd mc)))%Z)
         (board_successors game).
Proof.
  intros Hd Hn Hl. destruct game as [pos succ]. cbn [board_successors].
  assert (E0 : Z.eqb depth 0 = false) by (apply Z.eqb_neq; lia).
  assert (E1 : is_empty succ = false).
  { destruct succ; [contradiction Hl; reflexivity | reflexivity]. }
  cbn [reference_value]. rewrite E0, E1. cbn [orb].
  assert (F : Forall numeric
                (map (fun mc => reference_value (own_score self) (snd mc) (depth - 1)
                                  (negb mp)) succ)).
  { apply Forall_map. pose proof (numeric_on_below _ _ _ Hn) as B.
    rewrite Forall_forall in *. intros mc Hin.
    apply reference_value_numeric. exact (B _ Hin). }
  destruct mp.
  - destruct (fold_fmax_rank _ _ numeric_neg_inf F) as (_ & _ & U & _).
    rewrite Forall_map in U. exact U.
  - destruct (fold_fmin_rank _ _ numeric_inf F) as (_ & _ & U & _).
    rewrite Forall_map in U. exact U.
Qed.

(** X9.  For a heuristic that is a number on the board and below it, a
    depth of at least 1 and a board with legal moves, [alphabeta] called
    with the window from minus infinity to plus infinity returns the value
    of the board to that depth together with the first legal move, in the
    order of the board, that leads to a board of that value: every move
    before it leads to a board of a strictly worse value, and no move after
    it to a better one. *)
Theorem alphabeta_returns_first_best_move :
  forall self game depth mp w r w',
    (1 <= depth)%Z ->
    numeric_on (own_score self) game = true ->
    get_legal_moves game <> [] ->
    alphabeta self game depth Py.neg_inf Py.inf mp w = (Ok r, w') ->
    exists pre c post,
      board_successors game = pre ++ (snd r, c) :: post
      /\ Py.feq (fst r) (reference_value (own_score self) game depth mp) = true
      /\ Py.feq (value_below self depth mp c) (fst r) = true
      /\ Forall (fun mc =>
                   (if mp then Py.flt (value_below self depth mp (snd mc)) (fst r)
                    else Py.fgt (value_below self depth mp (snd mc)) (fst r)) = true)
                pre
      /\ Forall (fun mc =>
                   (if mp then Py.fle (value_below self depth mp (snd mc)) (fst r)
                    else Py.fge (value_below self depth mp (snd mc)) (fst r)) = true)
                post.
Proof.
  intros self game depth mp w r w' Hd Hn Hl H.
  assert (Hd0 : (0 <= depth)%Z) by lia.
  destruct (alphabeta_answers_within self game depth mp Hd0 Hn) as [Nv A].
  assert (W : (rank Py.neg_inf < rank Py.inf)%Z)
    by (rewrite rank_neg_inf, rank_inf; lia).
  destruct (A _ _ _ _ _ numeric_neg_inf numeric_inf W H) as [Nr S].
  pose proof (rank_range _ Nv) as Rv. pose proof (rank_range _ Nr) as Rr.
  assert (Ev : rank (fst r) = rank (reference_value (own_score self) game depth mp)).
  { unfold within_window in S. rewrite rank_neg_inf, rank_inf in S. lia. }
  destruct (alphabeta_first_best self game depth mp w r w' Hd Hn Hl H)
    as (pre & c & post & E & Ec & F).
  assert (B : Forall (fun mc => numeric (value_below self depth mp (snd mc)))
                     (board_successors game)).
  { destruct game as [pos succ]. cbn [board_successors].
    pose proof (numeric_on_below _ _ _ Hn) as B.
    eapply Forall_impl; [|exact B]. intros mc Hmc.
    apply reference_value_numeric. exact Hmc. }
  pose proof (reference_value_bounds self game depth mp Hd Hn Hl) as U.
  rewrite E in B, U.
  apply Forall_app in B. destruct B as [Bpre B].
  inversion_clear B as [|? ? Bc Bpost]. cbn [snd] in Bc.
  apply Forall_app in U. destruct U as [_ U].
  inversion_clear U as [|? ? _ Upost].
  exists pre, c, post. split; [exact E|]. split; [|split; [|split]].
  - apply (feq_rank _ _ Nr Nv). exact Ev.
  - apply (feq_rank _ _ Bc Nr). exact Ec.
  - rewrite Forall_forall in *. intros mc Hin.
    specialize (F mc Hin). specialize (Bpre mc Hin). cbn beta in F, Bpre.
    destruct mp.
    + apply (flt_rank _ _ Bpre Nr). exact F.
    + unfold Py.fgt. apply (flt_rank _ _ Nr Bpre). exact F.
  - rewrite Forall_forall in *. intros mc Hin.
    specialize (Upost mc Hin). specialize (Bpost mc Hin). cbn beta in Upost, Bpost.
    destruct mp.
    + apply (fle_rank _ _ Bpost Nr). lia.
    + unfold Py.fge. apply (fle_rank _ _ Nr Bpost). lia.
Qed.

Lemma alphabeta_returns_first_best_move_witness :
  (1 <= 3)%Z
  /\ numeric_on (own_score alphabeta_agent) deep_board = true
  /\ get_legal_moves deep_board = [(2, 3)%Z; (3, 2)%Z]
  /\ fst (alphabeta alphabeta_agent deep_board 3 Py.neg_inf Py.inf true fresh)
     = Ok (3.31%float, (3, 2)%Z)
  /\ exists pre c post,
       board_successors deep_board = pre ++ ((3, 2)%Z, c) :: post
       /\ Py.feq 3.31 (reference_value (own_score alphabeta_agent) deep_board 3 true)
          = true
       /\ Py.feq (value_below alphabeta_agent 3 true c) 3.31 = true
       /\ Forall (fun mc =>
                    Py.flt (value_below alphabeta_agent 3 true (snd mc)) 3.31 = true)
                 pre
       /\ Forall (fun mc =>
                    Py.fle (value_below alphabeta_agent 3 true (snd mc)) 3.31 = true)
                 post.
Proof.
  split; [lia|]. split; [vm_compute; reflexivity|].
  split; [vm_compute; reflexivity|]. split; [vm_compute; reflexivity|].
  refine (alphabeta_returns_first_best_move alphabeta_agent deep_board 3 true fresh
            (3.31%float, (3, 2)%Z)
            (snd (alphabeta alphabeta_agent deep_board 3 Py.neg_inf Py.inf true fresh))
            _ _ _ _).
  - lia.
  - vm_compute. reflexivity.
  - vm_compute. discriminate.
  - vm_compute. reflexivity.
Defined.

(** X10.  For a heuristic that is a number on the board and below it and a
    depth of at least 1, when no two legal moves lead to boards of equal
    value, [minimax] and [alphabeta] called with the window from minus
    infinity to plus infinity return the same move. *)
Theorem minimax_and_alphabeta_same_move_without_ties :
  forall self game depth mp w1 r1 w1' w2 r2 w2',
    (1 <= depth)%Z ->
    numeric_on (own_score self) game = true ->
    ForallOrdPairs
      (fun a b => Py.feq (value_below self depth mp (snd a))
                         (value_below self depth mp (snd b)) = false)
      (board_successors game) ->
    minimax self game depth mp w1 = (Ok r1, w1') ->
    alphabeta self game depth Py.neg_inf Py.inf mp w2 = (Ok r2, w2') ->
    snd r1 = snd r2.
Proof.
  intros self game depth mp w1 r1 w1' w2 r2 w2' Hd Hn Hties H1 H2.
  assert (Hl : get_legal_moves game = [] \/ get_legal_moves game <> [])
    by (destruct (get_legal_moves game); [left; reflexivity | right; discriminate]).
  destruct Hl as [Hl | Hl].
  - destruct (minimax_move _ _ _ _ _ _ _ H1) as [[_ ->] | [C _]]; [|contradiction].
    assert (Hd0 : depth <> 0%Z) by lia.
    destruct (alphabeta_move _ _ _ _ _ _ _ _ _ Hd0 H2) as [[_ ->] | [C _]];
      [reflexivity | contradiction].
  - destruct (minimax_move_has_value _ _ _ _ _ _ _ Hd Hn Hl H1) as (c1 & In1 & E1).
    destruct (alphabeta_first_best _ _ _ _ _ _ _ Hd Hn Hl H2)
      as (pre & c2 & post & E & E2 & _).
    assert (In2 : In (snd r2, c2) (board_successors game))
      by (rewrite E; apply in_or_app; right; left; reflexivity).
    destruct (minimax_value self game depth mp w1 r1 w1' Hd Hn H1) as [N1 R1].
    assert (Hd0 : (0 <= depth)%Z) by lia.
    destruct (alphabeta_answers_within self game depth mp Hd0 Hn) as [Nv A].
    assert (W : (rank Py.neg_inf < rank Py.inf)%Z)
      by (rewrite rank_neg_inf, rank_inf; lia).
    destruct (A _ _ _ _ _ numeric_neg_inf numeric_inf W H2) as [N2 S].
    pose proof (rank_range _ Nv) as Rv. pose proof (rank_range _ N2) as Rr2.
    assert (R12 : rank (fst r1) = rank (fst r2)).
    { unfold within_window in S. rewrite rank_neg_inf, rank_inf in S. lia. }
    assert (B : Forall (fun mc => numeric (value_below self depth mp (snd mc)))
                       (board_successors game)).
    { destruct game as [pos succ]. cbn [board_successors].
      pose proof (numeric_on_below _ _ _ Hn) as B.
      eapply Forall_impl; [|exact B]. intros mc Hmc.
      apply reference_value_numeric. exact Hmc. }
    rewrite Forall_forall in B.
    pose proof (B _ In1) as B1. pose proof (B _ In2) as B2. cbn [snd] in B1, B2.
    assert (T12 : Py.feq (value_below self depth mp c1) (value_below self depth mp c2)
                  = true) by (apply (feq_rank _ _ B1 B2); lia).
    assert (T21 : Py.feq (value_below self depth mp c2) (value_below self depth mp c1)
                  = true) by (apply (feq_rank _ _ B2 B1); lia).
    destruct (ForallOrdPairs_In Hties _ _ In1 In2) as [Eq | [C | C]].
    + inversion Eq. reflexivity.
    + cbn [snd] in C. rewrite T12 in C. discriminate C.
    + cbn [snd] in C. rewrite T21 in C. discriminate C.
Qed.

Lemma minimax_and_alphabeta_same_move_without_ties_witness :
  (1 <= 3)%Z
  /\ numeric_on (own_score minimax_agent) deep_board = true
  /\ map (fun mc => value_below minimax_agent 3 true (snd mc))
         (board_successors deep_board) = [1%float; 3.31%float]
  /\ fst (minimax minimax_agent deep_board 3 true fresh)
     = Ok (3.31%float, (3, 2)%Z)
  /\ fst (alphabeta minimax_agent deep_board 3 Py.neg_inf Py.inf true fresh)
     = Ok (3.31%float, (3, 2)%Z)
  /\ (3, 2)%Z = (3, 2)%Z.
Proof.
  split; [lia|]. split; [vm_compute; reflexivity|].
  split; [vm_compute; reflexivity|]. split; [vm_compute; reflexivity|].
  split; [vm_compute; reflexivity|].
  refine (minimax_and_alphabeta_same_move_without_ties minimax_agent deep_board 3 true
            fresh (3.31%float, (3, 2)%Z)
            (snd (minimax minimax_agent deep_board 3 true fresh))
            fresh (3.31%float, (3, 2)%Z)
            (snd (alphabeta minimax_agent deep_board 3 Py.neg_inf Py.inf true fresh))
            _ _ _ _ _).
  - lia.
  - vm_compute. reflexivity.
  - repeat constructor; vm_compute; reflexivity.
  - vm_compute. reflexivity.
  - vm_compute. reflexivity.
Defined.

(** ** What pruning does to the heuristic calls *)

Lemma subsequence_refl {A} (l : list A) : subsequence l l.
Proof. induction l; [apply subsequence_nil | apply subsequence_keep; assumption]. Qed.

Lemma subsequence_nil_l {A} (l : list A) : subsequence [] l.
Proof. induction l; constructor; assumption. Qed.

Lemma subsequence_app {A} (a b c d : list A) :
  subsequence a b -> subsequence c d -> subsequence (a ++ c) (b ++ d).
Proof.
  induction 1; intros Hcd; cbn.
  - exact Hcd.
  - apply subsequence_skip. auto.
  - apply subsequence_keep. auto.
Qed.

Lemma subsequence_length {A} (a b : list A) :
  subsequence a b -> List.length a <= List.length b.
Proof. induction 1; cbn; lia. Qed.

Lemma calls_pruned_same w1 w2 : calls_pruned w1 w1 w2 w2.
Proof. exists [], []. repeat split. constructor. Qed.

Lemma calls_pruned_trans w1 w1a w1b w2 w2a w2b :
  calls_pruned w1 w1a w2 w2a -> calls_pruned w1a w1b w2a w2b ->
  calls_pruned w1 w1b w2 w2b.
Proof.
  intros (e1 & e2 & E1 & E2 & S) (f1 & f2 & F1 & F2 & T).
  exists (f1 ++ e1), (f2 ++ e2). split; [|split].
  - rewrite F1, E1. apply app_assoc.
  - rewrite F2, E2. apply app_assoc.
  - apply subsequence_app; assumption.
Qed.

Lemma calls_pruned_more w1 w1a w1b w2 w2a :
  calls_pruned w1 w1a w2 w2a ->
  (exists e, evals w1b = e ++ evals w1a) ->
  calls_pruned w1 w1b w2 w2a.
Proof.
  intros (e1 & e2 & E1 & E2 & S) (f & F).
  exists (f ++ e1), e2. split; [|split].
  - rewrite F, E1. apply app_assoc.
  - exact E2.
  - change e2 with ([] ++ e2). apply subsequence_app; [apply subsequence_nil_l | exact S].
Qed.

Lemma calls_pruned_tick w1 w1' w2 w2' :
  calls_pruned (tick w1) w1' (tick w2) w2' -> calls_pruned w1 w1' w2 w2'.
Proof. intros H. exact H. Qed.

Lemma disciplined_child_value self depth mp c :
  disciplined self (child_value self depth mp c).
Proof.
  unfold child_value. destruct (Z.eqb depth 1).
  - apply disciplined_call_score.
  - apply disciplined_bind; [apply disciplined_minimax|].
    intros w r w' _. apply disciplined_ret.
Qed.

Lemma comprehension_extends self depth mp succ : forall w children w',
  comprehension (child_value self depth mp) succ w = (Ok children, w') ->
  exists e, evals w' = e ++ evals w.
Proof.
  induction succ as [|[m c] rest IH]; intros w children w' H; cbn in H.
  - inversion H; subst. exists []. reflexivity.
  - apply bind_inv_ok in H. destruct H as (s & w1 & Hs & H).
    apply bind_inv_ok in H. destruct H as (tl & w2 & Htl & H).
    inversion H; subst.
    destruct (returns_extend self _ _ _ _ (disciplined_child_value self depth mp c) Hs)
      as [e1 E1].
    destruct (IH _ _ _ Htl) as [e2 E2].
    exists (e2 ++ e1). rewrite E2, E1. apply app_assoc.
Qed.

Lemma loop_calls_pruned self depth mp
  (recurse : board -> float -> float -> M (float * move)) todo :
  Forall (fun mc => forall a b w1 s w1' w2 r w2',
            child_value self depth mp (snd mc) w1 = (Ok s, w1') ->
            recurse (snd mc) a b w2 = (Ok r, w2') ->
            calls_pruned w1 w1' w2 w2') todo ->
  forall a b best bm w1 children w1' w2 r w2',
    comprehension (child_value self depth mp) todo w1 = (Ok children, w1') ->
    alphabeta_loop recurse mp todo a b best bm w2 = (Ok r, w2') ->
    calls_pruned w1 w1' w2 w2'.
Proof.
  induction 1 as [|[m c] rest Hc Hrest IH];
    intros a b best bm w1 children w1' w2 r w2' H1 H2; cbn in H1, H2.
  - inversion H1; inversion H2; subst. apply calls_pruned_same.
  - apply bind_inv_ok in H1. destruct H1 as (s & w1a & Hs & H1).
    apply bind_inv_ok in H1. destruct H1 as (tl & w1b & Htl & H1).
    inversion H1; subst. clear H1.
    apply bind_inv_ok in H2. destruct H2 as (rc & w2a & Hrc & H2).
    pose proof (Hc a b _ _ _ _ _ _ Hs Hrc) as Pc. cbn [snd] in Pc.
    destruct (improves mp (fst rc) best).
    + destruct (__prune__ a b (fst rc) mp).
      * inversion H2; subst.
        apply (calls_pruned_more _ _ _ _ _ Pc).
        exact (comprehension_extends _ _ _ _ _ _ _ Htl).
      * destruct (__update_limit__ a b (fst rc) mp) as [a' b'].
        apply (calls_pruned_trans _ _ _ _ _ _ Pc). exact (IH _ _ _ _ _ _ _ _ _ _ Htl H2).
    + apply (calls_pruned_trans _ _ _ _ _ _ Pc). exact (IH _ _ _ _ _ _ _ _ _ _ Htl H2).
Qed.

Lemma alphabeta_calls_pruned self : forall game depth alpha beta mp w1 r1 w1' w2 r2 w2',
  (1 <= depth)%Z ->
  minimax self game depth mp w1 = (Ok r1, w1') ->
  alphabeta self game depth alpha beta mp w2 = (Ok r2, w2') ->
  calls_pruned w1 w1' w2 w2'.
Proof.
  induction game as [pos succ IH] using board_induction.
  intros depth alpha beta mp w1 r1 w1' w2 r2 w2' Hd H1 H2.
  rewrite minimax_unfold in H1. apply bind_inv_ok in H1.
  destruct H1 as ([] & w1a & T1 & H1). apply check_time_ok_inv in T1.
  destruct T1 as [-> _].
  rewrite alphabeta_unfold in H2. apply bind_inv_ok in H2.
  destruct H2 as ([] & w2a & T2 & H2). apply check_time_ok_inv in T2.
  destruct T2 as [-> _].
  apply calls_pruned_tick.
  unfold minimax_body in H1. unfold alphabeta_body in H2.
  assert (E0 : Z.eqb depth 0 = false) by (apply Z.eqb_neq; lia).
  rewrite E0 in H2. cbn [orb] in H2.
  destruct (is_empty (get_legal_moves (MkBoard pos succ))).
  - cbn in H1, H2. inversion H1; inversion H2; subst.
    exists [(MkBoard pos succ, self_handle self)], [(MkBoard pos succ, self_handle self)].
    repeat split. apply subsequence_refl.
  - apply bind_inv_ok in H1. destruct H1 as (children & w1b & Hch & H1).
    assert (Ew : w1' = w1b).
    { destruct children; cbn in H1; inversion H1; reflexivity. }
    subst w1b. cbn [board_successors] in *.
    refine (loop_calls_pruned self depth mp _ succ _ _ _ _ _ _ _ _ _ _ _ Hch H2).
    rewrite Forall_forall in *. intros mc Hin a b u1 s u1' u2 r u2' Hs Hr.
    unfold child_value in Hs. destruct (Z.eqb_spec depth 1) as [-> | Hne].
    + cbn in Hs. inversion Hs; subst. change (1 - 1)%Z with 0%Z in Hr.
      rewrite alphabeta_unfold in Hr. apply bind_inv_ok in Hr.
      destruct Hr as ([] & u2a & T & Hr). apply check_time_ok_inv in T.
      destruct T as [-> _]. unfold alphabeta_body in Hr. cbn in Hr.
      inversion Hr; subst.
      exists [(snd mc, self_handle self)], [(snd mc, self_handle self)].
      repeat split. apply subsequence_refl.
    + apply bind_inv_ok in Hs. destruct Hs as (rm & u1a & Hm & Hs).
      inversion Hs; subst.
      refine (IH mc Hin (depth - 1)%Z a b (negb mp) _ _ _ _ _ _ _ Hm Hr). lia.
Qed.

(** X11.  At a depth of at least 1, whatever the window and the heuristic,
    when [minimax] and [alphabeta] both return on a board, the heuristic
    calls of [alphabeta] are a subsequence of those of [minimax]: the same
    boards in the same order with some left out, so never more calls. *)
Theorem alphabeta_evaluates_no_more_than_minimax :
  forall self game depth alpha beta mp w1 r1 w1' w2 r2 w2',
    (1 <= depth)%Z ->
    minimax self game depth mp w1 = (Ok r1, w1') ->
    alphabeta self game depth alpha beta mp w2 = (Ok r2, w2') ->
    exists e1 e2,
      evals w1' = e1 ++ evals w1 /\ evals w2' = e2 ++ evals w2
      /\ subsequence e2 e1 /\ List.length e2 <= List.length e1.
Proof.
  intros self game depth alpha beta mp w1 r1 w1' w2 r2 w2' Hd H1 H2.
  destruct (alphabeta_calls_pruned self game depth alpha beta mp _ _ _ _ _ _ Hd H1 H2)
    as (e1 & e2 & E1 & E2 & S).
  exists e1, e2. repeat split; try assumption. apply subsequence_length. exact S.
Qed.

Lemma alphabeta_evaluates_no_more_than_minimax_witness :
  (1 <= 3)%Z
  /\ List.length (evals (snd (minimax minimax_agent switch_board 3 true fresh))) = 4
  /\ List.length
       (evals (snd (alphabeta minimax_agent switch_board 3 Py.neg_inf Py.inf true fresh)))
     = 1
  /\ exists e1 e2,
       evals (snd (minimax minimax_agent switch_board 3 true fresh))
       = e1 ++ evals fresh
       /\ evals (snd (alphabeta minimax_agent switch_board 3 Py.neg_inf Py.inf true fresh))
          = e2 ++ evals fresh
       /\ subsequence e2 e1 /\ List.length e2 <= List.length e1.
Proof.
  split; [lia|]. split; [vm_compute; reflexivity|].
  split; [vm_compute; reflexivity|].
  refine (alphabeta_evaluates_no_more_than_minimax minimax_agent switch_board 3
            Py.neg_inf Py.inf true
            fresh (Py.inf, (1, 0)%Z)
            (snd (minimax minimax_agent switch_board 3 true fresh))
            fresh (Py.inf, (0, 1)%Z)
            (snd (alphabeta minimax_agent switch_board 3 Py.neg_inf Py.inf true fresh))
            _ _ _).
  - lia.
  - vm_compute. reflexivity.
  - vm_compute. reflexivity.
Defined.

Lemma search_move_attains_value self sm game depth w r w' :
  (1 <= depth)%Z ->
  numeric_on (own_score self) game = true ->
  get_legal_moves game <> [] ->
  run_search self sm game depth w = (Ok r, w') ->
  exists c, In (snd r, c) (board_successors game)
            /\ rank (value_below self depth true c)
               = rank (reference_value (own_score self) game depth true).
Proof.
  intros Hd Hn Hl H. destruct sm; cbn [run_search] in H.
  - destruct (minimax_move_has_value _ _ _ _ _ _ _ Hd Hn Hl H) as (c & Hin & E).
    destruct (minimax_value self game depth true w r w' Hd Hn H) as [_ R].
    exists c. split; [exact Hin | lia].
  - destruct (alphabeta_first_best _ _ _ _ _ _ _ Hd Hn Hl H)
      as (pre & c & post & E & Ev & _).
    assert (Hd0 : (0 <= depth)%Z) by lia.
    destruct (alphabeta_answers_within self game depth true Hd0 Hn) as [Nv A].
    assert (W : (rank Py.neg_inf < rank Py.inf)%Z)
      by (rewrite rank_neg_inf, rank_inf; lia).
    destruct (A _ _ _ _ _ numeric_neg_inf numeric_inf W H) as [N2 S].
    pose proof (rank_range _ Nv) as Rv. pose proof (rank_range _ N2) as Rr.
    exists c. split.
    + rewrite E. apply in_or_app. right. left. reflexivity.
    + unfold within_window in S. rewrite rank_neg_inf, rank_inf in S. lia.
Qed.

(** X12.  In fixed-depth mode, with a supported method, a search depth of at
    least 1, a heuristic that is a number on the board and below it, and a
    clock that never reads under the threshold, [get_move] on a board with
    legal moves returns a move, and the board this move leads to has the
    value of the game to that depth: with either method the agent plays a
    best move. *)
Theorem get_move_fixed_depth_plays_best_move :
  forall fuel self game first rest tl sm w,
    iterative self = false ->
    choose_method (method self) = Some sm ->
    (1 <= search_depth self)%Z ->
    numeric_on (own_score self) game = true ->
    get_legal_moves game <> [] ->
    (forall n, Py.flt (tl n) (TIMER_THRESHOLD self) = false) ->
    exists m c w',
      get_move fuel self game (first :: rest) tl w = Some (Ok m, w')
      /\ In (m, c) (board_successors game)
      /\ Py.feq (value_below self (search_depth self) true c)
                (reference_value (own_score self) game (search_depth self) true)
         = true.
Proof.
  intros fuel self game first rest tl sm w Hi Hm Hd Hn Hl Hclock.
  rewrite (get_move_fixed _ _ _ _ _ _ sm _ Hi Hm).
  destruct (disciplined_returns (set_time_left self tl)
              (run_search (set_time_left self tl) sm game (search_depth self)) w
              (disciplined_run_search _ _ _ _) Hclock) as (r & w' & E).
  rewrite E.
  destruct (search_move_attains_value (set_time_left self tl) sm game
              (search_depth self) w r w' Hd Hn Hl E) as (c & Hin & R).
  exists (snd r), c, w'. split; [reflexivity|]. split; [exact Hin|].
  assert (B : Forall (fun mc => numeric_on (own_score self) (snd mc) = true)
                     (board_successors game)).
  { destruct game as [pos succ]. exact (numeric_on_below _ _ _ Hn). }
  rewrite Forall_forall in B. specialize (B _ Hin). cbn [snd] in B.
  apply feq_rank.
  - apply reference_value_numeric. exact B.
  - apply reference_value_numeric. exact Hn.
  - exact R.
Qed.

Lemma get_move_fixed_depth_plays_best_move_witness :
  iterative alphabeta_agent = false
  /\ choose_method (method alphabeta_agent) = Some UseAlphabeta
  /\ (1 <= search_depth alphabeta_agent)%Z
  /\ numeric_on (own_score alphabeta_agent) deep_board = true
  /\ get_legal_moves deep_board = [(2, 3)%Z; (3, 2)%Z]
  /\ reference_value (own_score alphabeta_agent) deep_board 3 true = 3.31%float
  /\ exists m c w',
       get_move 0 alphabeta_agent deep_board [(2, 3)%Z; (3, 2)%Z] plenty fresh
       = Some (Ok m, w')
       /\ In (m, c) (board_successors deep_board)
       /\ Py.feq (value_below alphabeta_agent (search_depth alphabeta_agent) true c)
                 (reference_value (own_score alphabeta_agent) deep_board
                    (search_depth alphabeta_agent) true)
          = true.
Proof.
  split; [reflexivity|]. split; [reflexivity|]. split; [vm_compute; discriminate|].
  split; [vm_compute; reflexivity|]. split; [vm_compute; reflexivity|].
  split; [vm_compute; reflexivity|].
  refine (get_move_fixed_depth_plays_best_move 0 alphabeta_agent deep_board
            (2, 3)%Z [(3, 2)%Z] plenty UseAlphabeta fresh _ _ _ _ _ _).
  - reflexivity.
  - reflexivity.
  - vm_compute. discriminate.
  - vm_compute. reflexivity.
  - vm_compute. discriminate.
  - intros n. vm_compute. reflexivity.
Defined.

Lemma deepen_returns_after self sm game : forall fuel d best w m w',
  deepen fuel (run_search self sm game) d best w = Some (Ok m, w') ->
  exists k wk,
    completed_rounds (run_search self sm game) k d best w = Some (m, wk)
    /\ run_search self sm game (d + Z.of_nat k)%Z wk = (Raise Timeout, w').
Proof.
  induction fuel as [|fuel IH]; intros d best w m w' H; cbn in H; [discriminate H|].
  destruct (run_search self sm game d w) as [[r|[|msg]] w1] eqn:E.
  - destruct (IH _ _ _ _ _ H) as (k & wk & Hc & Hr).
    exists (S k), wk. split.
    + cbn [completed_rounds]. rewrite E. exact Hc.
    + rewrite <- Hr. f_equal. lia.
  - inversion H; subst. exists 0, w. split; [reflexivity|].
    rewrite Z.add_0_r. exact E.
  - discriminate H.
Qed.

(** X13.  In iterative mode, with a supported method and a heuristic that
    is a number on the board and below it, when [get_move] returns on a
    board with legal moves then some number [k] of depths 1, ..., [k] were
    searched to the end and depth [k + 1] was aborted; the move returned
    is the first of the given moves when [k] is 0, and otherwise a move to
    a board that has the value of the game to depth [k]. *)
Theorem iterative_get_move_plays_best_move_of_last_depth :
  forall fuel self game first rest tl sm w m w',
    iterative self = true ->
    choose_method (method self) = Some sm ->
    numeric_on (own_score self) game = true ->
    get_legal_moves game <> [] ->
    get_move fuel self game (first :: rest) tl w = Some (Ok m, w') ->
    exists k wk,
      completed_rounds (run_search (set_time_left self tl) sm game) k 1 first w
      = Some (m, wk)
      /\ run_search (set_time_left self tl) sm game (1 + Z.of_nat k)%Z wk
         = (Raise Timeout, w')
      /\ (k = 0 -> m = first)
      /\ (1 <= k ->
          exists c, In (m, c) (board_successors game)
                    /\ Py.feq (value_below self (Z.of_nat k) true c)
                              (reference_value (own_score self) game (Z.of_nat k) true)
                       = true).
Proof.
  intros fuel self game first rest tl sm w m w' Hi Hm Hn Hl H.
  rewrite (get_move_iterative _ _ _ _ _ _ sm _ Hi Hm) in H.
  destruct (deepen_returns_after _ _ _ _ _ _ _ _ _ H) as (k & wk & Hc & Hr).
  exists k, wk. split; [exact Hc|]. split; [exact Hr|]. split.
  - intros ->. cbn in Hc. inversion Hc. reflexivity.
  - intros Hk. destruct k as [|j]; [lia|].
    destruct (completed_rounds_last _ _ _ _ _ _ _ Hc) as (mj & wj & r & _ & Hs & ->).
    assert (Hd : (1 <= 1 + Z.of_nat j)%Z) by lia.
    destruct (search_move_attains_value (set_time_left self tl) sm game
                (1 + Z.of_nat j)%Z wj r wk Hd Hn Hl Hs) as (c & Hin & R).
    exists c. split; [exact Hin|].
    assert (B : Forall (fun mc => numeric_on (own_score self) (snd mc) = true)
                       (board_successors game)).
    { destruct game as [pos succ]. exact (numeric_on_below _ _ _ Hn). }
    rewrite Forall_forall in B. specialize (B _ Hin). cbn [snd] in B.
    replace (Z.of_nat (S j)) with (1 + Z.of_nat j)%Z by lia.
    apply feq_rank.
    + apply reference_value_numeric. exact B.
    + apply reference_value_numeric. exact Hn.
    + exact R.
Qed.

Lemma iterative_get_move_plays_best_move_of_last_depth_witness :
  iterative deepening_agent = true
  /\ choose_method (method deepening_agent) = Some UseMinimax
  /\ numeric_on (own_score deepening_agent) switch_board = true
  /\ get_legal_moves switch_board = [(0, 1)%Z; (1, 0)%Z]
  /\ option_map fst
       (get_move 4 deepening_agent switch_board [(0, 1)%Z; (1, 0)%Z] (low_from 5) fresh)
     = Some (Ok (1, 0)%Z)
  /\ exists k wk,
       completed_rounds (run_search (set_time_left deepening_agent (low_from 5))
                           UseMinimax switch_board) k 1 (0, 1)%Z fresh
       = Some ((1, 0)%Z, wk)
       /\ run_search (set_time_left deepening_agent (low_from 5)) UseMinimax
            switch_board (1 + Z.of_nat k)%Z wk
          = (Raise Timeout,
             match get_move 4 deepening_agent switch_board [(0, 1)%Z; (1, 0)%Z]
                     (low_from 5) fresh with
             | Some out => snd out
             | None => fresh
             end)
       /\ (k = 0 -> (1, 0)%Z = (0, 1)%Z)
       /\ (1 <= k ->
           exists c, In ((1, 0)%Z, c) (board_successors switch_board)
                     /\ Py.feq (value_below deepening_agent (Z.of_nat k) true c)
                               (reference_value (own_score deepening_agent)
                                  switch_board (Z.of_nat k) true)
                        = true).
Proof.
  split; [reflexivity|]. split; [reflexivity|]. split; [vm_compute; reflexivity|].
  split; [vm_compute; reflexivity|]. split; [vm_compute; reflexivity|].
  refine (iterative_get_move_plays_best_move_of_last_depth 4 deepening_agent
            switch_board (0, 1)%Z [(1, 0)%Z] (low_from 5) UseMinimax fresh (1, 0)%Z
            _ _ _ _ _ _).
  - reflexivity.
  - reflexivity.
  - vm_compute. reflexivity.
  - vm_compute. discriminate.
  - vm_compute. reflexivity.
Defined.

(** ** The heuristic is a number *)

Lemma shr_1_not_negative mrs : (0 <= shr_m mrs)%Z -> (0 <= shr_m (shr_1 mrs))%Z.
Proof.
  destruct mrs as [m r s]. cbn [shr_m]. intros H.
  destruct m as [|[p|p|]|p]; cbn; lia.
Qed.

Lemma iter_shr_1_not_negative p : forall mrs,
  (0 <= shr_m mrs)%Z -> (0 <= shr_m (iter_pos shr_1 p mrs))%Z.
Proof.
  induction p as [p IH|p IH|]; intros mrs H; cbn [iter_pos].
  - apply IH, IH, shr_1_not_negative, H.
  - apply IH, IH, H.
  - apply shr_1_not_negative, H.
Qed.

Lemma shr_fexp_not_negative pr em m e l :
  (0 <= m)%Z -> (0 <= shr_m (fst (shr_fexp pr em m e l)))%Z.
Proof.
  intros H. unfold shr_fexp, shr.
  assert (H0 : (0 <= shr_m (shr_record_of_loc m l))%Z)
    by (destruct l as [|[| |]]; exact H).
  destruct (fexp pr em (Zdigits2 m + e) - e)%Z; cbn [fst]; try exact H0.
  apply iter_shr_1_not_negative, H0.
Qed.

Lemma round_nearest_even_not_negative m l :
  (0 <= m)%Z -> (0 <= round_nearest_even m l)%Z.
Proof.
  intros H. destruct l as [|[| |]]; cbn [round_nearest_even]; try lia.
  destruct (Z.even m); lia.
Qed.

Lemma binary_round_aux_not_negative pr em m e l :
  (0 <= m)%Z -> sf_not_negative (binary_round_aux pr em false m e l).
Proof.
  intros H. unfold binary_round_aux.
  pose proof (shr_fexp_not_negative pr em m e l H) as H1.
  destruct (shr_fexp pr em m e l) as [mrs' e']. cbn [fst] in H1.
  pose proof (shr_fexp_not_negative pr em _ e' loc_Exact
                (round_nearest_even_not_negative _ (loc_of_shr_record mrs') H1)) as H2.
  destruct (shr_fexp pr em _ e' loc_Exact) as [mrs'' e'']. cbn [fst] in H2.
  destruct (shr_m mrs'') as [|q|q]; [exact I | | lia].
  destruct (Z.leb e'' (em - pr)); exact I.
Qed.

Lemma binary_round_not_negative pr em m e :
  sf_not_negative (binary_round pr em false m e).
Proof.
  unfold binary_round. destruct (shl_align m e _) as [mz ez].
  apply binary_round_aux_not_negative. lia.
Qed.

Lemma SFmul_not_negative pr em x y :
  sf_not_negative x -> sf_not_negative y ->
  (exists m e, x = S754_finite false m e) ->
  sf_not_negative (SFmul pr em x y).
Proof.
  intros _ Hy (m & e & ->).
  destruct y as [s|[|]| |[|] my ey]; try contradiction; cbn; try exact I.
  apply binary_round_aux_not_negative. lia.
Qed.

Lemma SFadd_not_negative pr em x y :
  sf_not_negative x -> sf_not_negative y -> sf_not_negative (SFadd pr em x y).
Proof.
  intros Hx Hy.
  destruct x as [sx|[|]| |[|] mx ex]; try contradiction;
    destruct y as [sy|[|]| |[|] my ey]; try contradiction;
    cbn [SFadd]; try exact I.
  - destruct sx, sy; exact I.
  - cbn [cond_Zopp]. cbn [Z.add binary_normalize]. apply binary_round_not_negative.
Qed.

Lemma float_of_len_not_negative n : sf_not_negative (Prim2SF (Py.float_of_len n)).
Proof.
  unfold Py.float_of_len. rewrite FloatAxioms.of_uint63_spec.
  pose proof (Uint63.to_Z_bounded (Uint63.of_Z (Z.of_nat n))) as B.
  destruct (Uint63.to_Z (Uint63.of_Z (Z.of_nat n))) as [|p|p]; cbn [binary_normalize].
  - exact I.
  - apply binary_round_not_negative.
  - lia.
Qed.

Lemma not_negative_numeric x : sf_not_negative (Prim2SF x) -> numeric x.
Proof.
  unfold numeric, Py.is_nan, Py.feq. rewrite negb_false_iff, FloatAxioms.eqb_spec.
  unfold SFeqb. destruct (Prim2SF x) as [s|[|]| |[|] m e]; try contradiction;
    intros _; cbn; try reflexivity.
  rewrite Z.compare_refl, Pos.compare_cont_refl. reflexivity.
Qed.

Lemma weighted_moves_numeric (a b : nat) :
  numeric (0.77 * Py.float_of_len a + 0.23 * Py.float_of_len b)%float.
Proof.
  apply not_negative_numeric. rewrite FloatAxioms.add_spec, !FloatAxioms.mul_spec.
  apply SFadd_not_negative; apply SFmul_not_negative;
    try apply float_of_len_not_negative; try exact I.
  - eexists _, _. reflexivity.
  - eexists _, _. reflexivity.
Qed.

Lemma custom_score_numeric game p : numeric (custom_score game p).
Proof.
  unfold custom_score. destruct (is_loser _ p); [exact numeric_neg_inf|].
  destruct (is_winner _ p); [exact numeric_inf|]. apply weighted_moves_numeric.
Qed.

Lemma custom_score_numeric_on p : forall game,
  numeric_on (fun b => custom_score b p) game = true.
Proof.
  induction game as [pos succ IH] using board_induction. cbn [numeric_on].
  apply andb_true_iff. split.
  - apply negb_true_iff. apply custom_score_numeric.
  - apply forallb_forall. rewrite Forall_forall in IH. exact IH.
Qed.

(** X14.  [custom_score] never returns NaN: whatever the board answers
    about the loser, the winner and the numbers of moves, the score is
    minus infinity, plus infinity, or a number that is not negative. *)
Theorem custom_score_is_never_nan :
  forall game p,
    Py.is_nan (custom_score game p) = false
    /\ (custom_score game p = Py.neg_inf
        \/ Py.fle 0 (custom_score game p) = true).
Proof.
  intros game p. split; [apply custom_score_numeric|].
  unfold custom_score. destruct (is_loser _ p); [left; reflexivity|]. right.
  destruct (is_winner _ p); [reflexivity|].
  unfold Py.fle. rewrite FloatAxioms.leb_spec, FloatAxioms.add_spec, !FloatAxioms.mul_spec.
  set (a := List.length _). set (b := List.length _).
  assert (N : sf_not_negative
                (SF64add (SF64mul (Prim2SF 0.77) (Prim2SF (Py.float_of_len a)))
                         (SF64mul (Prim2SF 0.23) (Prim2SF (Py.float_of_len b))))).
  { apply SFadd_not_negative; apply SFmul_not_negative;
      try apply float_of_len_not_negative; try exact I;
      eexists _, _; reflexivity. }
  destruct (SF64add _ _) as [s|[|]| |[|] m e]; try contradiction; reflexivity.
Qed.

(** X15.  For an agent whose heuristic is [custom_score], and a depth of at
    least 1, [alphabeta] called with the window from minus infinity to plus
    infinity returns the same score as [minimax], on every board. *)
Theorem custom_score_alphabeta_score_equals_minimax_score :
  forall self game depth mp w1 r1 w1' w2 r2 w2',
    score self = custom_score ->
    (1 <= depth)%Z ->
    minimax self game depth mp w1 = (Ok r1, w1') ->
    alphabeta self game depth Py.neg_inf Py.inf mp w2 = (Ok r2, w2') ->
    Py.feq (fst r1) (fst r2) = true.
Proof.
  intros self game depth mp w1 r1 w1' w2 r2 w2' Hs Hd H1 H2.
  assert (Hn : numeric_on (own_score self) game = true).
  { unfold own_score. rewrite Hs. apply custom_score_numeric_on. }
  destruct (minimax_value self game depth mp w1 r1 w1' Hd Hn H1) as [N1 R1].
  assert (Hd0 : (0 <= depth)%Z) by lia.
  destruct (alphabeta_answers_within self game depth mp Hd0 Hn) as [Nv A].
  assert (W : (rank Py.neg_inf < rank Py.inf)%Z)
    by (rewrite rank_neg_inf, rank_inf; lia).
  destruct (A _ _ _ _ _ numeric_neg_inf numeric_inf W H2) as [N2 S].
  apply (feq_rank _ _ N1 N2). pose proof (rank_range _ Nv) as Rv.
  pose proof (rank_range _ N2) as R2.
  unfold within_window in S. rewrite rank_neg_inf, rank_inf in S. lia.
Qed.

Lemma custom_score_alphabeta_score_equals_minimax_score_witness :
  score minimax_agent = custom_score
  /\ (1 <= 2)%Z
  /\ fst (minimax minimax_agent tie_board 2 true fresh)
     = Ok (Py.neg_inf, (1, 0)%Z)
  /\ fst (alphabeta minimax_agent tie_board 2 Py.neg_inf Py.inf true fresh)
     = Ok (Py.neg_inf, (0, 1)%Z)
  /\ Py.feq Py.neg_inf Py.neg_inf = true.
Proof.
  split; [reflexivity|]. split; [lia|].
  split; [vm_compute; reflexivity|]. split; [vm_compute; reflexivity|].
  refine (custom_score_alphabeta_score_equals_minimax_score minimax_agent tie_board 2
            true
            fresh (Py.neg_inf, (1, 0)%Z)
            (snd (minimax minimax_agent tie_board 2 true fresh))
            fresh (Py.neg_inf, (0, 1)%Z)
            (snd (alphabeta minimax_agent tie_board 2 Py.neg_inf Py.inf true fresh))
            _ _ _ _).
  - reflexivity.
  - lia.
  - vm_compute. reflexivity.
  - vm_compute. reflexivity.
Defined.

(** ** heuristic_search.py: one round of matches *)

Lemma play_matches_season mr n p1 p2 : forall counts total s,
  matches (snd (play_matches mr n p1 p2 (counts, total, s)))
  = matches s ++ repeat (p1, p2) n.
Proof.
  induction n as [|n IH]; intros counts total s; cbn [play_matches repeat].
  - cbn. symmetry. apply app_nil_r.
  - unfold play_match. destruct (mr (List.length (matches s)) p1 p2) as [s1 s2].
    rewrite IH. cbn [matches]. rewrite <- app_assoc. reflexivity.
Qed.

Lemma play_pairing_season mr n a1 a2 wins total s :
  matches (snd (play_pairing mr n a1 a2 (wins, total, s)))
  = matches s ++ repeat (agent_player a1, agent_player a2) n
              ++ repeat (agent_player a2, agent_player a1) n.
Proof.
  unfold play_pairing.
  pose proof (play_matches_season mr n (agent_player a1) (agent_player a2)
                (new_counts (agent_player a1) (agent_player a2)) total s) as E1.
  destruct (play_matches mr n (agent_player a1) (agent_player a2)
              (new_counts (agent_player a1) (agent_player a2), total, s))
    as [[c1 t1] s1].
  pose proof (play_matches_season mr n (agent_player a2) (agent_player a1) c1 t1 s1) as E2.
  destruct (play_matches mr n (agent_player a2) (agent_player a1) (c1, t1, s1))
    as [[c2 t2] s2].
  cbn [snd] in *. rewrite E2, E1, <- app_assoc. reflexivity.
Qed.

Lemma pairings_season mr n a1 opponents : forall wins total s,
  matches (snd (fold_left (fun st a2 => play_pairing mr n a1 a2 st) opponents
                          (wins, total, s)))
  = matches s
    ++ flat_map (fun a2 => repeat (agent_player a1, agent_player a2) n
                           ++ repeat (agent_player a2, agent_player a1) n)
                opponents.
Proof.
  induction opponents as [|a2 rest IH]; intros wins total s; cbn [fold_left flat_map].
  - cbn. symmetry. apply app_nil_r.
  - pose proof (play_pairing_season mr n a1 a2 wins total s) as E.
    destruct (play_pairing mr n a1 a2 (wins, total, s)) as [[w1 t1] s1].
    rewrite IH. cbn [snd] in E. rewrite E, <- !app_assoc. reflexivity.
Qed.

Lemma pairings_without_matches mr a1 opponents : forall wins total s,
  exists wins',
    fold_left (fun st a2 => play_pairing mr 0 a1 a2 st) opponents (wins, total, s)
    = (wins', total, s).
Proof.
  induction opponents as [|a2 rest IH]; intros wins total s; cbn [fold_left].
  - exists wins. reflexivity.
  - unfold play_pairing at 2. cbn [play_matches]. apply IH.
Qed.

Lemma removelast_cons_length (l : list Agent) (x : Agent) :
  List.length (removelast (x :: l)) = List.length l.
Proof.
  revert x. induction l as [|y l IH]; intros x; [reflexivity|].
  change (removelast (x :: y :: l)) with (x :: removelast (y :: l)).
  cbn [List.length]. rewrite IH. reflexivity.
Qed.

(** X16.  Whatever the matches give, and whether the round ends with a
    percentage or with a division by zero, [play_round_2] on a roster that
    is not empty has [play_match] play, for each agent but the last in the
    order of the roster, [num_matches] matches with the last agent moving
    first and then [num_matches] with it moving second: twice
    [num_matches] times the number of opponents in all. *)
Theorem play_round_2_schedule :
  forall mr agents num_matches s,
    agents <> [] ->
    matches (snd (play_round_2 mr agents num_matches s))
    = matches s ++ schedule agents num_matches
    /\ List.length (schedule agents num_matches)
       = 2 * Z.to_nat num_matches * (List.length agents - 1).
Proof.
  intros mr agents num_matches s Hne.
  destruct agents as [|first rest]; [contradiction|]. split.
  - unfold play_round_2, schedule.
    pose proof (pairings_season mr (Z.to_nat num_matches) (last (first :: rest) first)
                  (removelast (first :: rest)) 0%float 0%float s) as E.
    destruct (fold_left _ (removelast (first :: rest)) (0%float, 0%float, s))
      as [[wins total] s'].
    cbn [snd] in E. destruct (Py.feq total 0); cbn [snd]; exact E.
  - unfold schedule.
    assert (L : forall (p : nat) n (l : list Agent),
               List.length
                 (flat_map (fun a2 => repeat (p, agent_player a2) n
                                      ++ repeat (agent_player a2, p) n) l)
               = 2 * n * List.length l).
    { intros p n l. induction l as [|a l IH]; cbn [flat_map List.length]; [lia|].
      rewrite !length_app, !repeat_length, IH. lia. }
    rewrite L. f_equal. rewrite removelast_cons_length. cbn [List.length]. lia.
Qed.

Lemma play_round_2_schedule_witness :
  sample_roster <> []
  /\ matches (snd (play_round_2 first_mover_wins sample_roster 2 new_season))
     = matches new_season
       ++ [(3, 1); (3, 1); (1, 3); (1, 3); (3, 2); (3, 2); (2, 3); (2, 3)]
  /\ List.length (schedule sample_roster 2) = 8.
Proof.
  split; [discriminate|].
  refine (play_round_2_schedule first_mover_wins sample_roster 2 new_season _).
  discriminate.
Defined.

(** X17.  [play_round_2] raises [IndexError] on the empty roster and on no
    other.  On a roster of one agent, and on any roster that is not empty
    when [num_matches] is zero or less, no match is played and the
    division of the last line raises [ZeroDivisionError]. *)
Theorem play_round_2_raises :
  forall mr agents num_matches s,
    (fst (play_round_2 mr agents num_matches s) = RoundRaise IndexError
     <-> agents = [])
    /\ (agents <> [] ->
        List.length agents = 1 \/ (num_matches <= 0)%Z ->
        play_round_2 mr agents num_matches s = (RoundRaise ZeroDivisionError, s)).
Proof.
  intros mr agents num_matches s. split; [split|].
  - destruct agents as [|first rest]; [reflexivity|].
    unfold play_round_2.
    destruct (fold_left _ (removelast (first :: rest)) (0%float, 0%float, s))
      as [[wins total] s'].
    destruct (Py.feq total 0); cbn [fst]; discriminate.
  - intros ->. reflexivity.
  - intros Hne Hcase. destruct agents as [|first rest]; [contradiction|].
    assert (Z0 : Py.feq 0 0 = true) by reflexivity.
    unfold play_round_2. destruct Hcase as [Hone | Hn].
    + destruct rest as [|second rest]; [|discriminate Hone].
      cbn [removelast fold_left]. rewrite Z0. reflexivity.
    + replace (Z.to_nat num_matches) with 0 by lia.
      destruct (pairings_without_matches mr (last (first :: rest) first)
                  (removelast (first :: rest)) 0%float 0%float s) as [wins' E].
      rewrite E, Z0. reflexivity.
Qed.
